(** * synthetism/kv: the in-memory key-value engine and its default codec

    A shallow embedding of
      - [serialization.ts] (both revisions found in the repository),
      - the final [MemoryAdapter] ([memory-final.adapter.ts]),
      - the [KeyValue] facade's [set] / [buildKey],
    followed by the properties of the storage engine.

    Conventions.
      - JavaScript strings are [string]s whose characters stand for UTF-16
        code units below 256; [String.length] is [.length].
      - JavaScript numbers that the engine computes with (timestamps, TTLs,
        counters, [maxKeys]) are integers, modelled in [Z]; [NaN], infinities
        and fractions are outside the model.
      - [Date.now()] is an explicit argument [now] of every operation that
        reads the clock.
      - A thrown exception is the [Thrown] outcome; the adapter state that an
        operation leaves behind is returned next to the outcome, also when
        it throws. *)

From Stdlib Require Import ZArith NArith List String Ascii Bool Lia.
From Stdlib Require Import DecimalString Decimal DecimalZ DecimalPos DecimalN.
From Stdlib Require Import DecimalFacts.
From Stdlib Require Strings.Byte.
Import ListNotations.

Local Open Scope string_scope.
Local Open Scope Z_scope.

(* ================================================================== *)
(** * Outcomes of a call: a returned value or a thrown [Error] *)

Inductive Error : Type := mkError (message : string).

Definition message (e : Error) : string :=
  match e with mkError m => m end.

Inductive outcome (A : Type) : Type :=
| Returned (a : A)
| Thrown (e : Error).

Arguments Returned {A} a.
Arguments Thrown {A} e.

(** Truthiness of an (integer) number: everything but [0]. *)
Definition truthy (n : Z) : bool := negb (n =? 0).

(** [a ?? b] on an optional number ([None] is [undefined]). *)
Definition nullish {A} (a b : option A) : option A :=
  match a with Some _ => a | None => b end.

(** [n || undefined]. *)
Definition or_undefined (n : Z) : option Z :=
  if truthy n then Some n else None.

(** Template-literal rendering of an integer, [`${n}`]. *)
Definition Number_toString (n : Z) : string :=
  NilZero.string_of_int (Z.to_int n).

(* ================================================================== *)
(** * [Map<string, A>]: an insertion-ordered association list

    Enumeration order is observable ([keys()] returns it), so the map is a
    list of pairs in insertion order; [set] on a key already present
    replaces the entry in place, as ECMAScript's [Map.prototype.set] does. *)

Module JSMap.
Section Ops.
Context {A : Type}.

Definition t := list (string * A).

Fixpoint get (k : string) (m : t) : option A :=
  match m with
  | [] => None
  | (k', a) :: r => if String.eqb k k' then Some a else get k r
  end.

Definition has (k : string) (m : t) : bool :=
  match get k m with Some _ => true | None => false end.

Fixpoint set (k : string) (a : A) (m : t) : t :=
  match m with
  | [] => [(k, a)]
  | (k', a') :: r =>
      if String.eqb k k' then (k, a) :: r else (k', a') :: set k a r
  end.

(** The map after [delete]; the boolean [delete] returns is [has]. *)
Fixpoint delete (k : string) (m : t) : t :=
  match m with
  | [] => []
  | (k', a') :: r =>
      if String.eqb k k' then r else (k', a') :: delete k r
  end.

Definition size (m : t) : Z := Z.of_nat (List.length m).

Definition keys (m : t) : list string := List.map fst m.

Definition entries (m : t) : list (string * A) := m.

Definition clear (m : t) : t := [].

(** Well-formedness of the representation: a key occurs once. *)
Definition wf (m : t) : Prop := NoDup (keys m).
End Ops.
Arguments t A : clear implicits.
End JSMap.

(* ================================================================== *)
(** * Serialization adapter interface ([SerializationAdapter]) *)

Record SerializationAdapter (V : Type) : Type := {
  serialize : V -> outcome string;
  deserialize : string -> outcome V
}.
Arguments serialize {V} _ _.
Arguments deserialize {V} _ _.

(** [identitySerializer], at the type of strings:
    [serialize = String(value)], [deserialize = data]. *)
Definition identitySerializer : SerializationAdapter string := {|
  serialize := fun value => Returned value;
  deserialize := fun data => Returned data
|}.

(* ================================================================== *)
(** * The final memory adapter ([MemoryAdapter]) *)

(** [StorageEntry]: [expires] absent is [None]. *)
Record StorageEntry : Type := {
  value : string;
  expires : option Z
}.

Module Stats.
Record MemoryStats : Type := {
  hits : Z;
  misses : Z;
  sets : Z;
  deletes : Z;
  expired : Z;
  keys : Z;
  memory : Z
}.
End Stats.
Abbreviation MemoryStats := Stats.MemoryStats.

(** [Required<MemoryAdapterConfig>]. *)
Record MemoryAdapterConfig (V : Type) : Type := {
  defaultTTL : Z;
  maxKeys : Z;
  cleanupInterval : Z;
  serialization : SerializationAdapter V
}.
Arguments defaultTTL {V} _.
Arguments maxKeys {V} _.
Arguments cleanupInterval {V} _.
Arguments serialization {V} _.

Module MemoryAdapter.
Section Adapter.
Context {V : Type}.

(** The object's fields.  [cleanupTimer] records whether an interval
    timer is armed; its ticks are calls of [cleanup]. *)
Record t : Type := {
  store : JSMap.t StorageEntry;
  cleanupTimer : bool;
  stats : MemoryStats;
  options : MemoryAdapterConfig V
}.

Definition with_store (st : t) (m : JSMap.t StorageEntry) : t :=
  {| store := m; cleanupTimer := cleanupTimer st;
     stats := stats st; options := options st |}.

Definition with_stats (st : t) (s : MemoryStats) : t :=
  {| store := store st; cleanupTimer := cleanupTimer st;
     stats := s; options := options st |}.

Definition zeroStats : MemoryStats :=
  {| Stats.hits := 0; Stats.misses := 0; Stats.sets := 0;
     Stats.deletes := 0; Stats.expired := 0; Stats.keys := 0;
     Stats.memory := 0 |}.

(** [this.stats.misses++] and its siblings. *)
Definition incr_hits (s : MemoryStats) : MemoryStats :=
  {| Stats.hits := Stats.hits s + 1; Stats.misses := Stats.misses s;
     Stats.sets := Stats.sets s; Stats.deletes := Stats.deletes s;
     Stats.expired := Stats.expired s; Stats.keys := Stats.keys s;
     Stats.memory := Stats.memory s |}.

Definition incr_misses (s : MemoryStats) : MemoryStats :=
  {| Stats.hits := Stats.hits s; Stats.misses := Stats.misses s + 1;
     Stats.sets := Stats.sets s; Stats.deletes := Stats.deletes s;
     Stats.expired := Stats.expired s; Stats.keys := Stats.keys s;
     Stats.memory := Stats.memory s |}.

Definition incr_sets (s : MemoryStats) : MemoryStats :=
  {| Stats.hits := Stats.hits s; Stats.misses := Stats.misses s;
     Stats.sets := Stats.sets s + 1; Stats.deletes := Stats.deletes s;
     Stats.expired := Stats.expired s; Stats.keys := Stats.keys s;
     Stats.memory := Stats.memory s |}.

Definition incr_deletes (s : MemoryStats) : MemoryStats :=
  {| Stats.hits := Stats.hits s; Stats.misses := Stats.misses s;
     Stats.sets := Stats.sets s; Stats.deletes := Stats.deletes s + 1;
     Stats.expired := Stats.expired s; Stats.keys := Stats.keys s;
     Stats.memory := Stats.memory s |}.

Definition incr_expired (s : MemoryStats) : MemoryStats :=
  {| Stats.hits := Stats.hits s; Stats.misses := Stats.misses s;
     Stats.sets := Stats.sets s; Stats.deletes := Stats.deletes s;
     Stats.expired := Stats.expired s + 1; Stats.keys := Stats.keys s;
     Stats.memory := Stats.memory s |}.

(** [getMemoryUsage]: two bytes per code unit of key and value, sixteen
    per entry. *)
Definition getMemoryUsage (st : t) : Z :=
  List.fold_left
    (fun bytes (ke : string * StorageEntry) =>
       bytes + Z.of_nat (String.length (fst ke)) * 2
             + Z.of_nat (String.length (value (snd ke))) * 2
             + 16)
    (JSMap.entries (store st)) 0.

(** [updateStats]: recompute the two snapshot counters. *)
Definition updateStats (st : t) : t :=
  with_stats st
    {| Stats.hits := Stats.hits (stats st);
       Stats.misses := Stats.misses (stats st);
       Stats.sets := Stats.sets (stats st);
       Stats.deletes := Stats.deletes (stats st);
       Stats.expired := Stats.expired (stats st);
       Stats.keys := JSMap.size (store st);
       Stats.memory := getMemoryUsage st |}.

Definition resetStats (st : t) : t := with_stats st zeroStats.

(** The constructor: an empty map, zeroed counters, and the timer armed
    when [cleanupInterval > 0]. *)
Definition create (config : MemoryAdapterConfig V) : t :=
  {| store := [];
     cleanupTimer := 0 <? cleanupInterval config;
     stats := zeroStats;
     options := config |}.

(** The expiry test shared by [get], [exists] and [cleanup]:
    [entry.expires && now > entry.expires]. *)
Definition isExpired (now : Z) (entry : StorageEntry) : bool :=
  match expires entry with
  | Some e => truthy e && (now >? e)
  | None => false
  end.

Definition get (now : Z) (key : string) (st : t) : outcome (option V) * t :=
  match JSMap.get key (store st) with
  | None => (Returned None, with_stats st (incr_misses (stats st)))
  | Some entry =>
      if isExpired now entry then
        let st1 := with_store st (JSMap.delete key (store st)) in
        let st2 := with_stats st1 (incr_expired (stats st1)) in
        (Returned None, updateStats st2)
      else
        let st1 := with_stats st (incr_hits (stats st)) in
        match deserialize (serialization (options st)) (value entry) with
        | Returned v => (Returned (Some v), st1)
        | Thrown e => (Thrown e, st1)
        end
  end.

Definition maxKeysError (st : t) : Error :=
  mkError ("[MemoryAdapter] Maximum keys limit ("
           ++ Number_toString (maxKeys (options st)) ++ ") reached").

(** [ttl ?? (this.options.defaultTTL || undefined)]. *)
Definition effectiveTTL (ttl : option Z) (st : t) : option Z :=
  nullish ttl (or_undefined (defaultTTL (options st))).

(** [effectiveTTL ? Date.now() + effectiveTTL : undefined]. *)
Definition expiresAt (now : Z) (eff : option Z) : option Z :=
  match eff with
  | Some ttl => if truthy ttl then Some (now + ttl) else None
  | None => None
  end.

Definition set (now : Z) (key : string) (v : V) (ttl : option Z) (st : t)
  : outcome unit * t :=
  if negb (JSMap.has key (store st))
     && (JSMap.size (store st) >=? maxKeys (options st))
  then (Thrown (maxKeysError st), st)
  else
    let expires := expiresAt now (effectiveTTL ttl st) in
    match serialize (serialization (options st)) v with
    | Thrown e => (Thrown e, st)
    | Returned serialized =>
        let entry := {| value := serialized; expires := expires |} in
        let st1 := with_store st (JSMap.set key entry (store st)) in
        let st2 := with_stats st1 (incr_sets (stats st1)) in
        (Returned tt, updateStats st2)
    end.

Definition delete (key : string) (st : t) : bool * t :=
  let existed := JSMap.has key (store st) in
  if existed then
    let st1 := with_store st (JSMap.delete key (store st)) in
    let st2 := with_stats st1 (incr_deletes (stats st1)) in
    (true, updateStats st2)
  else (false, st).

Definition exists_ (now : Z) (key : string) (st : t) : bool * t :=
  match JSMap.get key (store st) with
  | None => (false, st)
  | Some entry =>
      if isExpired now entry then
        let st1 := with_store st (JSMap.delete key (store st)) in
        let st2 := with_stats st1 (incr_expired (stats st1)) in
        (false, updateStats st2)
      else (true, st)
  end.

Definition clear (st : t) : t :=
  resetStats (with_store st (JSMap.clear (store st))).

(** [mset]: the loop awaits each [set]; [now i] is the clock reading of
    the [set] issued for position [i]; a throw leaves the loop. *)
Fixpoint mset_from (i : nat) (now : nat -> Z) (entries : list (string * V))
         (ttl : option Z) (st : t) : outcome unit * t :=
  match entries with
  | [] => (Returned tt, st)
  | (key, v) :: rest =>
      match set (now i) key v ttl st with
      | (Returned _, st') => mset_from (S i) now rest ttl st'
      | (Thrown e, st') => (Thrown e, st')
      end
  end.

Definition mset (now : nat -> Z) (entries : list (string * V))
           (ttl : option Z) (st : t) : outcome unit * t :=
  mset_from 0 now entries ttl st.

(** [mget]: [keys.map(key => this.get(key))] runs every [get] to its end
    in order (no [get] suspends); [Promise.all] rejects with the first
    rejection. *)
Fixpoint mget (now : Z) (ks : list string) (st : t)
  : outcome (list (option V)) * t :=
  match ks with
  | [] => (Returned [], st)
  | key :: rest =>
      let '(r, st1) := get now key st in
      let '(rs, st2) := mget now rest st1 in
      (match r, rs with
       | Thrown e, _ => Thrown e
       | Returned _, Thrown e => Thrown e
       | Returned x, Returned xs => Returned (x :: xs)
       end, st2)
  end.

Fixpoint deleteMany_loop (ks : list string) (deletedAny : bool) (st : t)
  : bool * t :=
  match ks with
  | [] => (deletedAny, st)
  | key :: rest =>
      let '(deleted, st1) := delete key st in
      deleteMany_loop rest (if deleted then true else deletedAny) st1
  end.

Definition deleteMany (ks : list string) (st : t) : bool * t :=
  deleteMany_loop ks false st.

Definition isHealthy (st : t) : bool := true.

Definition getStats (st : t) : MemoryStats * t :=
  let st1 := updateStats st in (stats st1, st1).

(** [keys()]: [Array.from(this.store.keys())]. *)
Definition keys (st : t) : list string := JSMap.keys (store st).

(** [cleanup()]: the loop body, run for each entry the iterator visits.
    The iterator is live, and the body deletes only the entry it is at,
    so the entries visited are those of the map at loop entry. *)
Fixpoint cleanup_loop (now : Z) (visit : list (string * StorageEntry))
         (cleaned : Z) (st : t) : Z * t :=
  match visit with
  | [] => (cleaned, st)
  | (key, entry) :: rest =>
      if isExpired now entry then
        let st1 := with_store st (JSMap.delete key (store st)) in
        let st2 := with_stats st1 (incr_expired (stats st1)) in
        cleanup_loop now rest (cleaned + 1) st2
      else cleanup_loop now rest cleaned st
  end.

Definition cleanup (now : Z) (st : t) : Z * t :=
  let '(cleaned, st1) :=
    cleanup_loop now (JSMap.entries (store st)) 0 st in
  (cleaned, updateStats st1).

Definition destroy (st : t) : t :=
  let st1 := {| store := store st; cleanupTimer := false;
                stats := stats st; options := options st |} in
  resetStats (with_store st1 (JSMap.clear (store st1))).

(** ** Histories: every way a client (or the timer) can drive the adapter *)

Inductive call : Type :=
| CGet (now : Z) (key : string)
| CSet (now : Z) (key : string) (v : V) (ttl : option Z)
| CDelete (key : string)
| CExists (now : Z) (key : string)
| CClear
| CCleanup (now : Z)
| CGetStats
| CDestroy.

Definition run (c : call) (st : t) : t :=
  match c with
  | CGet now key => snd (get now key st)
  | CSet now key v ttl => snd (set now key v ttl st)
  | CDelete key => snd (delete key st)
  | CExists now key => snd (exists_ now key st)
  | CClear => clear st
  | CCleanup now => snd (cleanup now st)
  | CGetStats => snd (getStats st)
  | CDestroy => destroy st
  end.

(** States reachable from a freshly constructed adapter. *)
Inductive reachable (config : MemoryAdapterConfig V) : t -> Prop :=
| reach_create : reachable config (create config)
| reach_run c st : reachable config st -> reachable config (run c st).

(** ** Vocabulary of the properties *)

(** An entry the sweep keeps. *)
Definition live (now : Z) (ke : string * StorageEntry) : bool :=
  negb (isExpired now (snd ke)).

Definition add_expired (n : Z) (s : MemoryStats) : MemoryStats :=
  {| Stats.hits := Stats.hits s; Stats.misses := Stats.misses s;
     Stats.sets := Stats.sets s; Stats.deletes := Stats.deletes s;
     Stats.expired := Stats.expired s + n; Stats.keys := Stats.keys s;
     Stats.memory := Stats.memory s |}.

Definition count_expired (now : Z) (m : JSMap.t StorageEntry) : Z :=
  Z.of_nat (List.length (List.filter (fun ke => isExpired now (snd ke)) m)).

(** The capacity bound, as it holds along every history: the map is
    empty or holds at most [maxKeys] entries. *)
Definition capacity_inv (st : t) : Prop :=
  JSMap.size (store st) = 0
  \/ JSMap.size (store st) <= maxKeys (options st).

Definition inv (config : MemoryAdapterConfig V) (st : t) : Prop :=
  options st = config /\ JSMap.wf (store st) /\ capacity_inv st.

(** A later look at one key: [get] or [exists], at some clock reading.
    The look [observes] the key when [get] does not return [null] or
    [exists] returns [true]. *)
Inductive probe : Type :=
| PGet (now : Z)
| PExists (now : Z).

Definition probe_time (p : probe) : Z :=
  match p with PGet now => now | PExists now => now end.

Definition run_probe (key : string) (p : probe) (st : t) : bool * t :=
  match p with
  | PGet now =>
      match get now key st with
      | (Returned None, st') => (false, st')
      | (_, st') => (true, st')
      end
  | PExists now => exists_ now key st
  end.

Fixpoint run_probes (key : string) (ps : list probe) (st : t)
  : list bool * t :=
  match ps with
  | [] => ([], st)
  | p :: rest =>
      let '(seen, st1) := run_probe key p st in
      let '(seens, st2) := run_probes key rest st1 in
      (seen :: seens, st2)
  end.

(** The key is absent, or its entry counts as expired from [now] on. *)
Definition hidden (now : Z) (key : string) (st : t) : Prop :=
  JSMap.wf (store st)
  /\ match JSMap.get key (store st) with
     | Some entry =>
         forall now', now <= now' -> isExpired now' entry = true
     | None => True
     end.

End Adapter.
Arguments t V : clear implicits.
End MemoryAdapter.

(* ================================================================== *)
(** * JavaScript values and the built-ins the codec calls

    [JSON.stringify], [JSON.parse], [String.prototype.startsWith] / [slice]
    and the base64 conversions of [Buffer] belong to the platform; they are
    modelled here on the value shapes the store supports.  Numbers are
    integers; a JSON number with a fraction or an exponent is not parsed. *)

Module JS.

Unset Elimination Schemes.
Inductive any : Type :=
| VUndefined
| VNull
| VBoolean (b : bool)
| VNumber (n : Z)
| VString (s : string)
| VBuffer (bytes : list Byte.byte)
| VArray (items : list any)
| VObject (props : list (string * any)).
Set Elimination Schemes.

(** The induction principle of [any], with the elements of an array and
    the values of an object as premises. *)
Section AnyInduction.
Variable P : any -> Prop.
Hypothesis Hundefined : P VUndefined.
Hypothesis Hnull : P VNull.
Hypothesis Hboolean : forall b, P (VBoolean b).
Hypothesis Hnumber : forall n, P (VNumber n).
Hypothesis Hstring : forall s, P (VString s).
Hypothesis Hbuffer : forall bytes, P (VBuffer bytes).
Hypothesis Harray : forall items, Forall P items -> P (VArray items).
Hypothesis Hobject :
  forall props, Forall (fun kx => P (snd kx)) props -> P (VObject props).

Fixpoint any_induction (v : any) : P v :=
  match v with
  | VUndefined => Hundefined
  | VNull => Hnull
  | VBoolean b => Hboolean b
  | VNumber n => Hnumber n
  | VString s => Hstring s
  | VBuffer bytes => Hbuffer bytes
  | VArray items =>
      Harray items
        ((fix all (l : list any) : Forall P l :=
            match l with
            | [] => Forall_nil P
            | x :: r => Forall_cons x (any_induction x) (all r)
            end) items)
  | VObject props =>
      Hobject props
        ((fix all (l : list (string * any))
            : Forall (fun kx => P (snd kx)) l :=
            match l with
            | [] => Forall_nil _
            | kx :: r =>
                Forall_cons (P := fun kx => P (snd kx)) kx
                            (any_induction (snd kx)) (all r)
            end) props)
  end.
End AnyInduction.

(** ** Strings *)

Fixpoint startsWith (s prefix : string) {struct prefix} : bool :=
  match prefix, s with
  | EmptyString, _ => true
  | String p prefix', String c s' => (p =? c)%char && startsWith s' prefix'
  | String _ _, EmptyString => false
  end.

(** [s.slice(n)] for [0 <= n]. *)
Fixpoint slice (n : nat) (s : string) : string :=
  match n, s with
  | O, _ => s
  | S n', String _ r => slice n' r
  | S _, EmptyString => EmptyString
  end.

Definition dquote : ascii := "034"%char.
Definition backslash : ascii := "092"%char.

Definition hexdigit (n : N) : ascii :=
  match String.get (N.to_nat n) "0123456789abcdef" with
  | Some c => c
  | None => "0"%char
  end.

(** [QuoteJSONString], one code unit. *)
Definition quote_char (c : ascii) : string :=
  let n := N_of_ascii c in
  if (n =? 8)%N then String backslash "b"
  else if (n =? 9)%N then String backslash "t"
  else if (n =? 10)%N then String backslash "n"
  else if (n =? 12)%N then String backslash "f"
  else if (n =? 13)%N then String backslash "r"
  else if (n =? 34)%N then String backslash (String dquote EmptyString)
  else if (n =? 92)%N then String backslash (String backslash EmptyString)
  else if (n <? 32)%N then
    String backslash
      (String "u" (String "0" (String "0"
         (String (hexdigit (n / 16)) (String (hexdigit (n mod 16))
            EmptyString)))))
  else String c EmptyString.

Fixpoint quote_chars (s : string) : string :=
  match s with
  | EmptyString => EmptyString
  | String c r => quote_char c ++ quote_chars r
  end.

Definition QuoteJSONString (s : string) : string :=
  String dquote (quote_chars s ++ String dquote EmptyString).

(** ** [Buffer] and base64 *)

Definition b64chars : string :=
  "ABCDEFGHIJKLMNOPQRSTUVWXYZabcdefghijklmnopqrstuvwxyz0123456789+/".

Definition b64char (i : N) : ascii :=
  match String.get (N.to_nat i) b64chars with
  | Some c => c
  | None => "="%char
  end.

(** [buf.toString("base64")]. *)
Fixpoint toString_base64 (bytes : list Byte.byte) : string :=
  match bytes with
  | [] => EmptyString
  | [a] =>
      let a := Byte.to_N a in
      String (b64char (a / 4)) (String (b64char ((a mod 4) * 16)) "==")
  | [a; b] =>
      let a := Byte.to_N a in
      let b := Byte.to_N b in
      String (b64char (a / 4))
        (String (b64char ((a mod 4) * 16 + b / 16))
           (String (b64char ((b mod 16) * 4)) "="))
  | a :: b :: c :: rest =>
      let a := Byte.to_N a in
      let b := Byte.to_N b in
      let c := Byte.to_N c in
      String (b64char (a / 4))
        (String (b64char ((a mod 4) * 16 + b / 16))
           (String (b64char ((b mod 16) * 4 + c / 64))
              (String (b64char (c mod 64)) (toString_base64 rest))))
  end%N.

Definition in_range (lo hi n : N) : bool := ((lo <=? n) && (n <=? hi))%N.

(** The decoder accepts the standard and the URL-safe alphabet. *)
Definition b64index (c : ascii) : option N :=
  let n := N_of_ascii c in
  if in_range 65 90 n then Some (n - 65)%N
  else if in_range 97 122 n then Some (n - 97 + 26)%N
  else if in_range 48 57 n then Some (n - 48 + 52)%N
  else if (n =? 43)%N || (n =? 45)%N then Some 62%N
  else if (n =? 47)%N || (n =? 95)%N then Some 63%N
  else None.

(** The decoder is lenient: it stops at the padding and steps over code
    units outside the alphabet. *)
Fixpoint sextets (s : string) : list N :=
  match s with
  | EmptyString => []
  | String c r =>
      if (c =? "=")%char then []
      else match b64index c with
           | Some i => i :: sextets r
           | None => sextets r
           end
  end.

Definition byte_of_N (n : N) : Byte.byte :=
  match Byte.of_N (n mod 256) with
  | Some b => b
  | None => Byte.x00
  end.

Fixpoint bytes_of_sextets (l : list N) : list Byte.byte :=
  match l with
  | a :: b :: c :: d :: rest =>
      byte_of_N (a * 4 + b / 16)
      :: byte_of_N ((b mod 16) * 16 + c / 4)
      :: byte_of_N ((c mod 4) * 64 + d)
      :: bytes_of_sextets rest
  | [a; b; c] =>
      [byte_of_N (a * 4 + b / 16); byte_of_N ((b mod 16) * 16 + c / 4)]
  | [a; b] => [byte_of_N (a * 4 + b / 16)]
  | _ => []
  end%N.

(** [Buffer.from(s, "base64")]. *)
Definition Buffer_from_base64 (s : string) : list Byte.byte :=
  bytes_of_sextets (sextets s).

(** ** [JSON.stringify] *)

(** [SerializeJSONProperty]: [None] is the [undefined] result.  Inside an
    array [undefined] prints as [null]; inside an object the property is
    left out.  A [Buffer] prints through its [toJSON()],
    [{ type: "Buffer", data: [...] }]. *)
Fixpoint SerializeJSONProperty (v : any) : option string :=
  match v with
  | VUndefined => None
  | VNull => Some "null"
  | VBoolean b => Some (if b then "true" else "false")
  | VNumber n => Some (Number_toString n)
  | VString s => Some (QuoteJSONString s)
  | VBuffer bytes =>
      Some ("{" ++ QuoteJSONString "type" ++ ":" ++ QuoteJSONString "Buffer"
            ++ "," ++ QuoteJSONString "data" ++ ":["
            ++ String.concat ","
                 (List.map
                    (fun b => Number_toString (Z.of_N (Byte.to_N b)))
                    bytes)
            ++ "]}")
  | VArray items =>
      Some ("["
            ++ String.concat ","
                 (List.map
                    (fun x => match SerializeJSONProperty x with
                              | Some s => s
                              | None => "null"
                              end)
                    items)
            ++ "]")
  | VObject props =>
      Some ("{"
            ++ String.concat ","
                 (List.flat_map
                    (fun kx =>
                       match SerializeJSONProperty (snd kx) with
                       | Some s => [QuoteJSONString (fst kx) ++ ":" ++ s]
                       | None => []
                       end)
                    props)
            ++ "}")
  end.

Definition JSON_stringify (v : any) : option string :=
  SerializeJSONProperty v.

(** ** [JSON.parse] *)

Definition SyntaxError : Error := mkError "SyntaxError".

Definition is_ws (c : ascii) : bool :=
  let n := N_of_ascii c in
  ((n =? 32) || (n =? 9) || (n =? 10) || (n =? 13))%N.

Fixpoint skip_ws (s : string) : string :=
  match s with
  | EmptyString => s
  | String c r => if is_ws c then skip_ws r else s
  end.

Definition is_digit (c : ascii) : bool := in_range 48 57 (N_of_ascii c).

Definition hexval (c : ascii) : option N :=
  let n := N_of_ascii c in
  if in_range 48 57 n then Some (n - 48)%N
  else if in_range 97 102 n then Some (n - 97 + 10)%N
  else if in_range 65 70 n then Some (n - 65 + 10)%N
  else None.

Definition hex4 (a b c d : ascii) : option N :=
  match hexval a, hexval b, hexval c, hexval d with
  | Some a, Some b, Some c, Some d =>
      Some (((a * 16 + b) * 16 + c) * 16 + d)%N
  | _, _, _, _ => None
  end.

(** The character a one-letter escape stands for. *)
Definition unescape (e : ascii) : option ascii :=
  if (e =? dquote)%char then Some dquote
  else if (e =? backslash)%char then Some backslash
  else if (e =? "/")%char then Some "/"%char
  else if (e =? "b")%char then Some "008"%char
  else if (e =? "f")%char then Some "012"%char
  else if (e =? "n")%char then Some "010"%char
  else if (e =? "r")%char then Some "013"%char
  else if (e =? "t")%char then Some "009"%char
  else None.

Definition cons_char (c : ascii) (r : option (string * string))
  : option (string * string) :=
  match r with
  | Some (s, rest) => Some (String c s, rest)
  | None => None
  end.

(** The characters of a string literal, after its opening quote. *)
Fixpoint parse_string_chars (s : string) : option (string * string) :=
  match s with
  | EmptyString => None
  | String c r =>
      if (c =? dquote)%char then Some (EmptyString, r)
      else if (c =? backslash)%char then
        match r with
        | EmptyString => None
        | String e r1 =>
            if (e =? "u")%char then
              match r1 with
              | String h1 (String h2 (String h3 (String h4 r2))) =>
                  match hex4 h1 h2 h3 h4 with
                  | Some n =>
                      if (n <? 256)%N
                      then cons_char (ascii_of_N n) (parse_string_chars r2)
                      else None
                  | None => None
                  end
              | _ => None
              end
            else
              match unescape e with
              | Some c' => cons_char c' (parse_string_chars r1)
              | None => None
              end
        end
      else if (N_of_ascii c <? 32)%N then None
      else cons_char c (parse_string_chars r)
  end.

Fixpoint span_digits (s : string) : string * string :=
  match s with
  | EmptyString => (EmptyString, EmptyString)
  | String c r =>
      if is_digit c
      then let '(ds, rest) := span_digits r in (String c ds, rest)
      else (EmptyString, s)
  end.

Definition starts_fraction (s : string) : bool :=
  match s with
  | String c _ => ((c =? ".") || (c =? "e") || (c =? "E"))%char
  | EmptyString => false
  end.

(** An integer literal: an optional sign, then [0] or a digit sequence
    without a leading zero. *)
Definition parse_number (s : string) : option (any * string) :=
  let '(negative, s1) :=
    match s with
    | String c r => if (c =? "-")%char then (true, r) else (false, s)
    | EmptyString => (false, s)
    end in
  let '(ds, rest) := span_digits s1 in
  match ds with
  | EmptyString => None
  | String d ds' =>
      if (d =? "0")%char && negb (String.eqb ds' EmptyString) then None
      else if starts_fraction rest then None
      else
        match NilEmpty.uint_of_string ds with
        | Some u =>
            let n := Z.of_N (N.of_uint u) in
            Some (VNumber (if negative then - n else n), rest)
        | None => None
        end
  end.

Definition literal (word : string) (v : any) (s : string)
  : option (any * string) :=
  if startsWith s word
  then Some (v, slice (String.length word) s)
  else None.

(** An object is built by defining its properties in source order; a
    repeated name overwrites the value and keeps the first position. *)
Definition object_of (members : list (string * any)) : any :=
  VObject (List.fold_left (fun o kx => JSMap.set (fst kx) (snd kx) o)
                          members []).

Fixpoint parse_value (fuel : nat) (s : string) : option (any * string) :=
  match fuel with
  | O => None
  | S fuel' =>
      match skip_ws s with
      | EmptyString => None
      | String c r as s' =>
          if (c =? "n")%char then literal "null" VNull s'
          else if (c =? "t")%char then literal "true" (VBoolean true) s'
          else if (c =? "f")%char then literal "false" (VBoolean false) s'
          else if (c =? dquote)%char then
            match parse_string_chars r with
            | Some (str, rest) => Some (VString str, rest)
            | None => None
            end
          else if (c =? "[")%char then
            match skip_ws r with
            | String c' r' =>
                if (c' =? "]")%char then Some (VArray [], r')
                else
                  match parse_elements fuel' r with
                  | Some (items, rest) => Some (VArray items, rest)
                  | None => None
                  end
            | EmptyString => None
            end
          else if (c =? "{")%char then
            match skip_ws r with
            | String c' r' =>
                if (c' =? "}")%char then Some (VObject [], r')
                else
                  match parse_members fuel' r with
                  | Some (members, rest) => Some (object_of members, rest)
                  | None => None
                  end
            | EmptyString => None
            end
          else parse_number s'
      end
  end
with parse_elements (fuel : nat) (s : string)
     : option (list any * string) :=
  match fuel with
  | O => None
  | S fuel' =>
      match parse_value fuel' s with
      | Some (v, rest) =>
          match skip_ws rest with
          | String c r =>
              if (c =? ",")%char then
                match parse_elements fuel' r with
                | Some (vs, rest') => Some (v :: vs, rest')
                | None => None
                end
              else if (c =? "]")%char then Some ([v], r)
              else None
          | EmptyString => None
          end
      | None => None
      end
  end
with parse_members (fuel : nat) (s : string)
     : option (list (string * any) * string) :=
  match fuel with
  | O => None
  | S fuel' =>
      match skip_ws s with
      | String q r0 =>
          if (q =? dquote)%char then
            match parse_string_chars r0 with
            | Some (name, r1) =>
                match skip_ws r1 with
                | String colon r2 =>
                    if (colon =? ":")%char then
                      match parse_value fuel' r2 with
                      | Some (v, rest) =>
                          match skip_ws rest with
                          | String c r =>
                              if (c =? ",")%char then
                                match parse_members fuel' r with
                                | Some (ms, rest') =>
                                    Some ((name, v) :: ms, rest')
                                | None => None
                                end
                              else if (c =? "}")%char
                              then Some ([(name, v)], r)
                              else None
                          | EmptyString => None
                          end
                      | None => None
                      end
                    else None
                | EmptyString => None
                end
            | None => None
            end
          else None
      | EmptyString => None
      end
  end.

(** [InternalizeJSONProperty]: the reviver is applied bottom-up, to the
    elements of an array (named by index) and the properties of an object
    before the holder itself.  (A reviver result of [undefined] would
    remove the property; the codec's reviver never returns it.) *)
Fixpoint internalize (reviver : string -> any -> any)
         (name : string) (v : any) : any :=
  match v with
  | VArray items =>
      reviver name
        (VArray
           ((fix each (i : Z) (l : list any) : list any :=
               match l with
               | [] => []
               | x :: r =>
                   internalize reviver (Number_toString i) x
                   :: each (i + 1) r
               end) 0 items))
  | VObject props =>
      reviver name
        (VObject
           (List.map (fun kx => (fst kx, internalize reviver (fst kx) (snd kx)))
                     props))
  | _ => reviver name v
  end.

(** [JSON.parse(text, reviver)]; the recursion depth of the parser is
    bounded by the length of the text. *)
Definition JSON_parse (text : string) (reviver : string -> any -> any)
  : outcome any :=
  match parse_value (2 * String.length text + 2) text with
  | Some (v, rest) =>
      match skip_ws rest with
      | EmptyString => Returned (internalize reviver EmptyString v)
      | String _ _ => Thrown SyntaxError
      end
  | None => Thrown SyntaxError
  end.

End JS.

(* ================================================================== *)
(** * [serialization.ts], the concise revision *)

Module Serialization.
Import JS.

(** The string case shared by both revisions:
    [JSON.stringify(value.startsWith(":") ? `:${value}` : any)]. *)
Definition serializeString (s : string) : string :=
  QuoteJSONString (if startsWith s ":" then ":" ++ s else s).

(** [JSON.stringify(`:base64:${value.toString("base64")}`)]. *)
Definition serializeBuffer (bytes : list Byte.byte) : string :=
  QuoteJSONString (":base64:" ++ toString_base64 bytes).

(** The last line is [JSON.stringify(value)]; its [undefined] result
    cannot arise there, [undefined] having been answered first. *)
Definition defaultSerialize (v : any) : string :=
  match v with
  | VUndefined | VNull => "null"
  | VString s => serializeString s
  | VBuffer bytes => serializeBuffer bytes
  | _ => match JSON_stringify v with
         | Some s => s
         | None => EmptyString
         end
  end.

(** The reviver handed to [JSON.parse]. *)
Definition reviver (_ : string) (v : any) : any :=
  match v with
  | VString s =>
      if startsWith s ":base64:"
      then VBuffer (Buffer_from_base64 (slice 8 s))
      else if startsWith s ":" then VString (slice 1 s) else v
  | _ => v
  end.

Definition defaultDeserialize (data : string) : outcome any :=
  JSON_parse data reviver.

(** [{ serialize: defaultSerialize, deserialize: defaultDeserialize }]. *)
Definition defaultAdapter : SerializationAdapter any := {|
  serialize := fun v => Returned (defaultSerialize v);
  deserialize := defaultDeserialize
|}.
End Serialization.

(* ================================================================== *)
(** * [serialization.ts], the revision that walks objects itself

    Functions and objects with a [toJSON] of their own ([Date]) are not
    among the modelled values, so the branches for them are not taken;
    [Buffer] is answered before its [toJSON] is looked at. *)

Module SerializationWalk.
Import JS.

Definition serializeString := Serialization.serializeString.
Definition serializeBuffer := Serialization.serializeBuffer.

Definition comma (first : bool) : string :=
  if first then EmptyString else ",".

(** The [for (const key in processedValue)] loops keep [result] and
    [first]; a property whose value is [undefined] is skipped in an
    object and printed (as [null]) in an array.  [defaultSerialize(key)]
    is the string case. *)
Fixpoint defaultSerialize (v : any) : string :=
  match v with
  | VUndefined | VNull => "null"
  | VString s => serializeString s
  | VBuffer bytes => serializeBuffer bytes
  | VArray items =>
      (fix loop (l : list any) (first : bool) (result : string) : string :=
         match l with
         | [] => result
         | val :: rest =>
             loop rest false (result ++ comma first ++ defaultSerialize val)
         end) items true "["
      ++ "]"
  | VObject props =>
      (fix loop (l : list (string * any)) (first : bool) (result : string)
         : string :=
         match l with
         | [] => result
         | (key, val) :: rest =>
             match val with
             | VUndefined => loop rest first result
             | _ =>
                 loop rest false
                   (result ++ comma first ++ serializeString key ++ ":"
                           ++ defaultSerialize val)
             end
         end) props true "{"
      ++ "}"
  | VBoolean _ | VNumber _ =>
      match JSON_stringify v with
      | Some s => s
      | None => EmptyString
      end
  end.

Definition reviver := Serialization.reviver.

Definition defaultDeserialize (data : string) : outcome any :=
  JSON_parse data reviver.

Definition defaultAdapter : SerializationAdapter any := {|
  serialize := fun v => Returned (defaultSerialize v);
  deserialize := defaultDeserialize
|}.
End SerializationWalk.

(* ================================================================== *)
(** * Vocabulary for the round trip of the codec *)

Module Shapes.
Import JS.

#[local] Abbreviation print := SerializationWalk.defaultSerialize.

(** The names of an object are pairwise distinct. *)
Fixpoint distinct_names (props : list (string * any)) : bool :=
  match props with
  | [] => true
  | (k, _) :: rest => negb (JSMap.has k rest) && distinct_names rest
  end.

(** A value without [undefined] in it whose objects have distinct names,
    none of which begins with the marker. *)
Fixpoint plain (v : any) : bool :=
  match v with
  | VUndefined => false
  | VNull | VBoolean _ | VNumber _ | VString _ | VBuffer _ => true
  | VArray items => forallb plain items
  | VObject props =>
      forallb (fun kx => negb (startsWith (fst kx) ":") && plain (snd kx)) props
      && distinct_names props
  end.

(** A value that has, at any depth, no [Buffer] and no string that begins
    with the marker. *)
Fixpoint unmarked (v : any) : bool :=
  match v with
  | VString s => negb (startsWith s ":")
  | VBuffer _ => false
  | VArray items => forallb unmarked items
  | VObject props => forallb (fun kx => unmarked (snd kx)) props
  | _ => true
  end.

(** The texts of the elements (or members), with the separating commas
    that the loops of [defaultSerialize] put between them. *)
Fixpoint joined (first : bool) (texts : list string) : string :=
  match texts with
  | [] => EmptyString
  | t :: rest => SerializationWalk.comma first ++ t ++ joined false rest
  end.

Definition member_text (kx : string * any) : string :=
  SerializationWalk.serializeString (fst kx) ++ ":"
  ++ SerializationWalk.defaultSerialize (snd kx).

(** What may come after a value inside a JSON text. *)
Definition follows (rest : string) : bool :=
  match rest with
  | EmptyString => true
  | String c _ => ((c =? ",") || (c =? "]") || (c =? "}"))%char
  end.

Definition ends_number (rest : string) : bool :=
  match rest with
  | EmptyString => true
  | String c _ => negb (is_digit c) && negb (starts_fraction rest)
  end.

Definition starts_value (c : ascii) : bool :=
  is_digit c
  || ((c =? "-") || (c =? "n") || (c =? "t") || (c =? "f") || (c =? dquote)
      || (c =? "[") || (c =? "{"))%char.

(** The text of [x] is parsed to [w] with fuel that covers its length,
    and the reviver turns [w] back into [x]. *)
Definition reads (x w : any) : Prop :=
  (forall name, internalize Serialization.reviver name w = x)
  /\ forall fuel rest,
      (String.length (print x) <= fuel)%nat ->
      follows rest = true ->
      parse_value fuel (print x ++ rest) = Some (w, rest).
End Shapes.

(* ================================================================== *)
(** * The [KeyValue] facade: [buildKey] and [set] *)

Module KeyValue.

(** [KeyValueProps]; [dna.id] is ["kv"]. *)
Record t : Type := {
  adapter : MemoryAdapter.t JS.any;
  defaultTTL : option Z;
  namespace : string
}.

Definition id : string := "kv".

Definition with_adapter (kv : t) (a : MemoryAdapter.t JS.any) : t :=
  {| adapter := a; defaultTTL := defaultTTL kv; namespace := namespace kv |}.

(** [this.props.namespace ? `${namespace}:${key}` : key]. *)
Definition buildKey (kv : t) (key : string) : string :=
  match namespace kv with
  | EmptyString => key
  | ns => ns ++ ":" ++ key
  end.

Definition isUndefined (v : JS.any) : bool :=
  match v with JS.VUndefined => true | _ => false end.

Definition set (now : Z) (key : string) (v : JS.any) (ttl : option Z)
           (kv : t) : outcome unit * t :=
  match key with
  | EmptyString =>
      (Thrown (mkError ("[" ++ id ++ "] Key must be a non-empty string")), kv)
  | _ =>
      if isUndefined v then
        (Thrown (mkError ("[" ++ id ++ "] Value cannot be undefined")), kv)
      else
        let fullKey := buildKey kv key in
        let effectiveTTL := nullish ttl (defaultTTL kv) in
        match MemoryAdapter.set now fullKey v effectiveTTL (adapter kv) with
        | (Returned r, a) => (Returned r, with_adapter kv a)
        | (Thrown error, a) =>
            (Thrown (mkError ("[" ++ id ++ "] Failed to set key: "
                              ++ message error)),
             with_adapter kv a)
        end
  end.

(** The other operations of the facade.  Each validates its arguments
    before anything else and wraps what the adapter throws; the modelled
    adapter's [delete], [exists], [clear] and [deleteMany] do not throw, so
    their [catch] clauses are not taken. *)

(** [!key || typeof key !== 'string'], on a string. *)
Definition isEmpty (key : string) : bool :=
  match key with EmptyString => true | String _ _ => false end.

(** [new Error(`[${this.dna.id}] ...`)]. *)
Definition failure (text : string) : Error :=
  mkError ("[" ++ id ++ "] " ++ text).

(** [`[${this.dna.id}] Failed to ...: ${error.message}`]. *)
Definition wrapped (what : string) (error : Error) : Error :=
  failure ("Failed to " ++ what ++ ": " ++ message error).

Definition get (now : Z) (key : string) (kv : t)
  : outcome (option JS.any) * t :=
  if isEmpty key then (Thrown (failure "Key must be a non-empty string"), kv)
  else
    let fullKey := buildKey kv key in
    match MemoryAdapter.get now fullKey (adapter kv) with
    | (Returned r, a) => (Returned r, with_adapter kv a)
    | (Thrown error, a) =>
        (Thrown (wrapped "get key" error), with_adapter kv a)
    end.

Definition delete (key : string) (kv : t) : outcome bool * t :=
  if isEmpty key then (Thrown (failure "Key must be a non-empty string"), kv)
  else
    let fullKey := buildKey kv key in
    let '(existed, a) := MemoryAdapter.delete fullKey (adapter kv) in
    (Returned existed, with_adapter kv a).

Definition exists_ (now : Z) (key : string) (kv : t) : outcome bool * t :=
  if isEmpty key then (Thrown (failure "Key must be a non-empty string"), kv)
  else
    let fullKey := buildKey kv key in
    let '(found, a) := MemoryAdapter.exists_ now fullKey (adapter kv) in
    (Returned found, with_adapter kv a).

Definition clear (kv : t) : outcome unit * t :=
  (Returned tt, with_adapter kv (MemoryAdapter.clear (adapter kv))).

(** [keys.map(key => { if (!key ...) throw ...; return this.buildKey(key) })]:
    the first empty key throws. *)
Fixpoint fullKeys (kv : t) (keys : list string) : outcome (list string) :=
  match keys with
  | [] => Returned []
  | key :: rest =>
      if isEmpty key
      then Thrown (failure "All keys must be non-empty strings")
      else match fullKeys kv rest with
           | Returned ks => Returned (buildKey kv key :: ks)
           | Thrown e => Thrown e
           end
  end.

Definition mget (now : Z) (keys : list string) (kv : t)
  : outcome (list (option JS.any)) * t :=
  match fullKeys kv keys with
  | Thrown e => (Thrown e, kv)
  | Returned ks =>
      match MemoryAdapter.mget now ks (adapter kv) with
      | (Returned rs, a) => (Returned rs, with_adapter kv a)
      | (Thrown error, a) =>
          (Thrown (wrapped "get multiple keys" error), with_adapter kv a)
      end
  end.

(** The [entries.map(...)] of [mset]: the checks run entry by entry, the
    key's before the value's. *)
Fixpoint fullEntries (kv : t) (entries : list (string * JS.any))
  : outcome (list (string * JS.any)) :=
  match entries with
  | [] => Returned []
  | (key, v) :: rest =>
      if isEmpty key
      then Thrown (failure "All keys must be non-empty strings")
      else if isUndefined v
      then Thrown (failure "Values cannot be undefined")
      else match fullEntries kv rest with
           | Returned es => Returned ((buildKey kv key, v) :: es)
           | Thrown e => Thrown e
           end
  end.

Definition mset (clock : nat -> Z) (entries : list (string * JS.any))
           (ttl : option Z) (kv : t) : outcome unit * t :=
  match fullEntries kv entries with
  | Thrown e => (Thrown e, kv)
  | Returned es =>
      let effectiveTTL := nullish ttl (defaultTTL kv) in
      match MemoryAdapter.mset clock es effectiveTTL (adapter kv) with
      | (Returned r, a) => (Returned r, with_adapter kv a)
      | (Thrown error, a) =>
          (Thrown (wrapped "set multiple keys" error), with_adapter kv a)
      end
  end.

Definition deleteMany (keys : list string) (kv : t) : outcome bool * t :=
  match fullKeys kv keys with
  | Thrown e => (Thrown e, kv)
  | Returned ks =>
      let '(deleted, a) := MemoryAdapter.deleteMany ks (adapter kv) in
      (Returned deleted, with_adapter kv a)
  end.

Definition isHealthy (kv : t) : bool := MemoryAdapter.isHealthy (adapter kv).

(** Whether a namespace or key holds the separator of [buildKey]. *)
Fixpoint hasColon (s : string) : bool :=
  match s with
  | EmptyString => false
  | String c r => (c =? ":")%char || hasColon r
  end.

End KeyValue.

(* ================================================================== *)
(** * Concrete adapters and histories, after the test suite *)

Module Examples.
Import JS.

(** [new MemoryAdapter({ maxKeys: 100, defaultTTL: 0, cleanupInterval: 0 })]. *)
Definition testConfig : MemoryAdapterConfig any := {|
  defaultTTL := 0;
  maxKeys := 100;
  cleanupInterval := 0;
  serialization := Serialization.defaultAdapter
|}.

(** [new MemoryAdapter({ maxKeys: 1, cleanupInterval: 0 })]. *)
Definition smallConfig : MemoryAdapterConfig any := {|
  defaultTTL := 0;
  maxKeys := 1;
  cleanupInterval := 0;
  serialization := Serialization.defaultAdapter
|}.

(** [new MemoryAdapter({ defaultTTL: 1000, cleanupInterval: 0 })]. *)
Definition ttlConfig : MemoryAdapterConfig any := {|
  defaultTTL := 1000;
  maxKeys := 10000;
  cleanupInterval := 0;
  serialization := Serialization.defaultAdapter
|}.

(** A clock reading, in milliseconds since the epoch. *)
Definition t0 : Z := 1700000000000.

Definition history (config : MemoryAdapterConfig any)
           (calls : list (MemoryAdapter.call (V := any)))
  : MemoryAdapter.t any :=
  List.fold_left (fun st c => MemoryAdapter.run c st) calls
                 (MemoryAdapter.create config).

(** [set('key1', 'value1'); set('temp', 'value', 50)]. *)
Definition keyAndTemp : MemoryAdapter.t any :=
  history testConfig
    [MemoryAdapter.CSet t0 "key1" (VString "value1") None;
     MemoryAdapter.CSet t0 "temp" (VString "value") (Some 50)].

(** [set('temp', 'value', 50)]. *)
Definition onlyTemp : MemoryAdapter.t any :=
  history testConfig
    [MemoryAdapter.CSet t0 "temp" (VString "value") (Some 50)].

(** [set('k', 'v', -t0)] issued when the clock reads [t0]. *)
Definition zeroExpiry : MemoryAdapter.t any :=
  history testConfig
    [MemoryAdapter.CSet t0 "k" (VString "v") (Some (- t0))].

(** [set('key1', 'value1')] on the one-key adapter. *)
Definition full : MemoryAdapter.t any :=
  history smallConfig
    [MemoryAdapter.CSet t0 "key1" (VString "value1") None].

Definition facade : KeyValue.t := {|
  KeyValue.adapter := MemoryAdapter.create ttlConfig;
  KeyValue.defaultTTL := Some 5000;
  KeyValue.namespace := "demo"
|}.
End Examples.

(* ================================================================== *)
(** * Vocabulary for what the adapter's operations let a client observe *)

Module Observations.
Section Observations.
Context {V : Type}.

(** [Promise.all] over promises that have settled: the values in order, or
    the first rejection. *)
Fixpoint collect {A : Type} (rs : list (outcome A)) : outcome (list A) :=
  match rs with
  | [] => Returned []
  | r :: rest =>
      match r, collect rest with
      | Thrown e, _ => Thrown e
      | Returned _, Thrown e => Thrown e
      | Returned x, Returned xs => Returned (x :: xs)
      end
  end.

(** What [get] hands back for a stored text. *)
Definition decoded (codec : SerializationAdapter V) (text : string)
  : outcome (option V) :=
  match deserialize codec text with
  | Returned x => Returned (Some x)
  | Thrown e => Thrown e
  end.

(** The lookups counted so far, whatever they found. *)
Definition lookups (s : MemoryStats) : Z :=
  Stats.hits s + Stats.misses s + Stats.expired s.

(** The bytes [getMemoryUsage] charges for one entry. *)
Definition weight (ke : string * StorageEntry) : Z :=
  Z.of_nat (String.length (fst ke)) * 2
  + Z.of_nat (String.length (value (snd ke))) * 2 + 16.

(** The two snapshot counters agree with the map, and no counter is
    negative. *)
Definition stats_current (st : MemoryAdapter.t V) : Prop :=
  Stats.keys (MemoryAdapter.stats st) = JSMap.size (MemoryAdapter.store st)
  /\ Stats.memory (MemoryAdapter.stats st) = MemoryAdapter.getMemoryUsage st
  /\ 0 <= Stats.hits (MemoryAdapter.stats st)
  /\ 0 <= Stats.misses (MemoryAdapter.stats st)
  /\ 0 <= Stats.sets (MemoryAdapter.stats st)
  /\ 0 <= Stats.deletes (MemoryAdapter.stats st)
  /\ 0 <= Stats.expired (MemoryAdapter.stats st).

End Observations.
End Observations.

(* ================================================================== *)
(** * Further concrete states and values *)

Module MoreExamples.
Import JS Examples.

(** [set('a', 'x'); set('b', 'y', 50); set('c', 'z')]. *)
Definition three : MemoryAdapter.t any :=
  history testConfig
    [MemoryAdapter.CSet t0 "a" (VString "x") None;
     MemoryAdapter.CSet t0 "b" (VString "y") (Some 50);
     MemoryAdapter.CSet t0 "c" (VString "z") None].

(** [[['a', 1], ['b', 2], ['a', 3]]]. *)
Definition batch : list (string * any) :=
  [("a", VNumber 1); ("b", VNumber 2); ("a", VNumber 3)].

(** [kv.set('user', 'Alice', 100)] on the facade of the examples. *)
Definition facadeAfterSet : KeyValue.t :=
  snd (KeyValue.set t0 "user" (VString "Alice") (Some 100) facade).

(** A second facade over the same kind of adapter, namespace ['demo:user']. *)
Definition otherFacade : KeyValue.t := {|
  KeyValue.adapter := MemoryAdapter.create ttlConfig;
  KeyValue.defaultTTL := None;
  KeyValue.namespace := "demo:user"
|}.

(** [{ list: [':x', Buffer.from([0, 255])], n: -12, ok: true }]. *)
Definition nested : any :=
  VObject [("list", VArray [VString ":x"; VBuffer [Byte.x00; Byte.xff]]);
           ("n", VNumber (-12));
           ("ok", VBoolean true)].

(** [{ name: 'Alice', tags: ['a', 'b'], age: 30, note: null }]. *)
Definition profile : any :=
  VObject [("name", VString "Alice");
           ("tags", VArray [VString "a"; VString "b"]);
           ("age", VNumber 30);
           ("note", VNull)].
End MoreExamples.

(* ================================================================== *)
(** * [EnhancedMemoryAdapter] ([enhanced-memory.adapter.ts]) *)

Module EnhancedMemoryAdapter.
Section Adapter.
Context {V : Type}.

(** [Required<EnhancedMemoryAdapterConfig>]: the codec is two functions of
    the options object. *)
Record Config : Type := {
  maxKeys : Z;
  defaultTTL : Z;
  cleanupInterval : Z;
  serialize : V -> outcome string;
  deserialize : string -> outcome V
}.

(** [{ hits, misses, sets, deletes, expired }]. *)
Record Counters : Type := {
  hits : Z;
  misses : Z;
  sets : Z;
  deletes : Z;
  expired : Z
}.

Record t : Type := {
  store : JSMap.t StorageEntry;
  cleanupTimer : bool;
  stats : Counters;
  options : Config
}.

Definition name : string := "enhanced-memory".

Definition with_store (st : t) (m : JSMap.t StorageEntry) : t :=
  {| store := m; cleanupTimer := cleanupTimer st;
     stats := stats st; options := options st |}.

Definition with_stats (st : t) (s : Counters) : t :=
  {| store := store st; cleanupTimer := cleanupTimer st;
     stats := s; options := options st |}.

Definition zeroStats : Counters :=
  {| hits := 0; misses := 0; sets := 0; deletes := 0; expired := 0 |}.

Definition incr_hits (s : Counters) : Counters :=
  {| hits := hits s + 1; misses := misses s; sets := sets s;
     deletes := deletes s; expired := expired s |}.

Definition incr_misses (s : Counters) : Counters :=
  {| hits := hits s; misses := misses s + 1; sets := sets s;
     deletes := deletes s; expired := expired s |}.

Definition incr_sets (s : Counters) : Counters :=
  {| hits := hits s; misses := misses s; sets := sets s + 1;
     deletes := deletes s; expired := expired s |}.

Definition incr_deletes (s : Counters) : Counters :=
  {| hits := hits s; misses := misses s; sets := sets s;
     deletes := deletes s + 1; expired := expired s |}.

Definition incr_expired (s : Counters) : Counters :=
  {| hits := hits s; misses := misses s; sets := sets s;
     deletes := deletes s; expired := expired s + 1 |}.

Definition create (config : Config) : t :=
  {| store := [];
     cleanupTimer := 0 <? cleanupInterval config;
     stats := zeroStats;
     options := config |}.

Definition get (now : Z) (key : string) (st : t) : outcome (option V) * t :=
  match JSMap.get key (store st) with
  | None => (Returned None, with_stats st (incr_misses (stats st)))
  | Some entry =>
      if MemoryAdapter.isExpired now entry then
        let st1 := with_store st (JSMap.delete key (store st)) in
        (Returned None, with_stats st1 (incr_expired (stats st1)))
      else
        let st1 := with_stats st (incr_hits (stats st)) in
        match deserialize (options st) (value entry) with
        | Returned v => (Returned (Some v), st1)
        | Thrown e => (Thrown e, st1)
        end
  end.

(** [`[${this.name}] Maximum keys limit (${this.options.maxKeys}) reached`]. *)
Definition maxKeysError (st : t) : Error :=
  mkError ("[" ++ name ++ "] Maximum keys limit ("
           ++ Number_toString (maxKeys (options st)) ++ ") reached").

(** [ttl ?? (this.options.defaultTTL || undefined)]. *)
Definition effectiveTTL (ttl : option Z) (st : t) : option Z :=
  nullish ttl (or_undefined (defaultTTL (options st))).

Definition set (now : Z) (key : string) (v : V) (ttl : option Z) (st : t)
  : outcome unit * t :=
  if negb (JSMap.has key (store st))
     && (JSMap.size (store st) >=? maxKeys (options st))
  then (Thrown (maxKeysError st), st)
  else
    let expires := MemoryAdapter.expiresAt now (effectiveTTL ttl st) in
    match serialize (options st) v with
    | Thrown e => (Thrown e, st)
    | Returned serialized =>
        let entry := {| value := serialized; expires := expires |} in
        let st1 := with_store st (JSMap.set key entry (store st)) in
        (Returned tt, with_stats st1 (incr_sets (stats st1)))
    end.

Definition delete (key : string) (st : t) : bool * t :=
  if JSMap.has key (store st) then
    let st1 := with_store st (JSMap.delete key (store st)) in
    (true, with_stats st1 (incr_deletes (stats st1)))
  else (false, st).

Definition exists_ (now : Z) (key : string) (st : t) : bool * t :=
  match JSMap.get key (store st) with
  | None => (false, st)
  | Some entry =>
      if MemoryAdapter.isExpired now entry then
        let st1 := with_store st (JSMap.delete key (store st)) in
        (false, with_stats st1 (incr_expired (stats st1)))
      else (true, st)
  end.

Definition clear (st : t) : t :=
  with_stats (with_store st (JSMap.clear (store st))) zeroStats.

Fixpoint mget (now : Z) (ks : list string) (st : t)
  : outcome (list (option V)) * t :=
  match ks with
  | [] => (Returned [], st)
  | key :: rest =>
      let '(r, st1) := get now key st in
      let '(rs, st2) := mget now rest st1 in
      (match r, rs with
       | Thrown e, _ => Thrown e
       | Returned _, Thrown e => Thrown e
       | Returned x, Returned xs => Returned (x :: xs)
       end, st2)
  end.

Fixpoint mset_from (i : nat) (now : nat -> Z) (entries : list (string * V))
         (ttl : option Z) (st : t) : outcome unit * t :=
  match entries with
  | [] => (Returned tt, st)
  | (key, v) :: rest =>
      match set (now i) key v ttl st with
      | (Returned _, st') => mset_from (S i) now rest ttl st'
      | (Thrown e, st') => (Thrown e, st')
      end
  end.

Definition mset (now : nat -> Z) (entries : list (string * V))
           (ttl : option Z) (st : t) : outcome unit * t :=
  mset_from 0 now entries ttl st.

Fixpoint deleteMany_loop (ks : list string) (deletedAny : bool) (st : t)
  : bool * t :=
  match ks with
  | [] => (deletedAny, st)
  | key :: rest =>
      let '(deleted, st1) := delete key st in
      deleteMany_loop rest (if deleted then true else deletedAny) st1
  end.

Definition deleteMany (ks : list string) (st : t) : bool * t :=
  deleteMany_loop ks false st.

Definition isHealthy (st : t) : bool := true.

Definition getMemoryUsage (st : t) : Z :=
  List.fold_left
    (fun bytes (ke : string * StorageEntry) =>
       bytes + Z.of_nat (String.length (fst ke)) * 2
             + Z.of_nat (String.length (value (snd ke))) * 2
             + 16)
    (JSMap.entries (store st)) 0.

(** [{ ...this.stats, keys: this.store.size, memory: this.getMemoryUsage() }]:
    a fresh object, nothing is written back. *)
Definition getStats (st : t) : MemoryStats :=
  {| Stats.hits := hits (stats st);
     Stats.misses := misses (stats st);
     Stats.sets := sets (stats st);
     Stats.deletes := deletes (stats st);
     Stats.expired := expired (stats st);
     Stats.keys := JSMap.size (store st);
     Stats.memory := getMemoryUsage st |}.

Definition keys (st : t) : list string := JSMap.keys (store st).

Fixpoint cleanup_loop (now : Z) (visit : list (string * StorageEntry))
         (cleaned : Z) (st : t) : Z * t :=
  match visit with
  | [] => (cleaned, st)
  | (key, entry) :: rest =>
      if MemoryAdapter.isExpired now entry then
        let st1 := with_store st (JSMap.delete key (store st)) in
        let st2 := with_stats st1 (incr_expired (stats st1)) in
        cleanup_loop now rest (cleaned + 1) st2
      else cleanup_loop now rest cleaned st
  end.

Definition cleanup (now : Z) (st : t) : Z * t :=
  cleanup_loop now (JSMap.entries (store st)) 0 st.

(** [destroy()]: the timer is cleared and the map emptied; the counters
    are not touched. *)
Definition destroy (st : t) : t :=
  let st1 := {| store := store st; cleanupTimer := false;
                stats := stats st; options := options st |} in
  with_store st1 (JSMap.clear (store st1)).

(** One call of a client (or a tick of the timer), on the calls of the
    final adapter's histories; [getStats] writes nothing here. *)
Definition run (c : MemoryAdapter.call (V := V)) (st : t) : t :=
  match c with
  | MemoryAdapter.CGet now key => snd (get now key st)
  | MemoryAdapter.CSet now key v ttl => snd (set now key v ttl st)
  | MemoryAdapter.CDelete key => snd (delete key st)
  | MemoryAdapter.CExists now key => snd (exists_ now key st)
  | MemoryAdapter.CClear => clear st
  | MemoryAdapter.CCleanup now => snd (cleanup now st)
  | MemoryAdapter.CGetStats => st
  | MemoryAdapter.CDestroy => destroy st
  end.

Definition history (config : Config)
           (calls : list (MemoryAdapter.call (V := V))) : t :=
  List.fold_left (fun st c => run c st) calls (create config).

End Adapter.
Arguments t V : clear implicits.
Arguments Config V : clear implicits.
End EnhancedMemoryAdapter.

(** The options of an enhanced adapter that match a configuration of the
    final one. *)
Definition ofConfig {V : Type} (config : MemoryAdapterConfig V)
  : EnhancedMemoryAdapter.Config V :=
  {| EnhancedMemoryAdapter.maxKeys := maxKeys config;
     EnhancedMemoryAdapter.defaultTTL := defaultTTL config;
     EnhancedMemoryAdapter.cleanupInterval := cleanupInterval config;
     EnhancedMemoryAdapter.serialize := serialize (serialization config);
     EnhancedMemoryAdapter.deserialize := deserialize (serialization config)
  |}.

(** The enhanced adapter's view of a state of the final adapter: the same
    map, timer and options, and the five event counters. *)
Definition ofFinal {V : Type} (f : MemoryAdapter.t V)
  : EnhancedMemoryAdapter.t V :=
  {| EnhancedMemoryAdapter.store := MemoryAdapter.store f;
     EnhancedMemoryAdapter.cleanupTimer := MemoryAdapter.cleanupTimer f;
     EnhancedMemoryAdapter.stats :=
       {| EnhancedMemoryAdapter.hits := Stats.hits (MemoryAdapter.stats f);
          EnhancedMemoryAdapter.misses := Stats.misses (MemoryAdapter.stats f);
          EnhancedMemoryAdapter.sets := Stats.sets (MemoryAdapter.stats f);
          EnhancedMemoryAdapter.deletes :=
            Stats.deletes (MemoryAdapter.stats f);
          EnhancedMemoryAdapter.expired :=
            Stats.expired (MemoryAdapter.stats f) |};
     EnhancedMemoryAdapter.options := ofConfig (MemoryAdapter.options f)
  |}.

(** The part of the view that survives [destroy]: map, timer and
    options. *)
Definition same_store {V : Type} (e : EnhancedMemoryAdapter.t V)
           (f : MemoryAdapter.t V) : Prop :=
  EnhancedMemoryAdapter.store e = MemoryAdapter.store f
  /\ EnhancedMemoryAdapter.cleanupTimer e = MemoryAdapter.cleanupTimer f
  /\ EnhancedMemoryAdapter.options e = ofConfig (MemoryAdapter.options f).

(** An operation returned rather than threw. *)
Definition returned {A : Type} (r : outcome A) : bool :=
  match r with Returned _ => true | Thrown _ => false end.

(* ================================================================== *)
(** * [events.ts]: events and the emitter

    An observer is an object with one method, [update]; the emitter tells
    observers apart by identity ([includes], [indexOf]), so an observer is
    modelled by its identity.  What a handler does with an event is the
    handler's business: [emit] is modelled by the calls of [update] it
    makes, in order.  A handler that throws is caught and logged, one that
    calls back into the emitter is not modelled. *)

Module Events.
Section Events.
Context {V : Type}.

(** [KVEvent]; [type] is one of ['set'], ['get'], ['delete'], ['clear'],
    ['expired'], ['error']. *)
Record KVEvent : Type := {
  type : string;
  key : option string;
  value : option V;
  ttl : option Z;
  error : option Error;
  timestamp : Z
}.

(** [KVStats] without the optional [memory], which only the adapter's
    [getStats] fills in. *)
Record KVStats : Type := {
  hits : Z;
  misses : Z;
  sets : Z;
  deletes : Z;
  expired : Z;
  errors : Z;
  keys : Z
}.

Definition KVEventObserver : Type := nat.

(** [Map<string, KVEventObserver[]>]. *)
Definition KVEventEmitter : Type := JSMap.t (list KVEventObserver).

Definition empty : KVEventEmitter := [].

(** [Array.prototype.includes], [indexOf] and [splice(index, 1)]. *)
Definition includes (observer : KVEventObserver)
           (observers : list KVEventObserver) : bool :=
  List.existsb (Nat.eqb observer) observers.

Fixpoint indexOf (observer : KVEventObserver)
         (observers : list KVEventObserver) : option nat :=
  match observers with
  | [] => None
  | o :: rest =>
      if Nat.eqb observer o then Some 0%nat
      else option_map S (indexOf observer rest)
  end.

Definition splice1 (index : nat) (observers : list KVEventObserver)
  : list KVEventObserver :=
  (List.firstn index observers ++ List.skipn (S index) observers)%list.

(** [this.observers.get(eventType) || []]: an array, even an empty one, is
    truthy. *)
Definition observersOf (eventType : string) (m : KVEventEmitter)
  : list KVEventObserver :=
  match JSMap.get eventType m with
  | Some observers => observers
  | None => []
  end.

Definition subscribe (eventType : string) (observer : KVEventObserver)
           (m : KVEventEmitter) : KVEventEmitter :=
  let observers := observersOf eventType m in
  if negb (includes observer observers)
  then JSMap.set eventType (observers ++ [observer])%list m
  else m.

Definition unsubscribe (eventType : string) (observer : KVEventObserver)
           (m : KVEventEmitter) : KVEventEmitter :=
  match JSMap.get eventType m with
  | None => m
  | Some observers =>
      match indexOf observer observers with
      | None => m
      | Some index =>
          let observers := splice1 index observers in
          if (List.length observers =? 0)%nat
          then JSMap.delete eventType m
          else JSMap.set eventType observers m
      end
  end.

(** [emit]: the calls [observer.update(event)] it makes, in order. *)
Definition emit (event : KVEvent) (m : KVEventEmitter)
  : list (KVEventObserver * KVEvent) :=
  List.map (fun observer => (observer, event)) (observersOf (type event) m).

Definition hasObservers (eventType : string) (m : KVEventEmitter) : bool :=
  JSMap.has eventType m
  && (0 <? List.length (observersOf eventType m))%nat.

Definition getEventTypes (m : KVEventEmitter) : list string :=
  JSMap.keys m.

Definition clear (m : KVEventEmitter) : KVEventEmitter := JSMap.clear m.

(** [createEventSubscription]: [observer] is the object the helper has
    just made around the handler; the closure it returns unsubscribes that
    object. *)
Definition createEventSubscription (emitter : KVEventEmitter)
           (eventType : string) (observer : KVEventObserver)
  : KVEventEmitter * (KVEventEmitter -> KVEventEmitter) :=
  (subscribe eventType observer emitter, unsubscribe eventType observer).

(** ** Histories of an emitter *)

Inductive call : Type :=
| CSubscribe (eventType : string) (observer : KVEventObserver)
| CUnsubscribe (eventType : string) (observer : KVEventObserver)
| CClear.

Definition run (c : call) (m : KVEventEmitter) : KVEventEmitter :=
  match c with
  | CSubscribe eventType observer => subscribe eventType observer m
  | CUnsubscribe eventType observer => unsubscribe eventType observer m
  | CClear => clear m
  end.

Definition history (calls : list call) : KVEventEmitter :=
  List.fold_left (fun m c => run c m) calls empty.

(** Every listed event type has observers, none of them twice. *)
Definition tidy (m : KVEventEmitter) : Prop :=
  JSMap.wf m
  /\ List.Forall (fun kl => snd kl <> [] /\ NoDup (snd kl)) m.

End Events.
Arguments KVEvent V : clear implicits.
End Events.

(* ================================================================== *)
(** * The [MemoryAdapter] that emits events

    The revision of [memory.adapter.ts] built on [events.ts].  It reads
    the clock several times in one operation (for the expiry test, for the
    expiry timestamp, for the timestamp of each event), so the clock is the
    sequence of its readings: [clock i] is what the [i]-th call of
    [Date.now()] returns, and the state counts the readings made.  The
    state also keeps the calls of [observer.update] made so far. *)

Module EventedMemoryAdapter.
Section Adapter.
Context {V : Type}.
Variable clock : nat -> Z.

(** [Required<MemoryAdapterConfig>]. *)
Record Config : Type := {
  defaultTTL : Z;
  maxKeys : Z;
  emitEvents : bool;
  cleanupInterval : Z;
  serialization : SerializationAdapter V
}.

Record t : Type := {
  store : JSMap.t StorageEntry;
  adapterConfig : Config;
  events : Events.KVEventEmitter;
  stats : Events.KVStats;
  cleanupTimer : bool;
  readings : nat;
  delivered : list (Events.KVEventObserver * Events.KVEvent V)
}.

Definition with_store (st : t) (m : JSMap.t StorageEntry) : t :=
  {| store := m; adapterConfig := adapterConfig st; events := events st;
     stats := stats st; cleanupTimer := cleanupTimer st;
     readings := readings st; delivered := delivered st |}.

Definition with_stats (st : t) (s : Events.KVStats) : t :=
  {| store := store st; adapterConfig := adapterConfig st;
     events := events st; stats := s; cleanupTimer := cleanupTimer st;
     readings := readings st; delivered := delivered st |}.

Definition with_events (st : t) (e : Events.KVEventEmitter) : t :=
  {| store := store st; adapterConfig := adapterConfig st; events := e;
     stats := stats st; cleanupTimer := cleanupTimer st;
     readings := readings st; delivered := delivered st |}.

Definition zeroStats : Events.KVStats :=
  {| Events.hits := 0; Events.misses := 0; Events.sets := 0;
     Events.deletes := 0; Events.expired := 0; Events.errors := 0;
     Events.keys := 0 |}.

Definition incr_hits (s : Events.KVStats) : Events.KVStats :=
  {| Events.hits := Events.hits s + 1;
     Events.misses := Events.misses s;
     Events.sets := Events.sets s;
     Events.deletes := Events.deletes s;
     Events.expired := Events.expired s;
     Events.errors := Events.errors s;
     Events.keys := Events.keys s |}.

Definition incr_misses (s : Events.KVStats) : Events.KVStats :=
  {| Events.hits := Events.hits s;
     Events.misses := Events.misses s + 1;
     Events.sets := Events.sets s;
     Events.deletes := Events.deletes s;
     Events.expired := Events.expired s;
     Events.errors := Events.errors s;
     Events.keys := Events.keys s |}.

Definition incr_sets (s : Events.KVStats) : Events.KVStats :=
  {| Events.hits := Events.hits s;
     Events.misses := Events.misses s;
     Events.sets := Events.sets s + 1;
     Events.deletes := Events.deletes s;
     Events.expired := Events.expired s;
     Events.errors := Events.errors s;
     Events.keys := Events.keys s |}.

Definition incr_deletes (s : Events.KVStats) : Events.KVStats :=
  {| Events.hits := Events.hits s;
     Events.misses := Events.misses s;
     Events.sets := Events.sets s;
     Events.deletes := Events.deletes s + 1;
     Events.expired := Events.expired s;
     Events.errors := Events.errors s;
     Events.keys := Events.keys s |}.

Definition incr_expired (s : Events.KVStats) : Events.KVStats :=
  {| Events.hits := Events.hits s;
     Events.misses := Events.misses s;
     Events.sets := Events.sets s;
     Events.deletes := Events.deletes s;
     Events.expired := Events.expired s + 1;
     Events.errors := Events.errors s;
     Events.keys := Events.keys s |}.

Definition incr_errors (s : Events.KVStats) : Events.KVStats :=
  {| Events.hits := Events.hits s;
     Events.misses := Events.misses s;
     Events.sets := Events.sets s;
     Events.deletes := Events.deletes s;
     Events.expired := Events.expired s;
     Events.errors := Events.errors s + 1;
     Events.keys := Events.keys s |}.

(** [Date.now()]. *)
Definition Date_now (st : t) : Z * t :=
  (clock (readings st),
   {| store := store st; adapterConfig := adapterConfig st;
      events := events st; stats := stats st;
      cleanupTimer := cleanupTimer st;
      readings := S (readings st); delivered := delivered st |}).

(** [if (this.adapterConfig.emitEvents) this.events.emit(event)]. *)
Definition emitEvent (event : Events.KVEvent V) (st : t) : t :=
  if emitEvents (adapterConfig st) then
    {| store := store st; adapterConfig := adapterConfig st;
       events := events st; stats := stats st;
       cleanupTimer := cleanupTimer st; readings := readings st;
       delivered := (delivered st ++ Events.emit event (events st))%list |}
  else st.

Definition event (type : string) (key : option string) (timestamp : Z)
  : Events.KVEvent V :=
  {| Events.type := type; Events.key := key; Events.value := None;
     Events.ttl := None; Events.error := None;
     Events.timestamp := timestamp |}.

(** [emitError]: the event is of type ['error']; the name of the
    operation is not put into it. *)
Definition emitError (operation : string) (key : option string)
           (error : Error) (st : t) : t :=
  let '(now, st1) := Date_now st in
  emitEvent {| Events.type := "error"; Events.key := key;
               Events.value := None; Events.ttl := None;
               Events.error := Some error; Events.timestamp := now |} st1.

Definition updateKeysCount (st : t) : t :=
  with_stats st
    {| Events.hits := Events.hits (stats st);
       Events.misses := Events.misses (stats st);
       Events.sets := Events.sets (stats st);
       Events.deletes := Events.deletes (stats st);
       Events.expired := Events.expired (stats st);
       Events.errors := Events.errors (stats st);
       Events.keys := JSMap.size (store st) |}.

Definition resetStats (st : t) : t := with_stats st zeroStats.

Definition create (config : Config) : t :=
  {| store := []; adapterConfig := config; events := Events.empty;
     stats := zeroStats; cleanupTimer := 0 <? cleanupInterval config;
     readings := 0; delivered := [] |}.

(** [entry.expires && Date.now() > entry.expires]: the clock is read only
    when the entry has a truthy expiry. *)
Definition expiredNow (entry : StorageEntry) (st : t) : bool * t :=
  match expires entry with
  | Some e =>
      if truthy e then let '(now, st1) := Date_now st in (now >? e, st1)
      else (false, st)
  | None => (false, st)
  end.

(** The [catch] clause of the operations: count, report, rethrow. *)
Definition caught {A : Type} (operation : string) (key : option string)
           (error : Error) (st : t) : outcome A * t :=
  let st1 := with_stats st (incr_errors (stats st)) in
  (Thrown error, emitError operation key error st1).

Definition get (key : string) (st : t) : outcome (option V) * t :=
  match JSMap.get key (store st) with
  | None =>
      let st1 := with_stats st (incr_misses (stats st)) in
      let '(now, st2) := Date_now st1 in
      (Returned None, emitEvent (event "get" (Some key) now) st2)
  | Some entry =>
      let '(gone, st1) := expiredNow entry st in
      if gone then
        let st2 := with_store st1 (JSMap.delete key (store st1)) in
        let st3 := with_stats st2 (incr_expired (stats st2)) in
        let st4 := updateKeysCount st3 in
        let '(now, st5) := Date_now st4 in
        (Returned None, emitEvent (event "expired" (Some key) now) st5)
      else
        let st2 := with_stats st1 (incr_hits (stats st1)) in
        match deserialize (serialization (adapterConfig st)) (value entry) with
        | Returned v =>
            let '(now, st3) := Date_now st2 in
            (Returned (Some v),
             emitEvent {| Events.type := "get"; Events.key := Some key;
                          Events.value := Some v; Events.ttl := None;
                          Events.error := None; Events.timestamp := now |}
                       st3)
        | Thrown error => caught "get" (Some key) error st2
        end
  end.

(** [`[MemoryAdapter] Maximum keys limit reached: ${maxKeys}`]. *)
Definition maxKeysError (st : t) : Error :=
  mkError ("[MemoryAdapter] Maximum keys limit reached: "
           ++ Number_toString (maxKeys (adapterConfig st))).

(** [ttl ?? (this.adapterConfig.defaultTTL || undefined)]. *)
Definition effectiveTTL (ttl : option Z) (st : t) : option Z :=
  nullish ttl (or_undefined (defaultTTL (adapterConfig st))).

(** [effectiveTTL && effectiveTTL > 0 ? Date.now() + effectiveTTL
    : undefined]. *)
Definition expiresAt (eff : option Z) (st : t) : option Z * t :=
  match eff with
  | Some ttl =>
      if truthy ttl && (ttl >? 0)
      then let '(now, st1) := Date_now st in (Some (now + ttl), st1)
      else (None, st)
  | None => (None, st)
  end.

(** At the limit the error is reported before it is thrown, and the
    [catch] clause reports it again. *)
Definition set (key : string) (v : V) (ttl : option Z) (st : t)
  : outcome unit * t :=
  if negb (JSMap.has key (store st))
     && (JSMap.size (store st) >=? maxKeys (adapterConfig st))
  then
    let error := maxKeysError st in
    caught "set" (Some key) error (emitError "set" (Some key) error st)
  else
    let eff := effectiveTTL ttl st in
    let '(expires, st1) := expiresAt eff st in
    match serialize (serialization (adapterConfig st)) v with
    | Thrown error => caught "set" (Some key) error st1
    | Returned serializedValue =>
        let entry := {| value := serializedValue; expires := expires |} in
        let st2 := with_store st1 (JSMap.set key entry (store st1)) in
        let st3 := with_stats st2 (incr_sets (stats st2)) in
        let st4 := updateKeysCount st3 in
        let '(now, st5) := Date_now st4 in
        (Returned tt,
         emitEvent {| Events.type := "set"; Events.key := Some key;
                      Events.value := Some v; Events.ttl := eff;
                      Events.error := None; Events.timestamp := now |}
                   st5)
    end.

Definition delete (key : string) (st : t) : bool * t :=
  if JSMap.has key (store st) then
    let st1 := with_store st (JSMap.delete key (store st)) in
    let st2 := with_stats st1 (incr_deletes (stats st1)) in
    let st3 := updateKeysCount st2 in
    let '(now, st4) := Date_now st3 in
    (true, emitEvent (event "delete" (Some key) now) st4)
  else (false, st).

Definition exists_ (key : string) (st : t) : bool * t :=
  match JSMap.get key (store st) with
  | None => (false, st)
  | Some entry =>
      let '(gone, st1) := expiredNow entry st in
      if gone then
        let st2 := with_store st1 (JSMap.delete key (store st1)) in
        let st3 := with_stats st2 (incr_expired (stats st2)) in
        let st4 := updateKeysCount st3 in
        let '(now, st5) := Date_now st4 in
        (false, emitEvent (event "expired" (Some key) now) st5)
      else (true, st1)
  end.

Definition clear (st : t) : t :=
  let st1 := with_store st (JSMap.clear (store st)) in
  let st2 := resetStats st1 in
  let '(now, st3) := Date_now st2 in
  emitEvent (event "clear" None now) st3.

Fixpoint mget (ks : list string) (st : t) : outcome (list (option V)) * t :=
  match ks with
  | [] => (Returned [], st)
  | key :: rest =>
      let '(r, st1) := get key st in
      let '(rs, st2) := mget rest st1 in
      (match r, rs with
       | Thrown e, _ => Thrown e
       | Returned _, Thrown e => Thrown e
       | Returned x, Returned xs => Returned (x :: xs)
       end, st2)
  end.

Fixpoint mset (entries : list (string * V)) (ttl : option Z) (st : t)
  : outcome unit * t :=
  match entries with
  | [] => (Returned tt, st)
  | (key, v) :: rest =>
      match set key v ttl st with
      | (Returned _, st') => mset rest ttl st'
      | (Thrown e, st') => (Thrown e, st')
      end
  end.

Fixpoint deleteMany_loop (ks : list string) (anyDeleted : bool) (st : t)
  : bool * t :=
  match ks with
  | [] => (anyDeleted, st)
  | key :: rest =>
      let '(deleted, st1) := delete key st in
      deleteMany_loop rest (if deleted then true else anyDeleted) st1
  end.

Definition deleteMany (ks : list string) (st : t) : bool * t :=
  deleteMany_loop ks false st.

Definition isHealthy (st : t) : bool := true.

Definition getMemoryUsage (st : t) : Z :=
  List.fold_left
    (fun bytes (ke : string * StorageEntry) =>
       bytes + Z.of_nat (String.length (fst ke)) * 2
             + Z.of_nat (String.length (value (snd ke))) * 2
             + 16)
    (JSMap.entries (store st)) 0.

(** [{ ...this.stats, memory: this.getMemoryUsage() }]. *)
Definition getStats (st : t) : Events.KVStats * Z :=
  (stats st, getMemoryUsage st).

(** [onEvent]: [observer] is the object [createEventSubscription] makes
    around the handler; the closure returned is [offEvent] at the same
    arguments. *)
Definition onEvent (eventType : string) (observer : Events.KVEventObserver)
           (st : t) : t :=
  with_events st
    (fst (Events.createEventSubscription (events st) eventType observer)).

Definition offEvent (eventType : string) (observer : Events.KVEventObserver)
           (st : t) : t :=
  with_events st (Events.unsubscribe eventType observer (events st)).

(** [onError(handler)] is [onEvent('error', ...)]. *)
Definition onError (observer : Events.KVEventObserver) (st : t) : t :=
  onEvent "error" observer st.

(** [cleanup()]: one reading of the clock for the whole sweep; the body of
    the loop for each entry of the map at loop entry. *)
Fixpoint cleanup_loop (now : Z) (visit : list (string * StorageEntry))
         (cleaned : Z) (st : t) : Z * t :=
  match visit with
  | [] => (cleaned, st)
  | (key, entry) :: rest =>
      if MemoryAdapter.isExpired now entry then
        let st1 := with_store st (JSMap.delete key (store st)) in
        let st2 := with_stats st1 (incr_expired (stats st1)) in
        cleanup_loop now rest (cleaned + 1)
                     (emitEvent (event "expired" (Some key) now) st2)
      else cleanup_loop now rest cleaned st
  end.

Definition cleanup (st : t) : Z * t :=
  let '(now, st1) := Date_now st in
  let '(cleaned, st2) :=
    cleanup_loop now (JSMap.entries (store st1)) 0 st1 in
  (cleaned, updateKeysCount st2).

(** [keys()]: [this.cleanup()] first, then the keys of the map. *)
Definition keys (st : t) : list string * t :=
  let '(_, st1) := cleanup st in
  (JSMap.keys (store st1), st1).

Definition destroy (st : t) : t :=
  resetStats
    {| store := JSMap.clear (store st); adapterConfig := adapterConfig st;
       events := Events.clear (events st); stats := stats st;
       cleanupTimer := false; readings := readings st;
       delivered := delivered st |}.

(** ** Histories *)

Inductive call : Type :=
| CGet (key : string)
| CSet (key : string) (v : V) (ttl : option Z)
| CDelete (key : string)
| CExists (key : string)
| CClear
| CMget (ks : list string)
| CMset (entries : list (string * V)) (ttl : option Z)
| CDeleteMany (ks : list string)
| COnEvent (eventType : string) (observer : Events.KVEventObserver)
| COffEvent (eventType : string) (observer : Events.KVEventObserver)
| CCleanup
| CKeys
| CDestroy.

Definition run (c : call) (st : t) : t :=
  match c with
  | CGet key => snd (get key st)
  | CSet key v ttl => snd (set key v ttl st)
  | CDelete key => snd (delete key st)
  | CExists key => snd (exists_ key st)
  | CClear => clear st
  | CMget ks => snd (mget ks st)
  | CMset entries ttl => snd (mset entries ttl st)
  | CDeleteMany ks => snd (deleteMany ks st)
  | COnEvent eventType observer => onEvent eventType observer st
  | COffEvent eventType observer => offEvent eventType observer st
  | CCleanup => snd (cleanup st)
  | CKeys => snd (keys st)
  | CDestroy => destroy st
  end.

Definition history (config : Config) (calls : list call) : t :=
  List.fold_left (fun st c => run c st) calls (create config).

(** What holds of every state of a history: the configuration is the
    constructor's, the map has one entry per key, the [keys] counter is its
    size, the map is empty or within the limit, the emitter is tidy, and
    nothing is delivered when events are switched off. *)
Definition inv (config : Config) (st : t) : Prop :=
  adapterConfig st = config
  /\ JSMap.wf (store st)
  /\ Events.keys (stats st) = JSMap.size (store st)
  /\ (JSMap.size (store st) = 0 \/ JSMap.size (store st) <= maxKeys config)
  /\ Events.tidy (events st)
  /\ (emitEvents config = false -> delivered st = []).

(** Whether a call throws in a state. *)
Definition throws (c : call) (st : t) : bool :=
  match c with
  | CGet key => negb (returned (fst (get key st)))
  | CSet key v ttl => negb (returned (fst (set key v ttl st)))
  | CMget ks => negb (returned (fst (mget ks st)))
  | CMset entries ttl => negb (returned (fst (mset entries ttl st)))
  | _ => false
  end.

End Adapter.
Arguments t V : clear implicits.
Arguments Config V : clear implicits.
End EventedMemoryAdapter.

(* ================================================================== *)
(** * The basic [MemoryAdapter]

    The first revision of [memory.adapter.ts]: values are kept as they
    are given (no codec), there are no counters, and the clock is read at
    most once per operation. *)

Module BasicMemoryAdapter.
Section Adapter.
Context {V : Type}.

(** [MemoryAdapterConfig]: both fields may be [undefined]. *)
Record Config : Type := {
  defaultTTL : option Z;
  maxKeys : option Z
}.

(** [{ value: unknown; expires?: number }]. *)
Record Entry : Type := {
  value : V;
  expires : option Z
}.

Record t : Type := {
  store : JSMap.t Entry;
  adapterConfig : Config
}.

Definition with_store (st : t) (m : JSMap.t Entry) : t :=
  {| store := m; adapterConfig := adapterConfig st |}.

Definition create (config : Config) : t :=
  {| store := []; adapterConfig := config |}.

(** [entry.expires && Date.now() > entry.expires]. *)
Definition isExpired (now : Z) (entry : Entry) : bool :=
  match expires entry with
  | Some e => truthy e && (now >? e)
  | None => false
  end.

Definition get (now : Z) (key : string) (st : t) : option V * t :=
  match JSMap.get key (store st) with
  | None => (None, st)
  | Some entry =>
      if isExpired now entry
      then (None, with_store st (JSMap.delete key (store st)))
      else (Some (value entry), st)
  end.

(** [this.adapterConfig.maxKeys || 10000]. *)
Definition limit (st : t) : Z :=
  match maxKeys (adapterConfig st) with
  | Some n => if truthy n then n else 10000
  | None => 10000
  end.

(** [`[MemoryAdapter] Maximum keys limit reached: ${maxKeys}`]: the
    configured value is printed, not the limit in force. *)
Definition maxKeysError (st : t) : Error :=
  mkError ("[MemoryAdapter] Maximum keys limit reached: "
           ++ match maxKeys (adapterConfig st) with
              | Some n => Number_toString n
              | None => "undefined"
              end).

(** [if (ttl && ttl > 0) entry.expires = Date.now() + ttl]. *)
Definition expiresAt (now : Z) (ttl : option Z) : option Z :=
  match ttl with
  | Some n => if truthy n && (n >? 0) then Some (now + n) else None
  | None => None
  end.

Definition set (now : Z) (key : string) (v : V) (ttl : option Z) (st : t)
  : outcome unit * t :=
  if negb (JSMap.has key (store st)) && (JSMap.size (store st) >=? limit st)
  then (Thrown (maxKeysError st), st)
  else
    let entry := {| value := v; expires := expiresAt now ttl |} in
    (Returned tt, with_store st (JSMap.set key entry (store st))).

Definition delete (key : string) (st : t) : bool * t :=
  (JSMap.has key (store st), with_store st (JSMap.delete key (store st))).

Definition exists_ (now : Z) (key : string) (st : t) : bool * t :=
  match JSMap.get key (store st) with
  | None => (false, st)
  | Some entry =>
      if isExpired now entry
      then (false, with_store st (JSMap.delete key (store st)))
      else (true, st)
  end.

Definition clear (st : t) : t := with_store st (JSMap.clear (store st)).

Fixpoint mget (now : Z) (ks : list string) (st : t)
  : list (option V) * t :=
  match ks with
  | [] => ([], st)
  | key :: rest =>
      let '(r, st1) := get now key st in
      let '(rs, st2) := mget now rest st1 in
      (r :: rs, st2)
  end.

Fixpoint mset_from (i : nat) (now : nat -> Z) (entries : list (string * V))
         (ttl : option Z) (st : t) : outcome unit * t :=
  match entries with
  | [] => (Returned tt, st)
  | (key, v) :: rest =>
      match set (now i) key v ttl st with
      | (Returned _, st') => mset_from (S i) now rest ttl st'
      | (Thrown e, st') => (Thrown e, st')
      end
  end.

Definition mset (now : nat -> Z) (entries : list (string * V))
           (ttl : option Z) (st : t) : outcome unit * t :=
  mset_from 0 now entries ttl st.

Fixpoint deleteMany_loop (ks : list string) (anyDeleted : bool) (st : t)
  : bool * t :=
  match ks with
  | [] => (anyDeleted, st)
  | key :: rest =>
      let '(deleted, st1) := delete key st in
      deleteMany_loop rest (if deleted then true else anyDeleted) st1
  end.

Definition deleteMany (ks : list string) (st : t) : bool * t :=
  deleteMany_loop ks false st.

Definition isHealthy (st : t) : bool := true.

(** [{ size: this.store.size,
       maxKeys: this.adapterConfig.maxKeys || 10000 }]. *)
Definition getStats (st : t) : Z * Z := (JSMap.size (store st), limit st).

(** ** Histories *)

Inductive call : Type :=
| CGet (now : Z) (key : string)
| CSet (now : Z) (key : string) (v : V) (ttl : option Z)
| CDelete (key : string)
| CExists (now : Z) (key : string)
| CClear
| CMget (now : Z) (ks : list string)
| CMset (now : nat -> Z) (entries : list (string * V)) (ttl : option Z)
| CDeleteMany (ks : list string).

Definition run (c : call) (st : t) : t :=
  match c with
  | CGet now key => snd (get now key st)
  | CSet now key v ttl => snd (set now key v ttl st)
  | CDelete key => snd (delete key st)
  | CExists now key => snd (exists_ now key st)
  | CClear => clear st
  | CMget now ks => snd (mget now ks st)
  | CMset now entries ttl => snd (mset now entries ttl st)
  | CDeleteMany ks => snd (deleteMany ks st)
  end.

Definition history (config : Config) (calls : list call) : t :=
  List.fold_left (fun st c => run c st) calls (create config).

(** What holds of every state of a history: the configuration is the
    constructor's, and the map is empty or within the limit in force. *)
Definition inv (config : Config) (st : t) : Prop :=
  adapterConfig st = config
  /\ (JSMap.size (store st) = 0 \/ JSMap.size (store st) <= limit st).

End Adapter.
Arguments t V : clear implicits.
Arguments Entry V : clear implicits.
End BasicMemoryAdapter.

(* ================================================================== *)
(** * Concrete states of the other adapters and of the emitter *)

Module AdapterExamples.
Import JS Examples.

(** A clock that advances ten milliseconds between readings. *)
Definition ticking (i : nat) : Z := t0 + 10 * Z.of_nat i.

(** [subscribe('set', o1); subscribe('set', o2); subscribe('get', o1)]. *)
Definition emitter : Events.KVEventEmitter :=
  Events.history
    [Events.CSubscribe "set" 1%nat; Events.CSubscribe "set" 2%nat;
     Events.CSubscribe "get" 1%nat].

Definition setEvent : Events.KVEvent any :=
  {| Events.type := "set"; Events.key := Some "k";
     Events.value := Some (VNumber 1); Events.ttl := None;
     Events.error := None; Events.timestamp := t0 |}.

(** [new MemoryAdapter({ maxKeys: 100, defaultTTL: 0, cleanupInterval: 0 })]
    of the revision with events. *)
Definition eventedConfig : EventedMemoryAdapter.Config any := {|
  EventedMemoryAdapter.defaultTTL := 0;
  EventedMemoryAdapter.maxKeys := 100;
  EventedMemoryAdapter.emitEvents := true;
  EventedMemoryAdapter.cleanupInterval := 0;
  EventedMemoryAdapter.serialization := Serialization.defaultAdapter
|}.

(** [set('key1', 'value1'); set('temp', 'value', 5)]; the entry of
    ['temp'] expires at [t0 + 15]. *)
Definition eventedKeyAndTemp : EventedMemoryAdapter.t any :=
  EventedMemoryAdapter.history ticking eventedConfig
    [EventedMemoryAdapter.CSet "key1" (VString "value1") None;
     EventedMemoryAdapter.CSet "temp" (VString "value") (Some 5)].

Definition oneKeyConfig : EventedMemoryAdapter.Config any := {|
  EventedMemoryAdapter.defaultTTL := 0;
  EventedMemoryAdapter.maxKeys := 1;
  EventedMemoryAdapter.emitEvents := true;
  EventedMemoryAdapter.cleanupInterval := 0;
  EventedMemoryAdapter.serialization := Serialization.defaultAdapter
|}.

(** [onError(handler); set('key1', 'value1')] on the one-key adapter. *)
Definition eventedFull : EventedMemoryAdapter.t any :=
  EventedMemoryAdapter.history ticking oneKeyConfig
    [EventedMemoryAdapter.COnEvent "error" 1%nat;
     EventedMemoryAdapter.CSet "key1" (VString "value1") None].

(** [new MemoryAdapter({ defaultTTL: 1000, maxKeys: 0 })] of the basic
    revision. *)
Definition basicConfig : BasicMemoryAdapter.Config := {|
  BasicMemoryAdapter.defaultTTL := Some 1000;
  BasicMemoryAdapter.maxKeys := Some 0
|}.

(** The calls of [Examples.keyAndTemp]. *)
Definition keyAndTempCalls : list (MemoryAdapter.call (V := any)) :=
  [MemoryAdapter.CSet t0 "key1" (VString "value1") None;
   MemoryAdapter.CSet t0 "temp" (VString "value") (Some 50)].
End AdapterExamples.

(* ================================================================== *)
(** * Properties of the map representation *)

Section JSMapFacts.
Context {A : Type}.
Implicit Types (m : JSMap.t A) (k : string) (a : A).

Lemma JSMap_has_get k m :
  JSMap.has k m = true <-> exists a, JSMap.get k m = Some a.
Proof.
  unfold JSMap.has. destruct (JSMap.get k m) as [a|].
  - split; [eauto | reflexivity].
  - split; [discriminate | intros [a Ha]; discriminate].
Qed.

Lemma JSMap_has_false_get k m :
  JSMap.has k m = false <-> JSMap.get k m = None.
Proof.
  unfold JSMap.has. destruct (JSMap.get k m); split; congruence.
Qed.

Lemma JSMap_has_keys k m : JSMap.has k m = true <-> In k (JSMap.keys m).
Proof.
  unfold JSMap.has.
  induction m as [|[k' a'] r IH]; simpl.
  - split; [discriminate | tauto].
  - destruct (String.eqb_spec k k') as [->|Hne].
    + split; auto.
    + rewrite IH. split; [auto | intros [H|H]; congruence].
Qed.

Lemma JSMap_get_set_same k a m : JSMap.get k (JSMap.set k a m) = Some a.
Proof.
  induction m as [|[k' a'] r IH]; simpl.
  - now rewrite String.eqb_refl.
  - destruct (String.eqb_spec k k') as [->|Hne]; simpl.
    + now rewrite String.eqb_refl.
    + destruct (String.eqb_spec k k'); [contradiction | exact IH].
Qed.

Lemma JSMap_get_set_other k k' a m :
  k' <> k -> JSMap.get k' (JSMap.set k a m) = JSMap.get k' m.
Proof.
  intros Hne. induction m as [|[k0 a0] r IH]; simpl.
  - destruct (String.eqb_spec k' k); [contradiction | reflexivity].
  - destruct (String.eqb_spec k k0) as [->|Hk]; simpl.
    + destruct (String.eqb_spec k' k0); [contradiction | reflexivity].
    + destruct (String.eqb_spec k' k0); [reflexivity | exact IH].
Qed.

Lemma JSMap_has_set k k' a m :
  JSMap.has k' m = true -> JSMap.has k' (JSMap.set k a m) = true.
Proof.
  unfold JSMap.has. destruct (String.eqb_spec k' k) as [->|Hne].
  - now rewrite JSMap_get_set_same.
  - now rewrite JSMap_get_set_other.
Qed.

Lemma JSMap_keys_set_present k a m :
  JSMap.has k m = true -> JSMap.keys (JSMap.set k a m) = JSMap.keys m.
Proof.
  unfold JSMap.has, JSMap.keys.
  induction m as [|[k' a'] r IH]; simpl; [discriminate|].
  destruct (String.eqb_spec k k') as [->|Hne]; simpl; intros H.
  - reflexivity.
  - f_equal. auto.
Qed.

Lemma JSMap_keys_set_absent k a m :
  JSMap.has k m = false ->
  JSMap.keys (JSMap.set k a m) = (JSMap.keys m ++ [k])%list.
Proof.
  unfold JSMap.has, JSMap.keys.
  induction m as [|[k' a'] r IH]; simpl; [reflexivity|].
  destruct (String.eqb_spec k k') as [->|Hne]; simpl; intros H.
  - discriminate.
  - f_equal. auto.
Qed.

Lemma JSMap_size_set k a m :
  JSMap.size (JSMap.set k a m)
  = if JSMap.has k m then JSMap.size m else JSMap.size m + 1.
Proof.
  unfold JSMap.size.
  destruct (JSMap.has k m) eqn:H.
  - apply JSMap_keys_set_present with (a := a) in H.
    apply (f_equal (@List.length string)) in H.
    unfold JSMap.keys in H. rewrite !length_map in H. now rewrite H.
  - apply JSMap_keys_set_absent with (a := a) in H.
    apply (f_equal (@List.length string)) in H.
    unfold JSMap.keys in H.
    rewrite length_app, !length_map in H. simpl in H. lia.
Qed.

Lemma JSMap_size_nonneg m : 0 <= JSMap.size m.
Proof. unfold JSMap.size. lia. Qed.

Lemma JSMap_size_delete k m :
  JSMap.size (JSMap.delete k m)
  = if JSMap.has k m then JSMap.size m - 1 else JSMap.size m.
Proof.
  unfold JSMap.size, JSMap.has.
  induction m as [|[k' a'] r IH]; cbn [JSMap.get JSMap.delete];
    [reflexivity|].
  destruct (String.eqb_spec k k') as [->|Hne]; cbn [List.length].
  - lia.
  - destruct (JSMap.get k r); lia.
Qed.

Lemma JSMap_keys_delete_incl k m :
  incl (JSMap.keys (JSMap.delete k m)) (JSMap.keys m).
Proof.
  unfold JSMap.keys.
  induction m as [|[k' a'] r IH]; simpl; [apply incl_refl|].
  destruct (String.eqb k k'); simpl.
  - apply incl_tl, incl_refl.
  - apply incl_cons; [now left | now apply incl_tl].
Qed.

Lemma JSMap_wf_set k a m : JSMap.wf m -> JSMap.wf (JSMap.set k a m).
Proof.
  unfold JSMap.wf. intros Hwf.
  destruct (JSMap.has k m) eqn:H.
  - now rewrite JSMap_keys_set_present.
  - rewrite JSMap_keys_set_absent by assumption.
    apply NoDup_app; auto.
    + constructor; [intros [] | constructor].
    + intros x Hx [<-|[]].
      apply JSMap_has_keys in Hx. congruence.
Qed.

Lemma JSMap_wf_delete k m : JSMap.wf m -> JSMap.wf (JSMap.delete k m).
Proof.
  unfold JSMap.wf, JSMap.keys.
  induction m as [|[k' a'] r IH]; simpl; intros Hwf; [assumption|].
  inversion Hwf as [|? ? Hnotin Hr]; subst.
  destruct (String.eqb k k'); simpl; [assumption|].
  constructor; [|auto].
  intros Hin. apply Hnotin.
  now apply (JSMap_keys_delete_incl k r).
Qed.

(** Deleting a key that does not occur in the first part of the map. *)
Lemma JSMap_delete_middle k a (pre post : JSMap.t A) :
  ~ In k (JSMap.keys pre) ->
  JSMap.delete k (pre ++ (k, a) :: post)%list = (pre ++ post)%list.
Proof.
  induction pre as [|[k' a'] r IH]; simpl; intros Hnotin.
  - now rewrite String.eqb_refl.
  - destruct (String.eqb_spec k k') as [->|Hne]; [tauto|].
    f_equal. apply IH. tauto.
Qed.

Lemma JSMap_get_delete_same k m :
  JSMap.wf m -> JSMap.get k (JSMap.delete k m) = None.
Proof.
  unfold JSMap.wf, JSMap.keys.
  induction m as [|[k' a'] r IH]; simpl; intros Hwf; [reflexivity|].
  inversion Hwf as [|? ? Hnotin Hr]; subst.
  destruct (String.eqb_spec k k') as [->|Hne]; simpl.
  - apply JSMap_has_false_get.
    destruct (JSMap.has k' r) eqn:H; [|reflexivity].
    apply JSMap_has_keys in H. contradiction.
  - destruct (String.eqb_spec k k'); [contradiction | auto].
Qed.

Lemma JSMap_get_delete_other k k' m :
  k' <> k -> JSMap.get k' (JSMap.delete k m) = JSMap.get k' m.
Proof.
  intros Hne. induction m as [|[k0 a0] r IH]; simpl; [reflexivity|].
  destruct (String.eqb_spec k k0) as [->|Hk]; simpl.
  - destruct (String.eqb_spec k' k0); [contradiction | reflexivity].
  - destruct (String.eqb_spec k' k0); [reflexivity | exact IH].
Qed.

Lemma JSMap_get_In k a m : JSMap.get k m = Some a -> In (k, a) m.
Proof.
  induction m as [|[k' a'] r IH]; simpl; [discriminate|].
  destruct (String.eqb_spec k k') as [->|Hne].
  - intros [= ->]. now left.
  - intros H. right. auto.
Qed.

Lemma JSMap_In_get k a m : JSMap.wf m -> In (k, a) m -> JSMap.get k m = Some a.
Proof.
  unfold JSMap.wf, JSMap.keys.
  induction m as [|[k' a'] r IH]; simpl; intros Hwf; [tauto|].
  inversion Hwf as [|? ? Hnotin Hr]; subst.
  intros [[= -> ->]|Hin].
  - now rewrite String.eqb_refl.
  - destruct (String.eqb_spec k k') as [->|Hne]; [|auto].
    exfalso. apply Hnotin. now apply (in_map fst) in Hin.
Qed.
End JSMapFacts.

(* ================================================================== *)
(** * Properties of the memory adapter *)

Section MemoryAdapterFacts.
Context {V : Type}.
Implicit Types (st : MemoryAdapter.t V) (key : string) (now : Z).

Import MemoryAdapter.

Lemma isExpired_true now entry :
  isExpired now entry = true
  <-> exists e, expires entry = Some e /\ e <> 0 /\ e < now.
Proof.
  unfold isExpired, truthy. destruct (expires entry) as [e|].
  - rewrite andb_true_iff, negb_true_iff, Z.eqb_neq, Z.gtb_lt.
    split.
    + intros [H1 H2]. exists e. auto.
    + intros (e' & [= <-] & H1 & H2). auto.
  - split; [discriminate | intros (e & H & _); discriminate].
Qed.

(** What a [set] that gets past the capacity check does. *)
Lemma set_admitted now key v ttl st :
  negb (JSMap.has key (store st))
  && (JSMap.size (store st) >=? maxKeys (options st)) = false ->
  set now key v ttl st
  = match serialize (serialization (options st)) v with
    | Thrown e => (Thrown e, st)
    | Returned serialized =>
        let entry := {| value := serialized;
                        expires := expiresAt now (effectiveTTL ttl st) |} in
        let st1 := with_store st (JSMap.set key entry (store st)) in
        (Returned tt, updateStats (with_stats st1 (incr_sets (stats st1))))
    end.
Proof. unfold set. now intros ->. Qed.

Lemma set_rejected now key v ttl st :
  negb (JSMap.has key (store st))
  && (JSMap.size (store st) >=? maxKeys (options st)) = true ->
  set now key v ttl st = (Thrown (maxKeysError st), st).
Proof. unfold set. now intros ->. Qed.

(** A [set] that returns has written the entry. *)
Lemma set_returned now key v ttl st st' :
  set now key v ttl st = (Returned tt, st') ->
  negb (JSMap.has key (store st))
  && (JSMap.size (store st) >=? maxKeys (options st)) = false
  /\ exists serialized,
      serialize (serialization (options st)) v = Returned serialized
      /\ store st'
         = JSMap.set key
             {| value := serialized;
                expires := expiresAt now (effectiveTTL ttl st) |}
             (store st)
      /\ options st' = options st.
Proof.
  destruct (negb (JSMap.has key (store st))
            && (JSMap.size (store st) >=? maxKeys (options st))) eqn:Hcap.
  - rewrite set_rejected by assumption. discriminate.
  - rewrite set_admitted by assumption.
    destruct (serialize (serialization (options st)) v) as [s|e];
      [|discriminate].
    intros [= <-]. split; [reflexivity|]. exists s. auto.
Qed.

(** A [set] that throws leaves the adapter as it was. *)
Lemma set_thrown now key v ttl st st' e :
  set now key v ttl st = (Thrown e, st') -> st' = st.
Proof.
  unfold set.
  destruct (negb (JSMap.has key (store st))
            && (JSMap.size (store st) >=? maxKeys (options st))).
  - now intros [= _ <-].
  - destruct (serialize (serialization (options st)) v);
      [discriminate | now intros [= _ <-]].
Qed.

(** ** The loop of [cleanup] *)

Lemma cleanup_loop_spec now :
  forall visit pre cleaned st,
    store st = (pre ++ visit)%list ->
    JSMap.wf (pre ++ visit)%list ->
    cleanup_loop now visit cleaned st
    = (cleaned + count_expired now visit,
       with_stats
         (with_store st (pre ++ List.filter (live now) visit)%list)
         (add_expired (count_expired now visit) (stats st))).
Proof.
  unfold count_expired.
  induction visit as [|[k e] rest IH]; intros pre cleaned st Hst Hwf.
  - simpl. rewrite Z.add_0_r. f_equal.
    destruct st as [m tm [] o]; simpl in *. subst m.
    unfold with_stats, with_store, add_expired; simpl.
    now rewrite !Z.add_0_r.
  - assert (Hlive : live now (k, e) = negb (isExpired now e))
      by reflexivity.
    cbn [cleanup_loop List.filter snd]. rewrite Hlive.
    destruct (isExpired now e) eqn:He; cbn [negb].
    + assert (Hdel : JSMap.delete k (store st) = (pre ++ rest)%list).
      { rewrite Hst. apply JSMap_delete_middle.
        unfold JSMap.wf, JSMap.keys in Hwf. rewrite map_app in Hwf.
        apply NoDup_remove_2 in Hwf. simpl in Hwf.
        intros Hin. apply Hwf. apply in_or_app. now left. }
      rewrite (IH pre); cycle 1.
      * simpl. exact Hdel.
      * unfold JSMap.wf, JSMap.keys in *. rewrite map_app in *.
        simpl in Hwf. now apply NoDup_remove_1 in Hwf.
      * cbn [List.length]. rewrite Nat2Z.inj_succ.
        apply f_equal2; [lia|].
        destruct st as [m tm [] o]; simpl.
        unfold with_stats, with_store, add_expired, incr_expired; simpl.
        do 2 f_equal. lia.
    + rewrite (IH (pre ++ [(k, e)])%list).
      * now rewrite <- app_assoc.
      * now rewrite <- app_assoc.
      * now rewrite <- app_assoc.
Qed.

Lemma filter_live_complement now (m : JSMap.t StorageEntry) :
  (List.length m
   = List.length (List.filter (live now) m)
     + List.length (List.filter (fun ke => isExpired now (snd ke)) m))%nat.
Proof.
  induction m as [|[k e] r IH]; simpl; [reflexivity|].
  unfold live at 1. simpl.
  destruct (isExpired now e); simpl; lia.
Qed.

Lemma wf_filter (f : string * StorageEntry -> bool) (m : JSMap.t StorageEntry) :
  JSMap.wf m -> JSMap.wf (List.filter f m).
Proof.
  unfold JSMap.wf, JSMap.keys.
  induction m as [|[k e] r IH]; simpl; intros Hwf; [assumption|].
  inversion Hwf as [|? ? Hnotin Hr]; subst.
  destruct (f (k, e)); simpl; [|auto].
  constructor; [|auto].
  intros Hin. apply Hnotin.
  apply in_map_iff in Hin. destruct Hin as ([k' e'] & Hk & Hin).
  apply filter_In in Hin. apply in_map_iff. exists (k', e'). tauto.
Qed.

(** [cleanup] as a whole, on a well-formed map. *)
Lemma cleanup_spec now st :
  JSMap.wf (store st) ->
  cleanup now st
  = (count_expired now (store st),
     updateStats
       (with_stats
          (with_store st (List.filter (live now) (store st)))
          (add_expired (count_expired now (store st)) (stats st)))).
Proof.
  intros Hwf. unfold cleanup, JSMap.entries.
  rewrite (cleanup_loop_spec now (store st) [] 0 st); auto.
Qed.

(** ** Invariants of reachable states *)

Lemma capacity_inv_shrink st (m : JSMap.t StorageEntry) s :
  capacity_inv st ->
  JSMap.size m <= JSMap.size (store st) ->
  capacity_inv (updateStats (with_stats (with_store st m) s)).
Proof.
  unfold capacity_inv. simpl. intros [H|H] Hle.
  - left. pose proof (JSMap_size_nonneg m). lia.
  - right. lia.
Qed.

Lemma inv_set config now key v ttl st :
  inv config st -> inv config (snd (set now key v ttl st)).
Proof.
  intros (Ho & Hwf & Hcap).
  destruct (negb (JSMap.has key (store st))
            && (JSMap.size (store st) >=? maxKeys (options st))) eqn:Hchk.
  - rewrite set_rejected by assumption. simpl. repeat split; auto.
  - rewrite set_admitted by assumption.
    destruct (serialize (serialization (options st)) v) as [s|e]; simpl.
    + repeat split; auto.
      * now apply JSMap_wf_set.
      * unfold capacity_inv. simpl. rewrite JSMap_size_set.
        apply andb_false_iff in Hchk.
        destruct (JSMap.has key (store st)); [exact Hcap|].
        destruct Hchk as [Hchk|Hchk]; [discriminate|].
        right. rewrite Z.geb_leb in Hchk. apply Z.leb_gt in Hchk. lia.
    + repeat split; auto.
Qed.

Lemma inv_evict config key st :
  inv config st ->
  inv config
    (updateStats
       (with_stats (with_store st (JSMap.delete key (store st)))
                   (incr_expired (stats st)))).
Proof.
  intros (Ho & Hwf & Hcap). repeat split; auto.
  - simpl. now apply JSMap_wf_delete.
  - apply capacity_inv_shrink; auto.
    rewrite JSMap_size_delete. destruct (JSMap.has key (store st)); lia.
Qed.

Lemma inv_run config c st : inv config st -> inv config (run c st).
Proof.
  intros Hinv. pose proof Hinv as (Ho & Hwf & Hcap).
  destruct c as [now key|now key v ttl|key|now key| |now| |];
    cbn [run].
  - unfold get. destruct (JSMap.get key (store st)) as [entry|].
    + destruct (isExpired now entry).
      * exact (inv_evict config key st Hinv).
      * destruct (deserialize _ _); simpl; repeat split; auto.
    + simpl. repeat split; auto.
  - now apply inv_set.
  - unfold delete. destruct (JSMap.has key (store st)) eqn:Hhas; simpl.
    + repeat split; auto.
      * now apply JSMap_wf_delete.
      * apply (capacity_inv_shrink st _ (incr_deletes (stats st))); auto.
        rewrite JSMap_size_delete, Hhas. lia.
    + repeat split; auto.
  - unfold exists_. destruct (JSMap.get key (store st)) as [entry|].
    + destruct (isExpired now entry);
        [exact (inv_evict config key st Hinv) | exact Hinv].
    + exact Hinv.
  - unfold clear. repeat split; auto.
    + simpl. constructor.
    + left. reflexivity.
  - rewrite cleanup_spec by assumption. simpl. repeat split; auto.
    + simpl. now apply wf_filter.
    + apply capacity_inv_shrink; auto.
      unfold JSMap.size. pose proof (filter_live_complement now (store st)).
      lia.
  - simpl. repeat split; auto.
  - unfold destroy. repeat split; auto.
    + simpl. constructor.
    + left. reflexivity.
Qed.

Lemma reachable_inv config st : reachable config st -> inv config st.
Proof.
  induction 1 as [|c st Hreach IH].
  - repeat split.
    + constructor.
    + left. reflexivity.
  - now apply inv_run.
Qed.

End MemoryAdapterFacts.

(* ================================================================== *)
(** * The storage engine's contract *)

Section Contract.
Context {V : Type}.
Implicit Types (st : MemoryAdapter.t V) (key : string) (now : Z).

Import MemoryAdapter.

Lemma reachable_history config (calls : list (call (V := V))) :
  reachable config
    (List.fold_left (fun st c => run c st) calls (create config)).
Proof.
  assert (H : forall st, reachable config st ->
              reachable config (List.fold_left (fun st c => run c st) calls st)).
  { induction calls as [|c r IH]; intros st Hst; simpl; [assumption|].
    apply IH. now constructor. }
  apply H. constructor.
Qed.

(** C2.  Capacity.  Along every history of the adapter a [set] that
    returns leaves at most [maxKeys] entries in the map.  In any state, a
    [set] for a key that is not present while the map holds [maxKeys]
    entries (or more) throws and leaves map and counters as they were; a
    [set] for a key that is present returns whatever the size of the map,
    once the codec has returned the encoding, and the map keeps its
    size. *)
Theorem C2_capacity_invariant st now key (v : V) ttl :
  (forall config, reachable config st ->
     forall st', set now key v ttl st = (Returned tt, st') ->
       JSMap.size (store st') <= maxKeys config)
  /\ (JSMap.has key (store st) = false ->
      maxKeys (options st) <= JSMap.size (store st) ->
      set now key v ttl st = (Thrown (maxKeysError st), st))
  /\ (JSMap.has key (store st) = true ->
      forall serialized,
        serialize (serialization (options st)) v = Returned serialized ->
        exists st',
          set now key v ttl st = (Returned tt, st')
          /\ JSMap.get key (store st')
             = Some {| value := serialized;
                       expires := expiresAt now (effectiveTTL ttl st) |}
          /\ JSMap.size (store st') = JSMap.size (store st)).
Proof.
  split; [|split].
  - intros config Hreach st' Hset.
    pose proof (inv_set config now key v ttl st (reachable_inv _ _ Hreach))
      as (Ho & _ & Hcap).
    rewrite Hset in Ho, Hcap. simpl in Ho, Hcap. subst config.
    destruct Hcap as [Hempty|Hle]; [|exact Hle].
    apply set_returned in Hset. destruct Hset as (_ & s & _ & Hstore & _).
    rewrite Hstore, JSMap_size_set in Hempty.
    pose proof (JSMap_size_nonneg (store st)).
    destruct (JSMap.has key (store st)) eqn:Hhas; [|lia].
    apply JSMap_has_keys in Hhas. unfold JSMap.size in Hempty.
    destruct (store st); [destruct Hhas | simpl in Hempty; lia].
  - intros Hhas Hfull. apply set_rejected. rewrite Hhas. simpl.
    rewrite Z.geb_leb. now apply Z.leb_le.
  - intros Hhas s Hs. rewrite set_admitted by (now rewrite Hhas).
    rewrite Hs. eexists. split; [reflexivity|]. simpl. split.
    + apply JSMap_get_set_same.
    + now rewrite JSMap_size_set, Hhas.
Qed.

(** C3, as the code has it.  [get] on a key whose entry carries a nonzero
    expiry timestamp that lies strictly before the clock reading removes
    the entry, adds one to [expired], leaves [hits] and [misses] as they
    were and returns [null]; on a present entry that is not expired it
    adds one to [hits] and hands the stored string to the codec; on an
    absent key it adds one to [misses] and returns [null]. *)
Theorem C3_get_accounting st now key :
  (forall entry e,
     JSMap.wf (store st) ->
     JSMap.get key (store st) = Some entry ->
     expires entry = Some e -> e <> 0 -> e < now ->
     exists st',
       get now key st = (Returned None, st')
       /\ store st' = JSMap.delete key (store st)
       /\ JSMap.get key (store st') = None
       /\ Stats.expired (stats st') = Stats.expired (stats st) + 1
       /\ Stats.misses (stats st') = Stats.misses (stats st)
       /\ Stats.hits (stats st') = Stats.hits (stats st))
  /\ (forall entry,
        JSMap.get key (store st) = Some entry ->
        isExpired now entry = false ->
        exists st',
          snd (get now key st) = st'
          /\ fst (get now key st)
             = match deserialize (serialization (options st)) (value entry)
               with
               | Returned v => Returned (Some v)
               | Thrown err => Thrown err
               end
          /\ store st' = store st
          /\ Stats.hits (stats st') = Stats.hits (stats st) + 1
          /\ Stats.misses (stats st') = Stats.misses (stats st)
          /\ Stats.expired (stats st') = Stats.expired (stats st))
  /\ (JSMap.get key (store st) = None ->
      exists st',
        get now key st = (Returned None, st')
        /\ store st' = store st
        /\ Stats.misses (stats st') = Stats.misses (stats st) + 1
        /\ Stats.hits (stats st') = Stats.hits (stats st)
        /\ Stats.expired (stats st') = Stats.expired (stats st)).
Proof.
  split; [|split].
  - intros entry e Hwf Hget He Hnz Hlt.
    assert (Hexp : isExpired now entry = true)
      by (apply isExpired_true; eauto).
    unfold get. rewrite Hget, Hexp. eexists. split; [reflexivity|].
    simpl. repeat split. now apply JSMap_get_delete_same.
  - intros entry Hget Hexp. unfold get. rewrite Hget, Hexp.
    eexists. split; [reflexivity|].
    destruct (deserialize _ _); simpl; repeat split.
  - intros Hget. unfold get. rewrite Hget.
    eexists. split; [reflexivity|]. simpl. repeat split.
Qed.

(** C4, at the adapter.  The entry a returning [set] writes expires at
    [now + ttl] for an explicit positive [ttl], whatever the configured
    default; with [ttl] omitted it expires at [now + defaultTTL], a
    default of [0] meaning that it never does; with an explicit [ttl] of
    [0] it never expires, whatever the default. *)
Lemma set_expiry st now key (v : V) ttl st' :
  set now key v ttl st = (Returned tt, st') ->
  option_map expires (JSMap.get key (store st'))
  = Some (expiresAt now (effectiveTTL ttl st)).
Proof.
  intros Hset. apply set_returned in Hset.
  destruct Hset as (_ & s & _ & -> & _).
  now rewrite JSMap_get_set_same.
Qed.

Lemma expiry_rule st now :
  (forall ttl, 0 < ttl ->
     expiresAt now (effectiveTTL (Some ttl) st) = Some (now + ttl))
  /\ expiresAt now (effectiveTTL None st)
     = (if defaultTTL (options st) =? 0 then None
        else Some (now + defaultTTL (options st)))
  /\ expiresAt now (effectiveTTL (Some 0) st) = None.
Proof.
  unfold expiresAt, effectiveTTL, nullish, or_undefined, truthy.
  split; [|split].
  - intros ttl Hpos. simpl.
    destruct (Z.eqb_spec ttl 0); [lia | reflexivity].
  - destruct (Z.eqb_spec (defaultTTL (options st)) 0) as [H0|Hn]; simpl;
      [reflexivity|].
    destruct (Z.eqb_spec (defaultTTL (options st)) 0); [contradiction|].
    reflexivity.
  - reflexivity.
Qed.

End Contract.

(** C4.  TTL selection.  The entry written by a returning [set] of the
    adapter expires at [now + ttl] when an explicit positive [ttl] is
    given, whatever the configured [defaultTTL]; when [ttl] is omitted the
    configured [defaultTTL] is used ([0] meaning no expiry); an explicit
    [ttl] of [0] gives an entry without expiry, whatever the default.  The
    same holds through [KeyValue.set], whose own [defaultTTL], when it has
    one, stands in for an omitted [ttl] before the adapter is called. *)
Theorem C4_ttl_selection :
  (forall (V : Type) (st st' : MemoryAdapter.t V) now key (v : V) ttl,
     MemoryAdapter.set now key v ttl st = (Returned tt, st') ->
     exists entry,
       JSMap.get key (MemoryAdapter.store st') = Some entry
       /\ (forall t, ttl = Some t -> 0 < t -> expires entry = Some (now + t))
       /\ (ttl = None ->
           expires entry
           = if defaultTTL (MemoryAdapter.options st) =? 0 then None
             else Some (now + defaultTTL (MemoryAdapter.options st)))
       /\ (ttl = Some 0 -> expires entry = None))
  /\ (forall (kv kv' : KeyValue.t) now key v ttl,
        KeyValue.set now key v ttl kv = (Returned tt, kv') ->
        exists entry,
          JSMap.get (KeyValue.buildKey kv key)
                    (MemoryAdapter.store (KeyValue.adapter kv'))
          = Some entry
          /\ (forall t, ttl = Some t -> 0 < t ->
              expires entry = Some (now + t))
          /\ (ttl = None ->
              expires entry
              = match KeyValue.defaultTTL kv with
                | Some d => if d =? 0 then None else Some (now + d)
                | None =>
                    let d := defaultTTL
                               (MemoryAdapter.options (KeyValue.adapter kv)) in
                    if d =? 0 then None else Some (now + d)
                end)
          /\ (ttl = Some 0 -> expires entry = None)).
Proof.
  assert (Hadapter :
    forall (V : Type) (st st' : MemoryAdapter.t V) now key (v : V) ttl,
      MemoryAdapter.set now key v ttl st = (Returned tt, st') ->
      exists entry,
        JSMap.get key (MemoryAdapter.store st') = Some entry
        /\ expires entry
           = MemoryAdapter.expiresAt now (MemoryAdapter.effectiveTTL ttl st)).
  { intros V st st' now key v ttl Hset.
    pose proof (set_expiry st now key v ttl st' Hset) as H.
    destruct (JSMap.get key (MemoryAdapter.store st')) as [entry|];
      [|discriminate].
    exists entry. split; [reflexivity|]. now injection H. }
  split.
  - intros V st st' now key v ttl Hset.
    destruct (Hadapter V st st' now key v ttl Hset) as (entry & Hget & Hexp).
    destruct (expiry_rule st now) as (Hpos & Hnone & Hzero).
    exists entry. split; [exact Hget|]. rewrite Hexp.
    split; [|split].
    + intros t -> Ht. now apply Hpos.
    + intros ->. exact Hnone.
    + intros ->. exact Hzero.
  - intros kv kv' now key v ttl Hset.
    unfold KeyValue.set in Hset.
    destruct key as [|c key']; [discriminate|].
    destruct (KeyValue.isUndefined v); [discriminate|].
    set (fullKey := KeyValue.buildKey kv (String c key')) in *.
    destruct (MemoryAdapter.set now fullKey v
                (nullish ttl (KeyValue.defaultTTL kv)) (KeyValue.adapter kv))
      as [[[]|err] a] eqn:Hinner; [|discriminate].
    injection Hset as <-. simpl.
    destruct (Hadapter _ _ _ _ _ _ _ Hinner) as (entry & Hget & Hexp).
    destruct (expiry_rule (KeyValue.adapter kv) now) as (Hpos & Hnone & Hzero).
    exists entry. split; [exact Hget|]. rewrite Hexp.
    split; [|split].
    + intros t -> Ht. now apply Hpos.
    + intros ->. simpl. destruct (KeyValue.defaultTTL kv) as [d|].
      * unfold MemoryAdapter.expiresAt, MemoryAdapter.effectiveTTL, truthy.
        simpl. now destruct (d =? 0).
      * exact Hnone.
    + intros ->. exact Hzero.
Qed.

Section Contract2.
Context {V : Type}.
Implicit Types (st : MemoryAdapter.t V) (key : string) (now : Z).

Import MemoryAdapter.

(** ** [mset] *)

Lemma mset_from_app (clock : nat -> Z) ttl (l1 l2 : list (string * V)) :
  forall i st,
    mset_from i clock (l1 ++ l2)%list ttl st
    = match mset_from i clock l1 ttl st with
      | (Returned _, st') => mset_from (i + List.length l1) clock l2 ttl st'
      | (Thrown e, st') => (Thrown e, st')
      end.
Proof.
  induction l1 as [|[k v] r IH]; intros i st; simpl.
  - now rewrite Nat.add_0_r.
  - destruct (set (clock i) k v ttl st) as [[[]|e] st1]; [|reflexivity].
    rewrite IH. now rewrite Nat.add_succ_r.
Qed.

Lemma set_keeps_keys now key (v : V) ttl st k' :
  JSMap.has k' (store st) = true ->
  JSMap.has k' (store (snd (set now key v ttl st))) = true.
Proof.
  intros Hhas. unfold set.
  destruct (negb (JSMap.has key (store st))
            && (JSMap.size (store st) >=? maxKeys (options st)));
    [exact Hhas|].
  destruct (serialize (serialization (options st)) v); [|exact Hhas].
  simpl. now apply JSMap_has_set.
Qed.

Lemma mset_from_keeps_keys (clock : nat -> Z) ttl (l : list (string * V)) k' :
  forall i st,
    JSMap.has k' (store st) = true ->
    JSMap.has k' (store (snd (mset_from i clock l ttl st))) = true.
Proof.
  induction l as [|[k v] r IH]; intros i st Hhas; simpl; [exact Hhas|].
  pose proof (set_keeps_keys (clock i) k v ttl st k' Hhas) as Hstep.
  destruct (set (clock i) k v ttl st) as [[[]|e] st1]; simpl in *.
  - now apply IH.
  - exact Hstep.
Qed.

Lemma mset_from_commits (clock : nat -> Z) ttl (l : list (string * V)) :
  forall i st st',
    mset_from i clock l ttl st = (Returned tt, st') ->
    forall k v, In (k, v) l -> JSMap.has k (store st') = true.
Proof.
  induction l as [|[k0 v0] r IH]; intros i st st' Hrun k v Hin;
    [destruct Hin|].
  simpl in Hrun.
  destruct (set (clock i) k0 v0 ttl st) as [[[]|e] st1] eqn:Hset;
    [|discriminate].
  destruct Hin as [[= -> ->]|Hin].
  - apply set_returned in Hset. destruct Hset as (_ & s & _ & Hstore & _).
    assert (H1 : JSMap.has k (store st1) = true).
    { unfold JSMap.has. now rewrite Hstore, JSMap_get_set_same. }
    pose proof (mset_from_keeps_keys clock ttl r k (S i) st1 H1) as H2.
    now rewrite Hrun in H2.
  - eapply IH; eauto.
Qed.

(** C6.  [mset] issues the [set]s in list order.  When the [set]s for the
    entries before position [i] have returned and the one at position [i]
    throws, [mset] throws that same error; the adapter is left in the
    state reached after the first [i] sets (nothing of the failing entry
    or of the entries after it is written), and every key of the entries
    before position [i] is in the store. *)
Theorem C6_mset_stops_at_first_failure
        (clock : nat -> Z) (pre post : list (string * V)) key (v : V)
        ttl st st_i st_f err :
  mset clock pre ttl st = (Returned tt, st_i) ->
  set (clock (List.length pre)) key v ttl st_i = (Thrown err, st_f) ->
  mset clock (pre ++ (key, v) :: post)%list ttl st = (Thrown err, st_i)
  /\ st_f = st_i
  /\ (forall k' v', In (k', v') pre -> JSMap.has k' (store st_i) = true).
Proof.
  intros Hpre Hfail.
  assert (Hsame : st_f = st_i) by (eapply set_thrown; eauto).
  subst st_f. split; [|split].
  - unfold mset in *. rewrite mset_from_app, Hpre. simpl.
    now rewrite Hfail.
  - reflexivity.
  - intros k' v' Hin. unfold mset in Hpre.
    eapply mset_from_commits; eauto.
Qed.

(** C7.  [clear] empties the map and sets the seven counters to zero; a
    second [clear] changes nothing. *)
Theorem C7_clear_resets_and_is_idempotent st :
  store (clear st) = []
  /\ Stats.hits (stats (clear st)) = 0
  /\ Stats.misses (stats (clear st)) = 0
  /\ Stats.sets (stats (clear st)) = 0
  /\ Stats.deletes (stats (clear st)) = 0
  /\ Stats.expired (stats (clear st)) = 0
  /\ Stats.keys (stats (clear st)) = 0
  /\ Stats.memory (stats (clear st)) = 0
  /\ clear (clear st) = clear st.
Proof. repeat split. Qed.

(** ** [cleanup] *)

Lemma get_filter (f : string * StorageEntry -> bool)
      (m : JSMap.t StorageEntry) key :
  JSMap.wf m ->
  JSMap.get key (List.filter f m)
  = match JSMap.get key m with
    | Some e => if f (key, e) then Some e else None
    | None => None
    end.
Proof.
  unfold JSMap.wf, JSMap.keys.
  induction m as [|[k e] r IH]; simpl; intros Hwf; [reflexivity|].
  inversion Hwf as [|? ? Hnotin Hr]; subst.
  destruct (String.eqb_spec key k) as [->|Hne].
  - destruct (f (k, e)) eqn:Hf; simpl.
    + now rewrite String.eqb_refl.
    + rewrite IH by assumption.
      destruct (JSMap.get k r) as [e'|] eqn:Hget; [|reflexivity].
      exfalso. apply Hnotin. apply JSMap_get_In in Hget.
      now apply (in_map fst) in Hget.
  - destruct (f (k, e)); simpl.
    + destruct (String.eqb_spec key k); [contradiction | auto].
    + auto.
Qed.

(** C8, as the code has it.  On every (well-formed) store [cleanup]
    removes exactly the entries whose expiry timestamp is nonzero and
    lies strictly before the clock reading, keeps every other entry in
    place and in order, returns the number of entries it removed and adds
    that number to [expired]; afterwards no such entry is left.  An entry
    whose [expires] is [0] is kept, like one without expiry. *)
Theorem C8_cleanup_sweeps_expired st now :
  JSMap.wf (store st) ->
  exists cleaned st',
    cleanup now st = (cleaned, st')
    /\ store st' = List.filter (live now) (store st)
    /\ (forall key,
          JSMap.get key (store st')
          = match JSMap.get key (store st) with
            | Some entry => if isExpired now entry then None else Some entry
            | None => None
            end)
    /\ cleaned = JSMap.size (store st) - JSMap.size (store st')
    /\ Stats.expired (stats st') = Stats.expired (stats st) + cleaned
    /\ (forall key entry e,
          JSMap.get key (store st') = Some entry ->
          expires entry = Some e -> e = 0 \/ now <= e).
Proof.
  intros Hwf. rewrite cleanup_spec by assumption.
  do 2 eexists. split; [reflexivity|]. simpl.
  assert (Hget : forall key,
            JSMap.get key (List.filter (live now) (store st))
            = match JSMap.get key (store st) with
              | Some entry =>
                  if isExpired now entry then None else Some entry
              | None => None
              end).
  { intros key. rewrite get_filter by assumption.
    destruct (JSMap.get key (store st)) as [entry|]; [|reflexivity].
    unfold live. simpl. now destruct (isExpired now entry). }
  split; [reflexivity|]. split; [exact Hget|]. split; [|split].
  - unfold count_expired, JSMap.size.
    pose proof (filter_live_complement now (store st)). lia.
  - reflexivity.
  - intros key entry e Hin He. rewrite Hget in Hin.
    destruct (JSMap.get key (store st)) as [entry'|]; [|discriminate].
    destruct (isExpired now entry') eqn:Hexp; [discriminate|].
    injection Hin as ->.
    destruct (Z.eq_dec e 0) as [|Hnz]; [now left|].
    right. destruct (Z.lt_ge_cases e now) as [Hlt|]; [|assumption].
    assert (Htrue : isExpired now entry = true)
      by (apply isExpired_true; eauto).
    congruence.
Qed.

Lemma keys_after_cleanup st now key :
  JSMap.wf (store st) ->
  In key (keys (snd (cleanup now st))) ->
  exists entry,
    JSMap.get key (store st) = Some entry /\ isExpired now entry = false.
Proof.
  intros Hwf Hin. rewrite cleanup_spec in Hin by assumption.
  unfold keys in Hin. simpl in Hin.
  apply JSMap_has_keys, JSMap_has_get in Hin. destruct Hin as [e He].
  rewrite get_filter in He by assumption.
  destruct (JSMap.get key (store st)) as [entry|]; [|discriminate].
  exists entry. split; [reflexivity|].
  unfold live in He. simpl in He.
  now destruct (isExpired now entry).
Qed.

(** ** Entries written with a negative TTL *)

Lemma hidden_evicted now key st s :
  JSMap.wf (store st) ->
  hidden now key
    (updateStats
       (with_stats (with_store st (JSMap.delete key (store st))) s)).
Proof.
  intros Hwf. split; simpl.
  - now apply JSMap_wf_delete.
  - now rewrite JSMap_get_delete_same.
Qed.

Lemma hidden_probe now key st p :
  hidden now key st -> now <= probe_time p ->
  fst (run_probe key p st) = false
  /\ hidden now key (snd (run_probe key p st)).
Proof.
  intros [Hwf Hhid] Hle. destruct p as [now'|now']; simpl in Hle.
  - unfold run_probe, get.
    destruct (JSMap.get key (store st)) as [entry|] eqn:Hget.
    + rewrite (Hhid now' Hle). split; [reflexivity|].
      apply (hidden_evicted now key st (incr_expired (stats st)) Hwf).
    + split; [reflexivity|]. split; [exact Hwf|].
      simpl. now rewrite Hget.
  - unfold run_probe, exists_.
    destruct (JSMap.get key (store st)) as [entry|] eqn:Hget.
    + rewrite (Hhid now' Hle). split; [reflexivity|].
      apply (hidden_evicted now key st (incr_expired (stats st)) Hwf).
    + split; [reflexivity|]. split; [exact Hwf|].
      simpl. now rewrite Hget.
Qed.

Lemma hidden_probes now key ps :
  forall st,
    hidden now key st ->
    Forall (fun p => now <= probe_time p) ps ->
    Forall (fun seen => seen = false) (fst (run_probes key ps st)).
Proof.
  induction ps as [|p r IH]; intros st Hhid Hall; simpl; [constructor|].
  inversion Hall as [|? ? Hp Hr]; subst.
  destruct (hidden_probe now key st p Hhid Hp) as [Hseen Hnext].
  destruct (run_probe key p st) as [seen st1]; simpl in *.
  specialize (IH st1 Hnext Hr).
  destruct (run_probes key r st1) as [seens st2]; simpl in *.
  constructor; assumption.
Qed.

(** C10, as the code has it.  A [set] with a strictly negative [ttl] for
    which [now + ttl] is not [0] writes an entry that expires at
    [now + ttl].  As long as the clock does not run backwards the entry is
    never observed: the first [get] after it returns [null], the first
    [exists] returns [false], either of them removes the entry and adds
    one to [expired]; and every sequence of later [get]s and [exists]
    finds the key absent. *)
Theorem C10_negative_ttl_entry_is_hidden st now key (v : V) ttl st1 :
  JSMap.wf (store st) ->
  ttl < 0 -> now + ttl <> 0 ->
  set now key v (Some ttl) st = (Returned tt, st1) ->
  option_map expires (JSMap.get key (store st1)) = Some (Some (now + ttl))
  /\ (forall now', now <= now' ->
        exists st2,
          get now' key st1 = (Returned None, st2)
          /\ JSMap.get key (store st2) = None
          /\ Stats.expired (stats st2) = Stats.expired (stats st1) + 1)
  /\ (forall now', now <= now' ->
        exists st2,
          exists_ now' key st1 = (false, st2)
          /\ JSMap.get key (store st2) = None
          /\ Stats.expired (stats st2) = Stats.expired (stats st1) + 1)
  /\ (forall ps,
        Forall (fun p => now <= probe_time p) ps ->
        Forall (fun seen => seen = false) (fst (run_probes key ps st1))).
Proof.
  intros Hwf Hneg Hnz Hset.
  pose proof (set_expiry st now key v (Some ttl) st1 Hset) as Hexp.
  assert (Hat : expiresAt now (effectiveTTL (Some ttl) st)
                = Some (now + ttl)).
  { unfold expiresAt, effectiveTTL, nullish, truthy.
    destruct (Z.eqb_spec ttl 0); [lia | reflexivity]. }
  rewrite Hat in Hexp.
  assert (Hwf1 : JSMap.wf (store st1)).
  { apply set_returned in Hset. destruct Hset as (_ & s & _ & -> & _).
    now apply JSMap_wf_set. }
  destruct (JSMap.get key (store st1)) as [entry|] eqn:Hget;
    [|discriminate].
  injection Hexp as Hexp.
  assert (Hpast : forall now', now <= now' -> isExpired now' entry = true).
  { intros now' Hle. apply isExpired_true. exists (now + ttl).
    repeat split; [assumption | assumption | lia]. }
  split; [simpl; now rewrite Hexp|]. split; [|split].
  - intros now' Hle. unfold get. rewrite Hget, (Hpast now' Hle).
    eexists. split; [reflexivity|]. simpl. split; [|reflexivity].
    now apply JSMap_get_delete_same.
  - intros now' Hle. unfold exists_. rewrite Hget, (Hpast now' Hle).
    eexists. split; [reflexivity|]. simpl. split; [|reflexivity].
    now apply JSMap_get_delete_same.
  - intros ps Hps. apply (hidden_probes now); [|assumption].
    split; [assumption|]. now rewrite Hget.
Qed.

End Contract2.

(* ================================================================== *)
(** * Properties of the codec *)

Section CodecFacts.
Import JS.
Import Shapes.
#[local] Abbreviation print := SerializationWalk.defaultSerialize.

Lemma string_append_assoc (a b c : string) : (a ++ b) ++ c = a ++ (b ++ c).
Proof. induction a as [|x a IH]; simpl; [reflexivity | now rewrite IH]. Qed.

(** The parser reads back one quoted code unit. *)
Lemma parse_quote_char c r :
  parse_string_chars (quote_char c ++ r) = cons_char c (parse_string_chars r).
Proof. destruct c as [[] [] [] [] [] [] [] []]; reflexivity. Qed.

Lemma parse_quote_chars s rest :
  parse_string_chars (quote_chars s ++ String dquote rest) = Some (s, rest).
Proof.
  induction s as [|c s IH].
  - reflexivity.
  - cbn [quote_chars].
    rewrite string_append_assoc, parse_quote_char, IH. reflexivity.
Qed.

(** [JSON.parse(JSON.stringify(s), reviver)] for a string [s]. *)
Lemma JSON_parse_quoted s reviver :
  JSON_parse (QuoteJSONString s) reviver
  = Returned (reviver EmptyString (VString s)).
Proof.
  unfold JSON_parse, QuoteJSONString.
  set (text := String dquote (quote_chars s ++ String dquote "")).
  replace (2 * String.length text + 2)%nat
    with (S (2 * String.length text + 1)) by lia.
  unfold text. cbn [parse_value skip_ws].
  change (is_ws dquote) with false. cbv iota.
  change ((dquote =? "n")%char) with false.
  change ((dquote =? "t")%char) with false.
  change ((dquote =? "f")%char) with false.
  change ((dquote =? dquote)%char) with true. cbv iota.
  rewrite parse_quote_chars. reflexivity.
Qed.

(** The escape of [serializeString] is undone by the reviver. *)
Lemma reviver_serializeString name s :
  Serialization.reviver name
    (VString (if startsWith s ":" then ":" ++ s else s))
  = VString s.
Proof.
  destruct s as [|c s]; [reflexivity|].
  cbn [startsWith]. destruct (Ascii.eqb_spec ":" c) as [<-|Hne]; cbn [andb].
  - reflexivity.
  - unfold Serialization.reviver. cbn [startsWith].
    destruct (Ascii.eqb_spec ":" c) as [|_]; [contradiction|]. reflexivity.
Qed.

Lemma sextet_cases (P : N -> Prop) :
  (forall i, In i (List.map N.of_nat (List.seq 0 64)) -> P i) ->
  forall i, (i < 64)%N -> P i.
Proof.
  intros H i Hi. apply H. apply in_map_iff. exists (N.to_nat i).
  split; [apply N2Nat.id|]. apply in_seq. lia.
Qed.

Lemma sextets_b64char i r :
  (i < 64)%N -> sextets (String (b64char i) r) = i :: sextets r.
Proof.
  revert i. apply sextet_cases. intros i Hi. cbn in Hi.
  repeat (destruct Hi as [<-|Hi]; [reflexivity|]). destruct Hi.
Qed.

Lemma byte_of_to_N b : byte_of_N (Byte.to_N b) = b.
Proof.
  unfold byte_of_N. pose proof (Byte.to_N_bounded b).
  rewrite N.mod_small by lia. now rewrite Byte.of_to_N.
Qed.

Lemma byte_of_N_eq n b : n = Byte.to_N b -> byte_of_N n = b.
Proof. intros ->. apply byte_of_to_N. Qed.

Local Ltac euclid := zify; Z.to_euclidean_division_equations; lia.

(** [Buffer.from(buf.toString("base64"), "base64")] is [buf]. *)
Lemma base64_round_trip bytes :
  Buffer_from_base64 (toString_base64 bytes) = bytes.
Proof.
  unfold Buffer_from_base64.
  assert (H : forall n bs, (List.length bs <= n)%nat ->
             bytes_of_sextets (sextets (toString_base64 bs)) = bs).
  { induction n as [|n IH]; intros bs Hlen.
    - destruct bs; [reflexivity | simpl in Hlen; lia].
    - destruct bs as [|a [|b [|c rest]]].
      + reflexivity.
      + cbn [toString_base64].
        pose proof (Byte.to_N_bounded a).
        rewrite !sextets_b64char by euclid.
        cbn [sextets]. change (("=" =? "=")%char) with true. cbv iota.
        cbn [bytes_of_sextets].
        rewrite (byte_of_N_eq _ a) by euclid. reflexivity.
      + cbn [toString_base64].
        pose proof (Byte.to_N_bounded a). pose proof (Byte.to_N_bounded b).
        rewrite !sextets_b64char by euclid.
        cbn [sextets]. change (("=" =? "=")%char) with true. cbv iota.
        cbn [bytes_of_sextets].
        rewrite (byte_of_N_eq _ a), (byte_of_N_eq _ b) by euclid.
        reflexivity.
      + cbn [toString_base64].
        pose proof (Byte.to_N_bounded a). pose proof (Byte.to_N_bounded b).
        pose proof (Byte.to_N_bounded c).
        rewrite !sextets_b64char by euclid.
        cbn [bytes_of_sextets].
        rewrite IH by (simpl in Hlen; lia).
        rewrite (byte_of_N_eq _ a), (byte_of_N_eq _ b), (byte_of_N_eq _ c)
          by euclid.
        reflexivity. }
  apply (H (List.length bytes)). lia.
Qed.

Lemma reviver_serializeBuffer name bytes :
  Serialization.reviver name (VString (":base64:" ++ toString_base64 bytes))
  = VBuffer bytes.
Proof.
  unfold Serialization.reviver.
  change (startsWith (":base64:" ++ toString_base64 bytes) ":base64:")
    with true.
  cbv iota. cbn [append slice]. now rewrite base64_round_trip.
Qed.

(** At the top level both revisions return strings (the empty one and the
    ones that begin with the marker included), blobs (the empty one
    included) and [null] unchanged. *)
Lemma top_level_round_trip :
  (forall s,
     Serialization.defaultDeserialize
       (Serialization.defaultSerialize (VString s)) = Returned (VString s)
     /\ SerializationWalk.defaultDeserialize
          (SerializationWalk.defaultSerialize (VString s))
        = Returned (VString s))
  /\ (forall bytes,
        Serialization.defaultDeserialize
          (Serialization.defaultSerialize (VBuffer bytes))
        = Returned (VBuffer bytes)
        /\ SerializationWalk.defaultDeserialize
             (SerializationWalk.defaultSerialize (VBuffer bytes))
           = Returned (VBuffer bytes))
  /\ Serialization.defaultDeserialize (Serialization.defaultSerialize VNull)
     = Returned VNull
  /\ SerializationWalk.defaultDeserialize
       (SerializationWalk.defaultSerialize VNull)
     = Returned VNull.
Proof.
  split; [|split; [|split; reflexivity]].
  - intros s.
    assert (H : JSON_parse (Serialization.serializeString s)
                           Serialization.reviver
                = Returned (VString s)).
    { unfold Serialization.serializeString.
      now rewrite JSON_parse_quoted, reviver_serializeString. }
    split; exact H.
  - intros bytes.
    assert (H : JSON_parse (Serialization.serializeBuffer bytes)
                           Serialization.reviver
                = Returned (VBuffer bytes)).
    { unfold Serialization.serializeBuffer.
      now rewrite JSON_parse_quoted, reviver_serializeBuffer. }
    split; exact H.
Qed.

(** ** Nested values

    Where the round trip does hold: the parser reads back what the
    serializer prints, for arrays and objects of any depth. *)

Lemma string_length_append (a b : string) :
  String.length (a ++ b) = (String.length a + String.length b)%nat.
Proof. induction a as [|c a IH]; simpl; [reflexivity | now rewrite IH]. Qed.

Lemma string_append_nil_r (a : string) : a ++ EmptyString = a.
Proof. induction a as [|c a IH]; simpl; [reflexivity | now rewrite IH]. Qed.

(** The loop over an array appends the texts of its elements to [result]. *)
Lemma array_loop (items : list any) :
  forall first result,
    (fix loop (l : list any) (first : bool) (result : string) : string :=
       match l with
       | [] => result
       | val :: rest =>
           loop rest false
             (result ++ SerializationWalk.comma first
                     ++ SerializationWalk.defaultSerialize val)
       end) items first result
    = result ++ joined first (List.map SerializationWalk.defaultSerialize items).
Proof.
  induction items as [|x r IH]; intros first result.
  - simpl. now rewrite string_append_nil_r.
  - rewrite IH. cbn [List.map joined]. now rewrite !string_append_assoc.
Qed.

(** The loop over an object, none of whose values is [undefined]. *)
Lemma object_loop (props : list (string * any)) :
  Forall (fun kx => snd kx <> VUndefined) props ->
  forall first result,
    (fix loop (l : list (string * any)) (first : bool) (result : string)
       : string :=
       match l with
       | [] => result
       | (key, val) :: rest =>
           match val with
           | VUndefined => loop rest first result
           | _ =>
               loop rest false
                 (result ++ SerializationWalk.comma first
                         ++ SerializationWalk.serializeString key ++ ":"
                         ++ SerializationWalk.defaultSerialize val)
           end
       end) props first result
    = result ++ joined first (List.map member_text props).
Proof.
  induction 1 as [|[k x] r Hx Hr IH]; intros first result.
  - simpl. now rewrite string_append_nil_r.
  - simpl in Hx. cbn [List.map joined]. unfold member_text at 1. cbn [fst snd].
    destruct x; try contradiction; rewrite IH; now rewrite !string_append_assoc.
Qed.

Lemma serialize_array items :
  SerializationWalk.defaultSerialize (VArray items)
  = "[" ++ joined true (List.map SerializationWalk.defaultSerialize items) ++ "]".
Proof.
  cbn [SerializationWalk.defaultSerialize]. rewrite array_loop.
  now rewrite string_append_assoc.
Qed.

Lemma serialize_object props :
  Forall (fun kx => snd kx <> VUndefined) props ->
  SerializationWalk.defaultSerialize (VObject props)
  = "{" ++ joined true (List.map member_text props) ++ "}".
Proof.
  intros H. cbn [SerializationWalk.defaultSerialize]. rewrite object_loop by assumption.
  now rewrite string_append_assoc.
Qed.

Lemma follows_inv rest :
  follows rest = true ->
  rest = EmptyString
  \/ exists c r, rest = String c r /\ (c = "," \/ c = "]" \/ c = "}")%char.
Proof.
  destruct rest as [|c r]; [now left|]. cbn [follows]. intros H. right.
  exists c, r. split; [reflexivity|].
  apply orb_true_iff in H. destruct H as [H|H].
  - apply orb_true_iff in H. destruct H as [H|H];
      apply Ascii.eqb_eq in H; auto.
  - apply Ascii.eqb_eq in H; auto.
Qed.

Lemma follows_skip_ws rest : follows rest = true -> skip_ws rest = rest.
Proof.
  intros H. destruct (follows_inv rest H) as [->|(c & r & -> & [->|[->| ->]])];
    reflexivity.
Qed.

Lemma follows_ends_number rest : follows rest = true -> ends_number rest = true.
Proof.
  intros H. destruct (follows_inv rest H) as [->|(c & r & -> & [->|[->| ->]])];
    reflexivity.
Qed.

Lemma starts_value_facts c :
  starts_value c = true ->
  is_ws c = false /\ (c =? "]")%char = false /\ (c =? "}")%char = false.
Proof.
  destruct c as [[] [] [] [] [] [] [] []]; intros H; vm_compute in H;
    try discriminate H; repeat split.
Qed.

Lemma parse_value_number_head f c s :
  is_digit c || (c =? "-")%char = true ->
  parse_value (S f) (String c s) = parse_number (String c s).
Proof.
  destruct c as [[] [] [] [] [] [] [] []]; intros H; vm_compute in H;
    try discriminate H; reflexivity.
Qed.

Lemma plain_defined x : plain x = true -> x <> VUndefined.
Proof. intros H ->. discriminate. Qed.

Lemma plain_object props :
  plain (VObject props) = true ->
  Forall (fun kx => startsWith (fst kx) ":" = false /\ plain (snd kx) = true)
         props
  /\ distinct_names props = true.
Proof.
  cbn [plain]. intros H. apply andb_true_iff in H. destruct H as [Hall Hd].
  split; [|exact Hd].
  rewrite forallb_forall in Hall. apply Forall_forall. intros kx Hin.
  specialize (Hall kx Hin). apply andb_true_iff in Hall.
  destruct Hall as [Hk Hp]. apply negb_true_iff in Hk. auto.
Qed.

Lemma plain_object_defined props :
  plain (VObject props) = true ->
  Forall (fun kx => snd kx <> VUndefined) props.
Proof.
  intros H. destruct (plain_object props H) as [Hall _].
  eapply Forall_impl; [|exact Hall]. intros kx [_ Hp].
  now apply plain_defined.
Qed.

(** A printed value begins with a character that starts a JSON value. *)
Lemma print_head x :
  plain x = true ->
  exists c s, print x = String c s /\ starts_value c = true.
Proof.
  intros Hx. destruct x as [| |b|n|s|bytes|items|props]; try discriminate.
  - exists "n"%char, "ull". split; reflexivity.
  - destruct b; eexists _, _; split; reflexivity.
  - cbn [SerializationWalk.defaultSerialize JSON_stringify SerializeJSONProperty].
    unfold Number_toString.
    destruct n as [|p|p]; cbn [Z.to_int NilZero.string_of_int].
    + eexists _, _; split; reflexivity.
    + unfold NilZero.string_of_uint.
      pose proof (DecimalPos.Unsigned.to_uint_nonnil p) as Hnn.
      destruct (Pos.to_uint p); [contradiction | ..];
        eexists _, _; split; reflexivity.
    + eexists _, _; split; reflexivity.
  - eexists _, _; split; reflexivity.
  - eexists _, _; split; reflexivity.
  - rewrite serialize_array. eexists _, _; split; reflexivity.
  - rewrite serialize_object by now apply plain_object_defined.
    eexists _, _; split; reflexivity.
Qed.

Lemma parse_value_array f r :
  parse_value (S f) (String "[" r)
  = match skip_ws r with
    | String c' r' =>
        if (c' =? "]")%char then Some (VArray [], r')
        else match parse_elements f r with
             | Some (items, rest) => Some (VArray items, rest)
             | None => None
             end
    | EmptyString => None
    end.
Proof. reflexivity. Qed.

Lemma parse_value_object f r :
  parse_value (S f) (String "{" r)
  = match skip_ws r with
    | String c' r' =>
        if (c' =? "}")%char then Some (VObject [], r')
        else match parse_members f r with
             | Some (members, rest) => Some (object_of members, rest)
             | None => None
             end
    | EmptyString => None
    end.
Proof. reflexivity. Qed.

Lemma parse_value_string f r :
  parse_value (S f) (String dquote r)
  = match parse_string_chars r with
    | Some (str, rest) => Some (VString str, rest)
    | None => None
    end.
Proof. reflexivity. Qed.

Lemma parse_elements_step f s :
  parse_elements (S f) s
  = match parse_value f s with
    | Some (v, rest) =>
        match skip_ws rest with
        | String c r =>
            if (c =? ",")%char then
              match parse_elements f r with
              | Some (vs, rest') => Some (v :: vs, rest')
              | None => None
              end
            else if (c =? "]")%char then Some ([v], r)
            else None
        | EmptyString => None
        end
    | None => None
    end.
Proof. reflexivity. Qed.

Lemma parse_members_step f r0 :
  parse_members (S f) (String dquote r0)
  = match parse_string_chars r0 with
    | Some (name, r1) =>
        match skip_ws r1 with
        | String colon r2 =>
            if (colon =? ":")%char then
              match parse_value f r2 with
              | Some (v, rest) =>
                  match skip_ws rest with
                  | String c r =>
                      if (c =? ",")%char then
                        match parse_members f r with
                        | Some (ms, rest') => Some ((name, v) :: ms, rest')
                        | None => None
                        end
                      else if (c =? "}")%char then Some ([(name, v)], r)
                      else None
                  | EmptyString => None
                  end
              | None => None
              end
            else None
        | EmptyString => None
        end
    | None => None
    end.
Proof. reflexivity. Qed.

Lemma joined_false_follows texts close rest :
  (close = "]" \/ close = "}")%char ->
  follows (joined false texts ++ String close rest) = true.
Proof.
  intros Hc. destruct texts as [|t r]; cbn [joined append].
  - destruct Hc as [-> | ->]; reflexivity.
  - reflexivity.
Qed.

(** [parse_elements] reads back the elements of an array, up to its
    closing bracket. *)
Lemma parse_elements_reads xs ws :
  Forall2 reads xs ws ->
  forall x w, reads x w ->
  forall fuel rest,
    (String.length (print x ++ joined false (List.map print xs)) + 1 <= fuel)%nat ->
    parse_elements fuel
      (print x ++ joined false (List.map print xs) ++ String "]" rest)
    = Some (w :: ws, rest).
Proof.
  induction 1 as [|x2 w2 xs ws Hx2 Hrest IH]; intros x w [_ Hx] fuel rest Hfuel;
    (destruct fuel as [|f]; [lia|]); rewrite string_length_append in Hfuel;
    rewrite parse_elements_step.
  - cbn [List.map joined append].
    rewrite Hx by (reflexivity || lia). reflexivity.
  - rewrite Hx; cycle 1.
    + lia.
    + now apply joined_false_follows; left.
    + cbn [List.map joined SerializationWalk.comma].
      rewrite !string_append_assoc. cbn [append skip_ws].
      change (is_ws ",") with false. cbv iota.
      change (("," =? ",")%char) with true. cbv iota.
      cbn [List.map joined SerializationWalk.comma] in Hfuel.
      rewrite !string_length_append in Hfuel. cbn [String.length] in Hfuel.
      rewrite (IH x2 w2 Hx2 f rest).
      * reflexivity.
      * rewrite string_length_append. lia.
Qed.

Lemma serializeString_plain_key k :
  startsWith k ":" = false ->
  SerializationWalk.serializeString k = QuoteJSONString k.
Proof.
  unfold SerializationWalk.serializeString, Serialization.serializeString.
  now intros ->.
Qed.

Lemma member_text_unfold k x rest :
  startsWith k ":" = false ->
  member_text (k, x) ++ rest
  = String dquote (quote_chars k ++ String dquote (String ":" (print x ++ rest))).
Proof.
  intros Hk. unfold member_text. cbn [fst snd].
  rewrite serializeString_plain_key by assumption.
  unfold QuoteJSONString. cbn [append].
  now rewrite !string_append_assoc.
Qed.

Lemma member_text_length k x :
  (String.length (print x) + 1 <= String.length (member_text (k, x)))%nat.
Proof.
  unfold member_text. cbn [fst snd].
  rewrite !string_length_append. cbn [String.length]. lia.
Qed.

(** [parse_members] reads back the members of an object, up to its
    closing brace. *)
Lemma parse_members_reads kxs ws :
  Forall2 (fun kx w => startsWith (fst kx) ":" = false /\ reads (snd kx) w)
          kxs ws ->
  forall k x w, startsWith k ":" = false -> reads x w ->
  forall fuel rest,
    (String.length (member_text (k, x) ++ joined false (List.map member_text kxs))
     + 1 <= fuel)%nat ->
    parse_members fuel
      (member_text (k, x) ++ joined false (List.map member_text kxs)
       ++ String "}" rest)
    = Some ((k, w) :: List.combine (List.map fst kxs) ws, rest).
Proof.
  induction 1 as [|[k2 x2] w2 kxs ws [Hk2 Hx2] Hrest IH];
    intros k x w Hk [_ Hx] fuel rest Hfuel;
    (destruct fuel as [|f]; [lia|]); rewrite string_length_append in Hfuel;
    pose proof (member_text_length k x) as Hlen;
    rewrite member_text_unfold by assumption;
    rewrite parse_members_step, parse_quote_chars;
    cbn [skip_ws]; change (is_ws ":") with false; cbv iota;
    change ((":" =? ":")%char) with true; cbv iota.
  - cbn [List.map joined append].
    rewrite Hx by (reflexivity || lia). reflexivity.
  - cbn [fst snd] in *. rewrite Hx; cycle 1.
    + lia.
    + now apply joined_false_follows; right.
    + cbn [List.map joined SerializationWalk.comma].
      rewrite !string_append_assoc. cbn [append skip_ws].
      change (is_ws ",") with false. cbv iota.
      change (("," =? ",")%char) with true. cbv iota.
      cbn [List.map joined SerializationWalk.comma] in Hfuel.
      rewrite !string_length_append in Hfuel. cbn [String.length] in Hfuel.
      rewrite <- !string_append_assoc.
      rewrite string_append_assoc.
      rewrite (IH k2 x2 w2 Hk2 Hx2 f rest).
      * reflexivity.
      * rewrite string_length_append. lia.
Qed.

Lemma JSMap_set_absent {A} k (a : A) (m : JSMap.t A) :
  JSMap.has k m = false -> JSMap.set k a m = (m ++ [(k, a)])%list.
Proof.
  unfold JSMap.has.
  induction m as [|[k' a'] r IH]; simpl; [reflexivity|].
  destruct (String.eqb_spec k k') as [->|Hne]; [discriminate|].
  intros H. now rewrite IH.
Qed.

Lemma JSMap_has_app {A} k (m1 m2 : JSMap.t A) :
  JSMap.has k (m1 ++ m2)%list = JSMap.has k m1 || JSMap.has k m2.
Proof.
  unfold JSMap.has.
  induction m1 as [|[k' a'] r IH]; simpl; [reflexivity|].
  destruct (String.eqb k k'); [reflexivity | exact IH].
Qed.

Lemma JSMap_has_same_keys {A B} k (m1 : JSMap.t A) (m2 : JSMap.t B) :
  List.map fst m1 = List.map fst m2 -> JSMap.has k m1 = JSMap.has k m2.
Proof.
  unfold JSMap.has. revert m2.
  induction m1 as [|[k1 a1] r1 IH]; intros [|[k2 a2] r2]; simpl;
    try discriminate; [reflexivity|].
  intros [= -> Hr]. destruct (String.eqb k k2); [reflexivity | now apply IH].
Qed.

(** Defining properties with distinct names keeps them all, in order. *)
Lemma object_of_distinct (members : list (string * any)) :
  distinct_names members = true -> object_of members = VObject members.
Proof.
  unfold object_of. intros Hd. f_equal.
  assert (H : forall acc,
            (forall kx, In kx members -> JSMap.has (fst kx) acc = false) ->
            List.fold_left (fun o kx => JSMap.set (fst kx) (snd kx) o)
                           members acc
            = (acc ++ members)%list).
  { induction members as [|[k x] r IH]; intros acc Hacc; simpl.
    - now rewrite List.app_nil_r.
    - cbn [distinct_names] in Hd. apply andb_true_iff in Hd.
      destruct Hd as [Hk Hr]. apply negb_true_iff in Hk.
      rewrite JSMap_set_absent by (apply (Hacc (k, x)); now left).
      rewrite IH; auto.
      + now rewrite <- List.app_assoc.
      + intros [k' x'] Hin. rewrite JSMap_has_app.
        rewrite (Hacc (k', x')) by now right. cbn [orb fst].
        unfold JSMap.has. simpl.
        destruct (String.eqb_spec k' k) as [->|Hne]; [|reflexivity].
        exfalso. apply (in_map fst) in Hin. cbn [fst] in Hin.
        apply JSMap_has_keys in Hin. congruence. }
  apply (H []). reflexivity.
Qed.

Lemma internalize_elements xs ws :
  Forall2 reads xs ws ->
  forall i,
    (fix each (i : Z) (l : list any) : list any :=
       match l with
       | [] => []
       | x :: r =>
           internalize Serialization.reviver (Number_toString i) x
           :: each (i + 1)%Z r
       end) i ws = xs.
Proof.
  induction 1 as [|x w xs ws [Hx _] Hrest IH]; intros i; [reflexivity|].
  now rewrite Hx, IH.
Qed.

Lemma internalize_members kxs ws :
  Forall2 (fun kx w => startsWith (fst kx) ":" = false /\ reads (snd kx) w)
          kxs ws ->
  List.map (fun kx => (fst kx, internalize Serialization.reviver (fst kx) (snd kx)))
           (List.combine (List.map fst kxs) ws)
  = kxs.
Proof.
  induction 1 as [|[k x] w kxs ws [_ [Hx _]] Hrest IH]; [reflexivity|].
  cbn [List.map List.combine fst snd]. now rewrite Hx, IH.
Qed.

Lemma combine_keys {A B} (kxs : list (string * A)) (ws : list B) :
  List.length kxs = List.length ws ->
  List.map fst (List.combine (List.map fst kxs) ws) = List.map fst kxs.
Proof.
  revert ws. induction kxs as [|[k x] r IH]; intros [|w ws]; simpl;
    try discriminate; [reflexivity|].
  intros [= H]. now rewrite IH.
Qed.

Lemma distinct_names_same_keys :
  forall (m1 : list (string * any)) (m2 : list (string * any)),
    List.map fst m1 = List.map fst m2 ->
    distinct_names m1 = distinct_names m2.
Proof.
  induction m1 as [|[k1 x1] r1 IH]; intros [|[k2 x2] r2]; simpl;
    try discriminate; [reflexivity|].
  intros [= -> Hr]. rewrite (IH r2 Hr).
  now rewrite (JSMap_has_same_keys k2 r1 r2 Hr).
Qed.

Lemma span_digits_uint u rest :
  ends_number rest = true ->
  span_digits (NilEmpty.string_of_uint u ++ rest)
  = (NilEmpty.string_of_uint u, rest).
Proof.
  intros Hrest.
  induction u; cbn [NilEmpty.string_of_uint append span_digits];
    try (change (is_digit "0") with true; change (is_digit "1") with true;
         change (is_digit "2") with true; change (is_digit "3") with true;
         change (is_digit "4") with true; change (is_digit "5") with true;
         change (is_digit "6") with true; change (is_digit "7") with true;
         change (is_digit "8") with true; change (is_digit "9") with true;
         cbv iota; now rewrite IHu).
  destruct rest as [|c r]; [reflexivity|].
  cbn [span_digits]. cbn [ends_number] in Hrest.
  apply andb_true_iff in Hrest. destruct Hrest as [Hd _].
  apply negb_true_iff in Hd. now rewrite Hd.
Qed.

(** The decimal digits of a positive number do not begin with [0]. *)
Lemma to_uint_no_leading_zero p d : Pos.to_uint p <> D0 d.
Proof.
  intros H.
  pose proof (DecimalPos.Unsigned.to_of (Pos.to_uint p)) as Hn.
  rewrite DecimalPos.Unsigned.of_to in Hn. simpl in Hn.
  pose proof (DecimalPos.Unsigned.to_uint_nonzero p) as Hnz.
  assert (Hh : nzhead (Pos.to_uint p) <> Nil).
  { intros Hnil. apply Hnz. rewrite Hn. now apply unorm_0. }
  rewrite (unorm_nzhead _ Hh) in Hn.
  apply (nzhead_nonzero (Pos.to_uint p) d). now rewrite <- Hn.
Qed.

Lemma parse_digits p rest (negative : bool) :
  ends_number rest = true ->
  (let '(ds, rest') := span_digits (NilEmpty.string_of_uint (Pos.to_uint p) ++ rest) in
   match ds with
   | EmptyString => None
   | String d ds' =>
        if (d =? "0")%char && negb (String.eqb ds' EmptyString) then None
        else if starts_fraction rest' then None
        else
          match NilEmpty.uint_of_string ds with
          | Some u =>
              let n := Z.of_N (N.of_uint u) in
              Some (VNumber (if negative then (- n)%Z else n), rest')
          | None => None
          end
   end) = Some (VNumber (if negative then Z.neg p else Z.pos p), rest).
Proof.
  intros Hrest. rewrite span_digits_uint by assumption.
  pose proof (to_uint_no_leading_zero p) as Hlz.
  pose proof (DecimalPos.Unsigned.to_uint_nonnil p) as Hnn.
  pose proof (NilEmpty.usu (Pos.to_uint p)) as Husu.
  pose proof (DecimalPos.Unsigned.of_to p) as Hof.
  assert (Hfrac : starts_fraction rest = false).
  { destruct rest as [|c r]; [reflexivity|]. cbn [ends_number] in Hrest.
    apply andb_true_iff in Hrest. now apply negb_true_iff. }
  destruct (Pos.to_uint p) as [|u|u|u|u|u|u|u|u|u|u] eqn:Hu;
    [contradiction | exfalso; now apply (Hlz u) | ..];
    cbn [NilEmpty.string_of_uint]; cbn [NilEmpty.string_of_uint] in Husu;
    (match goal with |- context [(?c =? "0")%char] => change ((c =? "0")%char) with false end);
    cbn [andb]; rewrite Hfrac, Husu; unfold N.of_uint; rewrite Hof;
    destruct negative; reflexivity.
Qed.

(** [parse_number] reads back the decimal text of an integer. *)
Lemma parse_number_toString n rest :
  ends_number rest = true ->
  parse_number (Number_toString n ++ rest) = Some (VNumber n, rest).
Proof.
  intros Hrest. unfold Number_toString, parse_number.
  destruct n as [|p|p]; cbn [Z.to_int NilZero.string_of_int].
  - cbn. destruct rest as [|c r]; [reflexivity|].
    cbn [ends_number] in Hrest. apply andb_true_iff in Hrest.
    destruct Hrest as [Hd Hf]. apply negb_true_iff in Hd, Hf.
    cbn [span_digits]. rewrite Hd. cbn. cbn in Hf. now rewrite Hf.
  - unfold NilZero.string_of_uint.
    pose proof (DecimalPos.Unsigned.to_uint_nonnil p) as Hnn.
    pose proof (parse_digits p rest false Hrest) as H.
    destruct (Pos.to_uint p) eqn:Hu; [contradiction | ..];
      cbn [NilEmpty.string_of_uint append] in *;
      (match goal with |- context [(?c =? "-")%char] => change ((c =? "-")%char) with false end);
      cbv iota; exact H.
  - unfold NilZero.string_of_uint.
    pose proof (DecimalPos.Unsigned.to_uint_nonnil p) as Hnn.
    pose proof (parse_digits p rest true Hrest) as H.
    cbn [append]. change (("-" =? "-")%char) with true. cbv iota.
    destruct (Pos.to_uint p) eqn:Hu; [contradiction | ..]; exact H.
Qed.

Lemma Forall_exists_Forall2 {A B} (R : A -> B -> Prop) (xs : list A) :
  Forall (fun x => exists w, R x w) xs -> exists ws, Forall2 R xs ws.
Proof.
  induction 1 as [|x r [w Hw] Hr [ws IH]].
  - exists []. constructor.
  - exists (w :: ws). now constructor.
Qed.

(** The parser reads back the text of every [plain] value, and the reviver
    undoes the escapes and the blob tags in what it read. *)
Lemma plain_reads x : plain x = true -> exists w, reads x w.
Proof.
  induction x as [| |b|n|s|bytes|items IH|props IH] using any_induction;
    intros Hplain.
  - discriminate.
  - exists VNull. split; [reflexivity|].
    intros [|f] rest Hfuel Hrest; [cbn in Hfuel; lia | reflexivity].
  - exists (VBoolean b). split; [reflexivity|].
    intros [|f] rest Hfuel Hrest; [destruct b; cbn in Hfuel; lia|].
    destruct b; reflexivity.
  - exists (VNumber n). split; [reflexivity|].
    intros fuel rest Hfuel Hrest.
    destruct (print_head (VNumber n) eq_refl) as (c & s & Htext & Hc).
    destruct fuel as [|f]; [rewrite Htext in Hfuel; cbn in Hfuel; lia|].
    assert (Hnum : print (VNumber n) = Number_toString n) by reflexivity.
    rewrite Hnum in *.
    assert (Hhead : is_digit c || (c =? "-")%char = true).
    { clear - Htext. unfold Number_toString in Htext.
      destruct n as [|p|p]; cbn [Z.to_int NilZero.string_of_int] in Htext.
      - injection Htext as <- _. reflexivity.
      - unfold NilZero.string_of_uint in Htext.
        pose proof (DecimalPos.Unsigned.to_uint_nonnil p) as Hnn.
        destruct (Pos.to_uint p); [contradiction | ..];
          injection Htext as <- _; reflexivity.
      - injection Htext as <- _. reflexivity. }
    rewrite Htext. cbn [append].
    rewrite parse_value_number_head by assumption.
    change (String c (s ++ rest)) with (String c s ++ rest).
    rewrite <- Htext. apply parse_number_toString.
    now apply follows_ends_number.
  - exists (VString (if startsWith s ":" then ":" ++ s else s)). split.
    + intros name. apply reviver_serializeString.
    + intros [|f] rest Hfuel Hrest; [cbn in Hfuel; lia|].
      cbn [SerializationWalk.defaultSerialize].
      unfold SerializationWalk.serializeString, Serialization.serializeString,
        QuoteJSONString.
      cbn [append]. rewrite parse_value_string, string_append_assoc.
      cbn [append]. now rewrite parse_quote_chars.
  - exists (VString (":base64:" ++ toString_base64 bytes)). split.
    + intros name. apply reviver_serializeBuffer.
    + intros [|f] rest Hfuel Hrest; [cbn in Hfuel; lia|].
      cbn [SerializationWalk.defaultSerialize].
      unfold SerializationWalk.serializeBuffer, Serialization.serializeBuffer,
        QuoteJSONString.
      cbn [append]. rewrite parse_value_string, string_append_assoc.
      cbn [append]. now rewrite parse_quote_chars.
  - cbn [plain] in Hplain. rewrite forallb_forall in Hplain.
    assert (Hall : Forall (fun x => exists w, reads x w) items).
    { apply Forall_forall. intros x Hin.
      rewrite Forall_forall in IH. apply (IH x Hin). now apply Hplain. }
    destruct (Forall_exists_Forall2 _ _ Hall) as [ws Hws].
    exists (VArray ws). split.
    + intros name. cbn [internalize]. 
      rewrite (internalize_elements items ws Hws). reflexivity.
    + intros fuel rest Hfuel Hrest. rewrite serialize_array in *.
      destruct fuel as [|f]; [cbn in Hfuel; lia|].
      cbn [append]. rewrite parse_value_array.
      destruct Hws as [|x w xs ws Hx Hxs].
      * reflexivity.
      * cbn [List.map joined SerializationWalk.comma append] in *.
        destruct (print_head x) as (c & s & Htext & Hc).
        { apply Hplain. now left. }
        destruct (starts_value_facts c Hc) as (Hws & Hclose & _).
        rewrite Htext at 1. cbn [append skip_ws]. rewrite Hws, Hclose.
        rewrite !string_append_assoc. cbn [append].
        rewrite (parse_elements_reads xs ws Hxs x w Hx); [reflexivity|].
        cbn [String.length] in Hfuel.
        rewrite !string_length_append in *. cbn [String.length] in Hfuel. lia.
  - destruct (plain_object props Hplain) as [Hprops Hdistinct].
    assert (Hall : Forall (fun kx => exists w,
                     startsWith (fst kx) ":" = false /\ reads (snd kx) w) props).
    { rewrite Forall_forall in *. intros kx Hin.
      destruct (Hprops kx Hin) as [Hk Hp].
      destruct (IH kx Hin Hp) as [w Hw]. eauto. }
    destruct (Forall_exists_Forall2 _ _ Hall) as [ws Hws].
    assert (Hlen : List.length props = List.length ws)
      by (eapply Forall2_length; eauto).
    exists (VObject (List.combine (List.map fst props) ws)). split.
    + intros name. cbn [internalize].
      rewrite (internalize_members props ws Hws). reflexivity.
    + intros fuel rest Hfuel Hrest.
      rewrite serialize_object in * by now apply plain_object_defined.
      destruct fuel as [|f]; [cbn in Hfuel; lia|].
      cbn [append]. rewrite parse_value_object.
      destruct Hws as [|[k x] w kxs ws [Hk Hx] Hxs].
      * reflexivity.
      * cbn [List.map joined SerializationWalk.comma append fst] in *.
        rewrite !string_append_assoc.
        rewrite (member_text_unfold k x) at 1 by assumption.
        cbn [skip_ws]. change (is_ws dquote) with false. cbv iota.
        change ((dquote =? "}")%char) with false. cbv iota.
        cbn [append].
        rewrite (parse_members_reads kxs ws Hxs k x w Hk Hx).
        -- rewrite object_of_distinct; [reflexivity|].
           rewrite <- Hdistinct.
           apply (distinct_names_same_keys ((k, w) :: combine (map fst kxs) ws)
                                           ((k, x) :: kxs)).
           cbn [List.map fst]. f_equal. apply combine_keys.
           simpl in Hlen. lia.
        -- cbn [String.length] in Hfuel.
           rewrite !string_length_append in *. cbn [String.length] in Hfuel.
           lia.
Qed.

(** [JSON.parse] with the reviver reads back what the walking revision
    prints for a [plain] value. *)
Lemma parse_print v :
  plain v = true -> JSON_parse (print v) Serialization.reviver = Returned v.
Proof.
  intros Hplain. destruct (plain_reads v Hplain) as (w & Hrev & Hparse).
  unfold JSON_parse.
  specialize (Hparse (2 * String.length (print v) + 2)%nat EmptyString).
  rewrite string_append_nil_r in Hparse.
  rewrite Hparse by (reflexivity || lia).
  cbn [skip_ws]. now rewrite Hrev.
Qed.


Lemma concat_joined texts : String.concat "," texts = joined true texts.
Proof.
  destruct texts as [|t r]; [reflexivity|].
  cbn [joined SerializationWalk.comma append]. revert t.
  induction r as [|t2 r IH]; intros t.
  - cbn. now rewrite string_append_nil_r.
  - change (String.concat "," (t :: t2 :: r))
      with (t ++ "," ++ String.concat "," (t2 :: r)).
    rewrite IH. reflexivity.
Qed.

(** On values without blobs and marked strings [JSON.stringify] prints what
    the walking revision prints. *)
Lemma stringify_walk v :
  plain v = true -> unmarked v = true ->
  SerializeJSONProperty v = Some (print v).
Proof.
  induction v as [| |b|n|s|bytes|items IH|props IH] using any_induction;
    intros Hplain Hun; try discriminate; try reflexivity.
  - cbn [unmarked] in Hun. apply negb_true_iff in Hun.
    cbn [SerializeJSONProperty SerializationWalk.defaultSerialize].
    unfold SerializationWalk.serializeString, Serialization.serializeString.
    now rewrite Hun.
  - rewrite serialize_array. cbn [SerializeJSONProperty].
    cbn [plain unmarked] in *. rewrite forallb_forall in Hplain, Hun.
    do 2 f_equal. rewrite concat_joined. do 2 f_equal.
    apply map_ext_in. intros x Hin.
    rewrite Forall_forall in IH. now rewrite (IH x Hin) by auto.
  - rewrite serialize_object by now apply plain_object_defined.
    destruct (plain_object props Hplain) as [Hprops _].
    cbn [SerializeJSONProperty]. cbn [unmarked] in Hun.
    rewrite forallb_forall in Hun.
    do 2 f_equal. rewrite concat_joined. do 2 f_equal.
    clear Hplain. revert IH Hun Hprops.
    induction props as [|[k x] r IHr]; intros IH Hun Hprops; [reflexivity|].
    inversion IH as [|? ? Hx Hr]; subst.
    inversion Hprops as [|? ? [Hk Hp] Hps]; subst.
    cbn [fst snd] in Hx, Hk, Hp.
    assert (Hux : unmarked x = true) by (apply (Hun (k, x)); now left).
    cbn [flat_map List.map]. cbn [fst snd]. rewrite (Hx Hp Hux).
    cbn [List.app]. unfold member_text at 1. cbn [fst snd].
    rewrite serializeString_plain_key by assumption.
    f_equal. apply IHr; auto. intros kx Hin. apply Hun. now right.
Qed.

(** On a [plain] value that is a string or a blob itself, or has no blob
    and no marked string in it, the two revisions print the same text. *)
Lemma concise_prints_walk v :
  plain v = true ->
  (unmarked v = true \/ (exists s, v = VString s) \/ (exists b, v = VBuffer b)) ->
  Serialization.defaultSerialize v = print v.
Proof.
  intros Hplain [Hun|[[s ->]|[b ->]]]; [|reflexivity|reflexivity].
  destruct v; try reflexivity; try discriminate;
    unfold Serialization.defaultSerialize, JSON_stringify;
    now rewrite stringify_walk.
Qed.


End CodecFacts.

(* ================================================================== *)
(** * The codec and the adapter together *)

Section DefaultCodec.
Import JS.
Import MemoryAdapter.

(** C9.  Both revisions of [defaultSerialize] answer [undefined] with the
    text [null], the encoding of [null], and [defaultDeserialize] reads
    that text as [null].  So an adapter with the default codec stores an
    [undefined] value without an error, as the entry ["null"], whenever
    the capacity check lets the key in, and a [get] of the unexpired entry
    returns [null]. *)
Theorem C9_undefined_is_stored_as_null :
  Serialization.defaultSerialize VUndefined = "null"
  /\ Serialization.defaultSerialize VUndefined
     = Serialization.defaultSerialize VNull
  /\ SerializationWalk.defaultSerialize VUndefined = "null"
  /\ SerializationWalk.defaultSerialize VUndefined
     = SerializationWalk.defaultSerialize VNull
  /\ Serialization.defaultDeserialize "null" = Returned VNull
  /\ (forall (st : MemoryAdapter.t any) now key ttl,
        serialization (options st) = Serialization.defaultAdapter ->
        JSMap.has key (store st) = true
        \/ JSMap.size (store st) < maxKeys (options st) ->
        exists st' entry,
          set now key VUndefined ttl st = (Returned tt, st')
          /\ JSMap.get key (store st') = Some entry
          /\ value entry = "null"
          /\ forall now',
              isExpired now' entry = false ->
              fst (get now' key st') = Returned (Some VNull)).
Proof.
  repeat (split; [reflexivity|]).
  intros st now key ttl Hcodec Hroom.
  assert (Hchk : negb (JSMap.has key (store st))
                 && (JSMap.size (store st) >=? maxKeys (options st))
                 = false).
  { destruct Hroom as [->|Hlt]; [reflexivity|].
    apply andb_false_iff. right. rewrite Z.geb_leb. now apply Z.leb_gt. }
  rewrite set_admitted by assumption. rewrite Hcodec. simpl.
  do 2 eexists. split; [reflexivity|]. simpl.
  split; [apply JSMap_get_set_same|]. split; [reflexivity|].
  intros now' Hlive. unfold get. simpl.
  rewrite JSMap_get_set_same, Hlive, Hcodec. reflexivity.
Qed.

(** C1, evaluated.  The concise revision returns the array [[":a"]] as
    [["a"]] and a [Buffer] inside an object as the plain object its
    [toJSON] gives; the revision that walks objects returns the object
    [{":k": 1}] with the key ["::k"]. *)
Theorem C1_round_trip_breaks_below_top_level :
  Serialization.defaultDeserialize
    (Serialization.defaultSerialize (VArray [VString ":a"]))
  = Returned (VArray [VString "a"])
  /\ Serialization.defaultDeserialize
       (Serialization.defaultSerialize
          (VObject [("b", VBuffer [Byte.x00; Byte.xff])]))
     = Returned
         (VObject
            [("b", VObject [("type", VString "Buffer");
                            ("data", VArray [VNumber 0; VNumber 255])])])
  /\ SerializationWalk.defaultDeserialize
       (SerializationWalk.defaultSerialize (VObject [(":k", VNumber 1)]))
     = Returned (VObject [("::k", VNumber 1)]).
Proof. repeat split; vm_compute; reflexivity. Qed.

(** C5, evaluated.  After [set('key1', 'value1')] and
    [set('temp', 'value', 50)], a hundred milliseconds later and with no
    sweep in between, [keys()] of the final adapter still lists [temp],
    whose entry [exists] and [cleanup] count as expired. *)
Theorem C5_keys_lists_expired_key :
  keys Examples.keyAndTemp = ["key1"; "temp"]
  /\ option_map expires (JSMap.get "temp" (store Examples.keyAndTemp))
     = Some (Some (Examples.t0 + 50))
  /\ fst (exists_ (Examples.t0 + 100) "temp" Examples.keyAndTemp) = false
  /\ fst (cleanup (Examples.t0 + 100) Examples.keyAndTemp) = 1
  /\ keys (snd (cleanup (Examples.t0 + 100) Examples.keyAndTemp))
     = ["key1"].
Proof. repeat split; vm_compute; reflexivity. Qed.

End DefaultCodec.

(* ================================================================== *)
(** * The contract at concrete adapters *)

Section Instances.
Import JS.
Import MemoryAdapter.
Import Examples.

Local Ltac distinct_keys :=
  unfold JSMap.wf; vm_compute;
  repeat (constructor; [simpl; intuition discriminate|]);
  constructor.

Lemma C2_witness :
  JSMap.size (store (snd (set t0 "key1" (VString "again") None full))) <= 1
  /\ set t0 "key2" (VString "value2") None full
     = (Thrown (mkError "[MemoryAdapter] Maximum keys limit (1) reached"),
        full)
  /\ exists st',
      set t0 "key1" (VString "again") None full = (Returned tt, st')
      /\ JSMap.get "key1" (store st')
         = Some {| value := Serialization.defaultSerialize (VString "again");
                   expires := None |}
      /\ JSMap.size (store st') = 1.
Proof.
  destruct (C2_capacity_invariant full t0 "key1" (VString "again") None)
    as (Hbound & _ & Hover).
  destruct (C2_capacity_invariant full t0 "key2" (VString "value2") None)
    as (_ & Hfull & _).
  split; [|split].
  - apply (Hbound smallConfig).
    + apply (reachable_history smallConfig
               [CSet t0 "key1" (VString "value1") None]).
    + vm_compute. reflexivity.
  - apply Hfull; [reflexivity | vm_compute; discriminate].
  - apply (Hover eq_refl (Serialization.defaultSerialize (VString "again"))
                 eq_refl).
Defined.

(** The entry of [temp] expired fifty milliseconds ago: [get] returns
    [null], removes it and counts it as expired, and [misses] is what it
    was. *)
Lemma C3_counterexample :
  option_map expires (JSMap.get "temp" (store onlyTemp))
  = Some (Some (t0 + 50))
  /\ t0 + 50 < t0 + 100
  /\ fst (get (t0 + 100) "temp" onlyTemp) = Returned None
  /\ JSMap.get "temp" (store (snd (get (t0 + 100) "temp" onlyTemp))) = None
  /\ Stats.expired (stats (snd (get (t0 + 100) "temp" onlyTemp)))
     = Stats.expired (stats onlyTemp) + 1
  /\ Stats.misses (stats (snd (get (t0 + 100) "temp" onlyTemp)))
     <> Stats.misses (stats onlyTemp) + 1.
Proof.
  repeat split; try (vm_compute; reflexivity).
  vm_compute. discriminate.
Qed.

Lemma C3_witness :
  (exists st',
     get (t0 + 100) "temp" onlyTemp = (Returned None, st')
     /\ store st' = JSMap.delete "temp" (store onlyTemp)
     /\ JSMap.get "temp" (store st') = None
     /\ Stats.expired (stats st') = Stats.expired (stats onlyTemp) + 1
     /\ Stats.misses (stats st') = Stats.misses (stats onlyTemp)
     /\ Stats.hits (stats st') = Stats.hits (stats onlyTemp))
  /\ fst (get (t0 + 10) "temp" onlyTemp) = Returned (Some (VString "value"))
  /\ Stats.hits (stats (snd (get (t0 + 10) "temp" onlyTemp))) = 1
  /\ Stats.misses (stats (snd (get t0 "other" onlyTemp))) = 1.
Proof.
  destruct (C3_get_accounting onlyTemp (t0 + 100) "temp")
    as (Hexpired & _ & _).
  destruct (C3_get_accounting onlyTemp (t0 + 10) "temp")
    as (_ & Hhit & _).
  destruct (C3_get_accounting onlyTemp t0 "other") as (_ & _ & Hmiss).
  split; [|split; [|split]].
  - apply (Hexpired
             {| value := Serialization.defaultSerialize (VString "value");
                expires := Some (t0 + 50) |} (t0 + 50)).
    + distinct_keys.
    + reflexivity.
    + reflexivity.
    + vm_compute. discriminate.
    + vm_compute. reflexivity.
  - destruct (Hhit {| value := Serialization.defaultSerialize
                                 (VString "value");
                      expires := Some (t0 + 50) |} eq_refl eq_refl)
      as (st' & _ & Hfst & _).
    rewrite Hfst. vm_compute. reflexivity.
  - destruct (Hhit {| value := Serialization.defaultSerialize
                                 (VString "value");
                      expires := Some (t0 + 50) |} eq_refl eq_refl)
      as (st' & Hsnd & _ & _ & Hhits & _).
    rewrite Hsnd, Hhits. reflexivity.
  - destruct (Hmiss eq_refl) as (st' & Hget & _ & Hmisses & _).
    rewrite Hget. simpl. rewrite Hmisses. reflexivity.
Defined.

Lemma C4_witness :
  (exists entry,
     JSMap.get "temp"
       (store (snd (set t0 "temp" (VString "value") (Some 100)
                        (create ttlConfig))))
     = Some entry
     /\ expires entry = Some (t0 + 100))
  /\ (exists entry,
        JSMap.get "demo:temp"
          (store (KeyValue.adapter
                    (snd (KeyValue.set t0 "temp" (VString "value") None
                                       facade))))
        = Some entry
        /\ expires entry = Some (t0 + 5000)).
Proof.
  destruct C4_ttl_selection as [Hadapter Hfacade].
  split.
  - destruct (Hadapter any (create ttlConfig)
                (snd (set t0 "temp" (VString "value") (Some 100)
                          (create ttlConfig)))
                t0 "temp" (VString "value") (Some 100) eq_refl)
      as (entry & Hget & Hpos & _).
    exists entry. split; [exact Hget|].
    apply (Hpos 100 eq_refl). lia.
  - destruct (Hfacade facade
                (snd (KeyValue.set t0 "temp" (VString "value") None facade))
                t0 "temp" (VString "value") None eq_refl)
      as (entry & Hget & _ & Hnone & _).
    exists entry. split; [exact Hget|].
    apply (Hnone eq_refl).
Defined.

Lemma C6_witness :
  mset (fun _ => t0)
       [("key1", VString "value1"); ("key2", VString "value2");
        ("key3", VString "value3")]
       None (create smallConfig)
  = (Thrown (mkError "[MemoryAdapter] Maximum keys limit (1) reached"),
     full)
  /\ JSMap.has "key1" (store full) = true.
Proof.
  destruct (C6_mset_stops_at_first_failure (V := any)
              (fun _ => t0) [("key1", VString "value1")]
              [("key3", VString "value3")] "key2" (VString "value2")
              None (create smallConfig) full full
              (mkError "[MemoryAdapter] Maximum keys limit (1) reached")
              eq_refl eq_refl)
    as (Hthrow & _ & Hcommitted).
  split.
  - exact Hthrow.
  - apply (Hcommitted "key1" (VString "value1")). now left.
Defined.

(** The entry of [k], written by [set('k', 'v', -t0)] at clock reading
    [t0], has the expiry timestamp [0]; that moment has passed, and the
    sweep removes nothing. *)
Lemma C8_counterexample :
  reachable testConfig zeroExpiry
  /\ option_map expires (JSMap.get "k" (store zeroExpiry)) = Some (Some 0)
  /\ 0 < t0 + 1
  /\ fst (cleanup (t0 + 1) zeroExpiry) = 0
  /\ option_map expires
       (JSMap.get "k" (store (snd (cleanup (t0 + 1) zeroExpiry))))
     = Some (Some 0).
Proof.
  split; [apply reachable_history|].
  repeat split; vm_compute; reflexivity.
Qed.

Lemma C8_witness :
  exists cleaned st',
    cleanup (t0 + 100) keyAndTemp = (cleaned, st')
    /\ store st' = List.filter (live (t0 + 100)) (store keyAndTemp)
    /\ cleaned = 1
    /\ MemoryAdapter.keys st' = ["key1"].
Proof.
  assert (Hwf : JSMap.wf (store keyAndTemp)) by distinct_keys.
  destruct (C8_cleanup_sweeps_expired keyAndTemp (t0 + 100) Hwf)
    as (cleaned & st' & Hrun & Hstore & _ & Hcount & _).
  exists cleaned, st'. split; [exact Hrun|]. split; [exact Hstore|].
  split.
  - rewrite Hcount, Hstore. vm_compute. reflexivity.
  - unfold MemoryAdapter.keys. rewrite Hstore. vm_compute. reflexivity.
Defined.

Lemma C9_witness :
  exists st' entry,
    set t0 "u" VUndefined None (create testConfig) = (Returned tt, st')
    /\ JSMap.get "u" (store st') = Some entry
    /\ value entry = "null"
    /\ fst (get (t0 + 1) "u" st') = Returned (Some VNull).
Proof.
  destruct C9_undefined_is_stored_as_null as (_ & _ & _ & _ & _ & Hstore).
  destruct (Hstore (create testConfig) t0 "u" None eq_refl)
    as (st' & entry & Hset & Hget & Hval & Hread).
  - right. vm_compute. reflexivity.
  - exists st', entry. repeat split; try assumption.
    apply Hread.
    assert (Hentry : Some entry = Some {| value := "null"; expires := None |}).
    { rewrite <- Hget.
      assert (Hst : st' = snd (set t0 "u" VUndefined None (create testConfig)))
        by now rewrite Hset.
      rewrite Hst. vm_compute. reflexivity. }
    injection Hentry as ->. reflexivity.
Defined.

(** [set('k', 'v', -t0)] at clock reading [t0] has a strictly negative
    TTL, and the entry it writes is observed by every later [get] and
    [exists]; nothing is evicted and [expired] stays [0]. *)
Lemma C10_counterexample :
  - t0 < 0
  /\ set t0 "k" (VString "v") (Some (- t0)) (create testConfig)
     = (Returned tt, zeroExpiry)
  /\ fst (get (t0 + 1000) "k" zeroExpiry) = Returned (Some (VString "v"))
  /\ fst (exists_ (t0 + 1000) "k" zeroExpiry) = true
  /\ JSMap.has "k" (store (snd (get (t0 + 1000) "k" zeroExpiry))) = true
  /\ Stats.expired (stats (snd (get (t0 + 1000) "k" zeroExpiry))) = 0
  /\ fst (run_probes "k" [PGet (t0 + 1000); PExists (t0 + 2000)] zeroExpiry)
     = [true; true].
Proof. repeat split; vm_compute; reflexivity. Qed.

Lemma C10_witness :
  option_map expires
    (JSMap.get "k"
       (store (snd (set t0 "k" (VString "v") (Some (-5))
                        (create testConfig)))))
  = Some (Some (t0 + -5))
  /\ Forall (fun seen => seen = false)
       (fst (run_probes "k" [PGet t0; PExists (t0 + 7); PGet (t0 + 9)]
               (snd (set t0 "k" (VString "v") (Some (-5))
                         (create testConfig))))).
Proof.
  assert (Hwf : JSMap.wf (store (create testConfig))) by constructor.
  assert (Hneg : -5 < 0) by lia.
  assert (Hnz : t0 + -5 <> 0) by (vm_compute; discriminate).
  destruct (C10_negative_ttl_entry_is_hidden
              (create testConfig) t0 "k" (VString "v") (-5)
              (snd (set t0 "k" (VString "v") (Some (-5))
                        (create testConfig)))
              Hwf Hneg Hnz eq_refl)
    as (Hwritten & _ & _ & Hprobes).
  split; [exact Hwritten|].
  specialize (Hprobes [PGet t0; PExists (t0 + 7); PGet (t0 + 9)]).
  assert (Hlater : Forall (fun p => t0 <= probe_time p)
                     [PGet t0; PExists (t0 + 7); PGet (t0 + 9)]).
  { repeat constructor; simpl; unfold t0; lia. }
  exact (Hprobes Hlater).
Defined.

End Instances.

(* ================================================================== *)
(** * Further properties of the final [MemoryAdapter] *)

Section FinalAdapter.
Context {V : Type}.
Implicit Types (st : MemoryAdapter.t V) (key : string) (now : Z).
Import MemoryAdapter Observations.

Lemma get_live st now key entry :
  JSMap.get key (store st) = Some entry ->
  isExpired now entry = false ->
  get now key st
  = (decoded (serialization (options st)) (value entry),
     with_stats st (incr_hits (stats st))).
Proof.
  intros Hget Hlive. unfold get, decoded. rewrite Hget, Hlive.
  now destruct (deserialize _ _).
Qed.

Lemma get_expired st now key entry :
  JSMap.get key (store st) = Some entry ->
  isExpired now entry = true ->
  get now key st
  = (Returned None,
     updateStats (with_stats (with_store st (JSMap.delete key (store st)))
                             (incr_expired (stats st)))).
Proof. intros Hget Hexp. unfold get. now rewrite Hget, Hexp. Qed.

Lemma get_absent st now key :
  JSMap.get key (store st) = None ->
  get now key st = (Returned None, with_stats st (incr_misses (stats st))).
Proof. intros Hget. unfold get. now rewrite Hget. Qed.

Lemma isExpired_false now entry :
  isExpired now entry = false
  <-> match expires entry with
      | Some e => e = 0 \/ now <= e
      | None => True
      end.
Proof.
  unfold isExpired, truthy. destruct (expires entry) as [e|]; [|tauto].
  rewrite andb_false_iff, negb_false_iff, Z.eqb_eq.
  rewrite Z.gtb_ltb, Z.ltb_ge. tauto.
Qed.

(** X1. A value stored by [set] with a positive ttl is handed back by
    every [get] up to and including the instant [now + ttl]; the first
    [get] after that instant returns absent, removes the entry and counts
    one expiry, and every later [get] is a plain miss. *)
Theorem X1_ttl_window st now key (v : V) ttl st' text :
  0 < ttl -> now + ttl <> 0 ->
  JSMap.wf (store st) ->
  set now key v (Some ttl) st = (Returned tt, st') ->
  serialize (serialization (options st)) v = Returned text ->
  (forall now', now' <= now + ttl ->
     get now' key st'
     = (decoded (serialization (options st)) text,
        with_stats st' (incr_hits (stats st'))))
  /\ (forall now', now + ttl < now' ->
        exists st2,
          get now' key st' = (Returned None, st2)
          /\ JSMap.get key (store st2) = None
          /\ Stats.expired (stats st2) = Stats.expired (stats st') + 1
          /\ forall now'',
              exists st3,
                get now'' key st2 = (Returned None, st3)
                /\ Stats.expired (stats st3) = Stats.expired (stats st2)
                /\ Stats.misses (stats st3) = Stats.misses (stats st2) + 1).
Proof.
  intros Hpos Hnz Hwf Hset Hser.
  apply set_returned in Hset.
  destruct Hset as (_ & text' & Hser' & Hstore & Hopt).
  rewrite Hser in Hser'. injection Hser' as <-.
  assert (Hat : expiresAt now (effectiveTTL (Some ttl) st) = Some (now + ttl)).
  { unfold expiresAt, effectiveTTL, nullish, truthy.
    destruct (Z.eqb_spec ttl 0); [lia | reflexivity]. }
  rewrite Hat in Hstore.
  assert (Hget : JSMap.get key (store st')
                 = Some {| value := text; expires := Some (now + ttl) |}).
  { rewrite Hstore. apply JSMap_get_set_same. }
  assert (Hwf' : JSMap.wf (store st')).
  { rewrite Hstore. now apply JSMap_wf_set. }
  split.
  - intros now' Hle. rewrite (get_live _ _ _ _ Hget).
    + now rewrite Hopt.
    + apply isExpired_false. simpl. now right.
  - intros now' Hlt. rewrite (get_expired _ _ _ _ Hget).
    + eexists. split; [reflexivity|]. simpl.
      split; [now apply JSMap_get_delete_same|]. split; [reflexivity|].
      intros now''. rewrite get_absent.
      * eexists. split; [reflexivity|]. simpl. split; reflexivity.
      * simpl. now apply JSMap_get_delete_same.
    + apply isExpired_true. exists (now + ttl). simpl. auto.
Qed.

(** X2. A value stored with ttl 0, or with no ttl on an adapter whose
    default ttl is 0, carries no expiry: [get] and [exists] find it at every
    later instant and no sweep removes it. *)
Theorem X2_no_ttl_never_expires st now key (v : V) ttl st' text :
  ttl = Some 0 \/ (ttl = None /\ defaultTTL (options st) = 0) ->
  JSMap.wf (store st) ->
  set now key v ttl st = (Returned tt, st') ->
  serialize (serialization (options st)) v = Returned text ->
  forall now',
    get now' key st'
    = (decoded (serialization (options st)) text,
       with_stats st' (incr_hits (stats st')))
    /\ exists_ now' key st' = (true, st')
    /\ JSMap.get key (store (snd (cleanup now' st')))
       = Some {| value := text; expires := None |}.
Proof.
  intros Httl Hwf Hset Hser now'.
  apply set_returned in Hset.
  destruct Hset as (_ & text' & Hser' & Hstore & Hopt).
  rewrite Hser in Hser'. injection Hser' as <-.
  assert (Hat : expiresAt now (effectiveTTL ttl st) = None).
  { destruct Httl as [-> | [-> Hd]]; [reflexivity|].
    unfold expiresAt, effectiveTTL, nullish, or_undefined, truthy.
    now rewrite Hd. }
  rewrite Hat in Hstore.
  assert (Hget : JSMap.get key (store st')
                 = Some {| value := text; expires := None |}).
  { rewrite Hstore. apply JSMap_get_set_same. }
  assert (Hwf' : JSMap.wf (store st')).
  { rewrite Hstore. now apply JSMap_wf_set. }
  split; [|split].
  - rewrite (get_live _ _ _ _ Hget) by reflexivity. now rewrite Hopt.
  - unfold exists_. now rewrite Hget.
  - rewrite cleanup_spec by assumption. simpl.
    rewrite get_filter by assumption. now rewrite Hget.
Qed.

(** X3. A [set] that returns touches one key only: every other entry is
    as before, the key list is unchanged on an overwrite and grows by the
    key at its end otherwise, and of the counters only [sets] moves, by
    one. *)
Theorem X3_set_touches_one_key st now key (v : V) ttl st' :
  set now key v ttl st = (Returned tt, st') ->
  (forall k', k' <> key ->
     JSMap.get k' (store st') = JSMap.get k' (store st))
  /\ keys st'
     = (if JSMap.has key (store st) then keys st
        else (keys st ++ [key])%list)
  /\ Stats.sets (stats st') = Stats.sets (stats st) + 1
  /\ Stats.hits (stats st') = Stats.hits (stats st)
  /\ Stats.misses (stats st') = Stats.misses (stats st)
  /\ Stats.deletes (stats st') = Stats.deletes (stats st)
  /\ Stats.expired (stats st') = Stats.expired (stats st).
Proof.
  intros Hset. pose proof Hset as Hret. apply set_returned in Hret.
  destruct Hret as (Hchk & text & Hser & Hstore & Hopt).
  split; [|split].
  - intros k' Hne. rewrite Hstore. now apply JSMap_get_set_other.
  - unfold keys. rewrite Hstore.
    destruct (JSMap.has key (store st)) eqn:Hhas.
    + now apply JSMap_keys_set_present.
    + now apply JSMap_keys_set_absent.
  - rewrite set_admitted in Hset by assumption. rewrite Hser in Hset.
    injection Hset as <-. simpl. repeat split.
Qed.

(** X4. [delete] answers whether the key was in the map; on an absent key
    it changes nothing, on a present one it removes that entry alone,
    counts one delete and refreshes the [keys] counter. *)
Theorem X4_delete st key :
  fst (delete key st) = JSMap.has key (store st)
  /\ (JSMap.has key (store st) = false -> snd (delete key st) = st)
  /\ (JSMap.has key (store st) = true ->
      JSMap.wf (store st) ->
      let st' := snd (delete key st) in
      JSMap.get key (store st') = None
      /\ (forall k', k' <> key ->
            JSMap.get k' (store st') = JSMap.get k' (store st))
      /\ JSMap.size (store st') = JSMap.size (store st) - 1
      /\ Stats.deletes (stats st') = Stats.deletes (stats st) + 1
      /\ Stats.keys (stats st') = JSMap.size (store st')).
Proof.
  unfold delete. destruct (JSMap.has key (store st)) eqn:Hhas; simpl.
  - split; [reflexivity|]. split; [discriminate|]. intros _ Hwf.
    split; [now apply JSMap_get_delete_same|].
    split; [intros k' Hne; now apply JSMap_get_delete_other|].
    split; [now rewrite JSMap_size_delete, Hhas|]. split; reflexivity.
  - split; [reflexivity|]. split; [reflexivity | discriminate].
Qed.


(** The answer of [get], read off the map. *)
Lemma get_answer st now key :
  fst (get now key st)
  = match JSMap.get key (store st) with
    | None => Returned None
    | Some entry =>
        if isExpired now entry then Returned None
        else match deserialize (serialization (options st)) (value entry) with
             | Returned x => Returned (Some x)
             | Thrown e => Thrown e
             end
    end.
Proof.
  unfold get. destruct (JSMap.get key (store st)) as [entry|]; [|reflexivity].
  destruct (isExpired now entry); [reflexivity|].
  now destruct (deserialize _ _).
Qed.

Lemma get_keeps_answers st now key :
  JSMap.wf (store st) ->
  let st' := snd (get now key st) in
  JSMap.wf (store st')
  /\ options st' = options st
  /\ lookups (stats st') = lookups (stats st) + 1
  /\ forall k', fst (get now k' st') = fst (get now k' st).
Proof.
  intros Hwf.
  destruct (JSMap.get key (store st)) as [entry|] eqn:Hget.
  - destruct (isExpired now entry) eqn:Hexp.
    + rewrite (get_expired _ _ _ _ Hget Hexp). cbn [snd].
      split; [simpl; now apply JSMap_wf_delete|].
      split; [reflexivity|]. split; [unfold lookups; simpl; lia|].
      intros k'. rewrite !get_answer. simpl.
      destruct (String.eqb_spec k' key) as [->|Hne].
      * rewrite JSMap_get_delete_same by assumption.
        now rewrite Hget, Hexp.
      * now rewrite JSMap_get_delete_other.
    + rewrite (get_live _ _ _ _ Hget Hexp). cbn [snd].
      split; [exact Hwf|]. split; [reflexivity|].
      split; [unfold lookups; simpl; lia|].
      intros k'. now rewrite !get_answer.
  - rewrite (get_absent _ _ _ Hget). cbn [snd].
    split; [exact Hwf|]. split; [reflexivity|].
    split; [unfold lookups; simpl; lia|].
    intros k'. now rewrite !get_answer.
Qed.

(** X6. [mget] answers each key as a single [get] on the state before the
    call would have, duplicates included, and fails with the first failure;
    it counts one lookup per listed key. *)
Theorem X6_mget_pointwise st now ks :
  JSMap.wf (store st) ->
  fst (mget now ks st) = collect (List.map (fun k => fst (get now k st)) ks)
  /\ lookups (stats (snd (mget now ks st)))
     = lookups (stats st) + Z.of_nat (List.length ks).
Proof.
  intros Hwf.
  assert (H : forall st1,
            JSMap.wf (store st1) ->
            (forall k', fst (get now k' st1) = fst (get now k' st)) ->
            fst (mget now ks st1)
            = collect (List.map (fun k => fst (get now k st)) ks)
            /\ lookups (stats (snd (mget now ks st1)))
               = lookups (stats st1) + Z.of_nat (List.length ks)).
  { induction ks as [|k r IH]; intros st1 Hwf1 Hsame.
    - simpl. split; [reflexivity | lia].
    - cbn [mget List.map collect List.length].
      destruct (get_keeps_answers st1 now k Hwf1) as (Hwf2 & _ & Hcount & Hans).
      pose proof (Hsame k) as Hk.
      destruct (get now k st1) as [r1 st2]. cbn [fst snd] in *.
      destruct (IH st2 Hwf2) as [Hres Hcnt].
      { intros k'. now rewrite Hans. }
      destruct (mget now r st2) as [rs st3]. cbn [fst snd] in *.
      rewrite <- Hk, <- Hres. split; [reflexivity|].
      rewrite Hcnt, Hcount. lia. }
  apply H; auto.
Qed.

Lemma deleteMany_loop_true ks st :
  fst (deleteMany_loop ks true st) = true.
Proof.
  revert st. induction ks as [|k r IH]; intros st; [reflexivity|].
  cbn [deleteMany_loop]. destruct (delete k st) as [d st1].
  destruct d; apply IH.
Qed.

Lemma deleteMany_loop_spec ks :
  forall st b,
    JSMap.wf (store st) ->
    let st' := snd (deleteMany_loop ks b st) in
    fst (deleteMany_loop ks b st)
    = b || existsb (fun k => JSMap.has k (store st)) ks
    /\ JSMap.wf (store st')
    /\ (forall k, In k ks -> JSMap.get k (store st') = None)
    /\ (forall k, ~ In k ks -> JSMap.get k (store st') = JSMap.get k (store st))
    /\ Stats.deletes (stats st') - Stats.deletes (stats st)
       = JSMap.size (store st) - JSMap.size (store st').
Proof.
  induction ks as [|k r IH]; intros st b Hwf.
  - simpl. rewrite orb_false_r.
    split; [reflexivity|]. split; [exact Hwf|].
    split; [intros k []|]. split; [reflexivity | lia].
  - cbn [deleteMany_loop existsb].
    unfold delete.
    destruct (JSMap.has k (store st)) eqn:Hhas.
    + set (st1 := updateStats _).
      assert (Hwf1 : JSMap.wf (store st1)) by (simpl; now apply JSMap_wf_delete).
      destruct (IH st1 true Hwf1) as (_ & Hwf' & Hgone & Hkept & Hcount).
      split; [rewrite deleteMany_loop_true; now rewrite orb_true_r|].
      split; [exact Hwf'|]. split; [|split].
      * intros k' [<-|Hin]; [|now apply Hgone].
        destruct (in_dec String.string_dec k r) as [Hin|Hnin];
          [now apply Hgone|].
        rewrite Hkept by assumption. simpl.
        now apply JSMap_get_delete_same.
      * intros k' Hnin.
        rewrite Hkept by (intros H; apply Hnin; now right). simpl.
        apply JSMap_get_delete_other. intros ->. apply Hnin. now left.
      * assert (Hs : JSMap.size (store st1) = JSMap.size (store st) - 1)
          by (simpl; now rewrite JSMap_size_delete, Hhas).
        assert (Hd : Stats.deletes (stats st1) = Stats.deletes (stats st) + 1)
          by reflexivity.
        lia.
    + destruct (IH st b Hwf) as (Hres & Hwf' & Hgone & Hkept & Hcount).
      cbn [orb]. split; [destruct b; exact Hres|].
      split; [exact Hwf'|]. split; [|split].
      * intros k' [<-|Hin]; [|now apply Hgone].
        destruct (in_dec String.string_dec k r) as [Hin|Hnin];
          [now apply Hgone|].
        rewrite Hkept by assumption. now apply JSMap_has_false_get.
      * intros k' Hnin. apply Hkept. intros H. apply Hnin. now right.
      * exact Hcount.
Qed.

(** X7. [deleteMany] answers whether at least one listed key was present;
    afterwards no listed key is in the map, every other entry is as before,
    and [deletes] has grown by the number of entries removed. *)
Theorem X7_deleteMany st ks :
  JSMap.wf (store st) ->
  let st' := snd (deleteMany ks st) in
  fst (deleteMany ks st) = existsb (fun k => JSMap.has k (store st)) ks
  /\ (forall k, In k ks -> JSMap.get k (store st') = None)
  /\ (forall k, ~ In k ks -> JSMap.get k (store st') = JSMap.get k (store st))
  /\ Stats.deletes (stats st') - Stats.deletes (stats st)
     = JSMap.size (store st) - JSMap.size (store st').
Proof.
  intros Hwf. destruct (deleteMany_loop_spec ks st false Hwf)
    as (Hres & _ & Hgone & Hkept & Hcount).
  unfold deleteMany. cbn [orb] in Hres. auto.
Qed.


(** ** Statistics *)

Lemma memory_fold (m : JSMap.t StorageEntry) acc :
  List.fold_left
    (fun bytes (ke : string * StorageEntry) =>
       bytes + Z.of_nat (String.length (fst ke)) * 2
       + Z.of_nat (String.length (value (snd ke))) * 2 + 16) m acc
  = acc + List.fold_right (fun ke total => weight ke + total) 0 m.
Proof.
  revert acc. induction m as [|ke r IH]; intros acc; simpl; [lia|].
  rewrite IH. unfold weight. lia.
Qed.

Lemma memory_sum st :
  getMemoryUsage st
  = List.fold_right (fun ke total => weight ke + total) 0 (store st).
Proof. unfold getMemoryUsage, JSMap.entries. now rewrite memory_fold. Qed.

Lemma stats_current_updateStats st :
  0 <= Stats.hits (stats st) -> 0 <= Stats.misses (stats st) ->
  0 <= Stats.sets (stats st) -> 0 <= Stats.deletes (stats st) ->
  0 <= Stats.expired (stats st) ->
  stats_current (updateStats st).
Proof. intros. unfold stats_current. simpl. repeat split; auto. Qed.

Lemma cleanup_loop_counters now visit :
  forall cleaned st,
    let st' := snd (cleanup_loop now visit cleaned st) in
    Stats.hits (stats st') = Stats.hits (stats st)
    /\ Stats.misses (stats st') = Stats.misses (stats st)
    /\ Stats.sets (stats st') = Stats.sets (stats st)
    /\ Stats.deletes (stats st') = Stats.deletes (stats st)
    /\ Stats.expired (stats st) <= Stats.expired (stats st').
Proof.
  induction visit as [|[k e] r IH]; intros cleaned st.
  - simpl. repeat split; lia.
  - cbn [cleanup_loop]. destruct (isExpired now e).
    + set (st2 := with_stats _ _).
      destruct (IH (cleaned + 1) st2) as (H1 & H2 & H3 & H4 & H5).
      cbn zeta. rewrite H1, H2, H3, H4. simpl in H5 |- *.
      repeat split; lia.
    + apply IH.
Qed.

Lemma stats_current_run c st : stats_current st -> stats_current (run c st).
Proof.
  intros (Hk & Hm & H1 & H2 & H3 & H4 & H5).
  destruct c as [now key|now key v ttl|key|now key| |now| |]; cbn [run].
  - destruct (JSMap.get key (store st)) as [entry|] eqn:Hget.
    + destruct (isExpired now entry) eqn:Hexp.
      * rewrite (get_expired _ _ _ _ Hget Hexp). cbn [snd].
        apply stats_current_updateStats; simpl; lia.
      * rewrite (get_live _ _ _ _ Hget Hexp). cbn [snd].
        unfold stats_current. simpl. repeat split; auto; lia.
    + rewrite (get_absent _ _ _ Hget). cbn [snd].
      unfold stats_current. simpl. repeat split; auto; lia.
  - unfold set.
    destruct (negb (JSMap.has key (store st))
              && (JSMap.size (store st) >=? maxKeys (options st))).
    + cbn [snd]. unfold stats_current. repeat split; auto.
    + destruct (serialize _ _); cbn [snd].
      * apply stats_current_updateStats; simpl; lia.
      * unfold stats_current. repeat split; auto.
  - unfold delete. destruct (JSMap.has key (store st)); cbn [snd].
    + apply stats_current_updateStats; simpl; lia.
    + unfold stats_current. repeat split; auto.
  - unfold exists_. destruct (JSMap.get key (store st)) as [entry|].
    + destruct (isExpired now entry); cbn [snd].
      * apply stats_current_updateStats; simpl; lia.
      * unfold stats_current. repeat split; auto.
    + cbn [snd]. unfold stats_current. repeat split; auto.
  - unfold stats_current. simpl. repeat split; lia.
  - unfold cleanup, JSMap.entries.
    pose proof (cleanup_loop_counters now (store st) 0 st) as Hc.
    destruct (cleanup_loop now (store st) 0 st) as [n st1].
    cbn [snd] in *. destruct Hc as (G1 & G2 & G3 & G4 & G5).
    apply stats_current_updateStats; lia.
  - cbn [getStats snd]. apply stats_current_updateStats; lia.
  - unfold stats_current. simpl. repeat split; lia.
Qed.

(** X8. In every state reachable from the constructor the [keys] counter
    is the size of the map, the [memory] counter is what [getMemoryUsage]
    computes, and no event counter is negative. *)
Theorem X8_statistics_are_current config st :
  reachable config st ->
  Stats.keys (stats st) = JSMap.size (store st)
  /\ Stats.memory (stats st) = getMemoryUsage st
  /\ 0 <= Stats.hits (stats st) /\ 0 <= Stats.misses (stats st)
  /\ 0 <= Stats.sets (stats st) /\ 0 <= Stats.deletes (stats st)
  /\ 0 <= Stats.expired (stats st).
Proof.
  induction 1 as [|c st Hreach IH].
  - repeat split; simpl; lia.
  - now apply stats_current_run.
Qed.

Lemma sum_set_absent key entry (m : JSMap.t StorageEntry) :
  JSMap.has key m = false ->
  List.fold_right (fun ke total => weight ke + total) 0 (JSMap.set key entry m)
  = List.fold_right (fun ke total => weight ke + total) 0 m
    + weight (key, entry).
Proof.
  intros H. rewrite JSMap_set_absent by assumption.
  rewrite fold_right_app. simpl.
  generalize (weight (key, entry)). intros w.
  induction m as [|ke r IH]; simpl; [lia|].
  assert (Hr : JSMap.has key r = false \/ True) by tauto.
  clear H. rewrite <- Z.add_assoc. f_equal.
  clear IH Hr. induction r as [|ke' r' IH']; simpl; [lia|]. rewrite IH'. lia.
Qed.

Lemma sum_set_present key entry old (m : JSMap.t StorageEntry) :
  JSMap.get key m = Some old ->
  List.fold_right (fun ke total => weight ke + total) 0 (JSMap.set key entry m)
  = List.fold_right (fun ke total => weight ke + total) 0 m
    + weight (key, entry) - weight (key, old).
Proof.
  induction m as [|[k e] r IH]; simpl; [discriminate|].
  destruct (String.eqb_spec key k) as [->|Hne]; simpl.
  - intros [= ->]. lia.
  - intros H. rewrite (IH H). lia.
Qed.

Lemma sum_delete key old (m : JSMap.t StorageEntry) :
  JSMap.get key m = Some old ->
  List.fold_right (fun ke total => weight ke + total) 0 (JSMap.delete key m)
  = List.fold_right (fun ke total => weight ke + total) 0 m
    - weight (key, old).
Proof.
  induction m as [|[k e] r IH]; simpl; [discriminate|].
  destruct (String.eqb_spec key k) as [->|Hne]; simpl.
  - intros [= ->]. lia.
  - intros H. rewrite (IH H). lia.
Qed.

(** X9. [getMemoryUsage] charges at least sixteen bytes per entry; a
    [set] of a new key adds twice the lengths of key and stored text plus
    sixteen, an overwrite adds twice the difference of the stored texts, and
    a [delete] gives back what the entry was charged. *)
Theorem X9_memory_accounting st :
  16 * JSMap.size (store st) <= getMemoryUsage st
  /\ (forall now key (v : V) ttl st' text,
        set now key v ttl st = (Returned tt, st') ->
        serialize (serialization (options st)) v = Returned text ->
        getMemoryUsage st'
        = getMemoryUsage st
          + match JSMap.get key (store st) with
            | None => Z.of_nat (String.length key) * 2
                      + Z.of_nat (String.length text) * 2 + 16
            | Some old => Z.of_nat (String.length text) * 2
                          - Z.of_nat (String.length (value old)) * 2
            end)
  /\ (forall key old,
        JSMap.get key (store st) = Some old ->
        getMemoryUsage (snd (delete key st))
        = getMemoryUsage st
          - (Z.of_nat (String.length key) * 2
             + Z.of_nat (String.length (value old)) * 2 + 16)).
Proof.
  split; [|split].
  - rewrite memory_sum. unfold JSMap.size.
    induction (store st) as [|ke r IH]; [simpl; lia|].
    cbn [List.length fold_right]. unfold weight at 1. lia.
  - intros now key v ttl st' text Hset Hser.
    apply set_returned in Hset.
    destruct Hset as (_ & text' & Hser' & Hstore & _).
    rewrite Hser in Hser'. injection Hser' as <-.
    rewrite !memory_sum, Hstore.
    destruct (JSMap.get key (store st)) as [old|] eqn:Hget.
    + rewrite (sum_set_present _ _ old) by assumption.
      unfold weight. simpl. lia.
    + rewrite sum_set_absent by now apply JSMap_has_false_get.
      unfold weight. simpl. lia.
  - intros key old Hget. unfold delete.
    assert (Hhas : JSMap.has key (store st) = true)
      by (apply JSMap_has_get; eauto).
    rewrite Hhas. cbn [snd]. rewrite !memory_sum. simpl.
    rewrite (sum_delete _ old) by assumption. unfold weight. simpl. lia.
Qed.


(** ** The sweep and what [exists] and [keys] report *)

(** X10. After [cleanup] the key list holds exactly the keys for which
    [exists], asked at the same instant before the sweep, answers true. *)
Theorem X10_sweep_leaves_what_exists st now key :
  JSMap.wf (store st) ->
  In key (keys (snd (cleanup now st))) <-> fst (exists_ now key st) = true.
Proof.
  intros Hwf. rewrite cleanup_spec by assumption. unfold keys. cbn [snd].
  rewrite <- JSMap_has_keys. unfold JSMap.has. simpl.
  rewrite get_filter by assumption. unfold exists_, live.
  destruct (JSMap.get key (store st)) as [entry|]; simpl.
  - destruct (isExpired now entry); simpl; split; congruence.
  - split; congruence.
Qed.

Lemma filter_live_twice now (m : JSMap.t StorageEntry) :
  List.filter (live now) (List.filter (live now) m) = List.filter (live now) m.
Proof.
  induction m as [|ke r IH]; simpl; [reflexivity|].
  destruct (live now ke) eqn:H; simpl; [now rewrite H, IH | exact IH].
Qed.

Lemma count_expired_live now (m : JSMap.t StorageEntry) :
  count_expired now (List.filter (live now) m) = 0.
Proof.
  unfold count_expired.
  induction m as [|[k e] r IH]; simpl; [reflexivity|].
  unfold live at 1. simpl.
  destruct (isExpired now e) eqn:H; simpl; [exact IH | now rewrite H].
Qed.

(** X11. A second [cleanup] at the same instant removes nothing, returns
    0 and leaves the state, counters included, as the first sweep left
    it. *)
Theorem X11_second_sweep_is_idle st now :
  JSMap.wf (store st) ->
  cleanup now (snd (cleanup now st)) = (0, snd (cleanup now st)).
Proof.
  intros Hwf. rewrite (cleanup_spec now st Hwf). cbn [snd].
  rewrite cleanup_spec by (simpl; now apply wf_filter).
  simpl. rewrite filter_live_twice, count_expired_live.
  f_equal. unfold updateStats, with_stats, with_store, add_expired,
    getMemoryUsage. simpl. now rewrite Z.add_0_r.
Qed.

(** ** [mset] that returns *)

Lemma set_keeps_options now key (v : V) ttl st :
  options (snd (set now key v ttl st)) = options st.
Proof.
  unfold set.
  destruct (negb (JSMap.has key (store st))
            && (JSMap.size (store st) >=? maxKeys (options st)));
    [reflexivity|].
  now destruct (serialize _ _).
Qed.

Lemma set_other_key now key (v : V) ttl st k' :
  k' <> key ->
  JSMap.get k' (store (snd (set now key v ttl st))) = JSMap.get k' (store st).
Proof.
  intros Hne. unfold set.
  destruct (negb (JSMap.has key (store st))
            && (JSMap.size (store st) >=? maxKeys (options st)));
    [reflexivity|].
  destruct (serialize _ _); [|reflexivity].
  simpl. now apply JSMap_get_set_other.
Qed.

Lemma mset_from_other_keys
      (clock : nat -> Z) ttl (entries : list (string * V)) k' :
  ~ In k' (List.map fst entries) ->
  forall i st,
    JSMap.get k' (store (snd (mset_from i clock entries ttl st)))
    = JSMap.get k' (store st).
Proof.
  induction entries as [|[k v] r IH]; intros Hnotin i st; [reflexivity|].
  cbn [mset_from].
  pose proof (set_other_key (clock i) k v ttl st k') as Hstep.
  destruct (set (clock i) k v ttl st) as [[[]|e] st1]; cbn [snd] in *.
  - rewrite IH.
    + apply Hstep. intros ->. apply Hnotin. now left.
    + intros H. apply Hnotin. now right.
  - apply Hstep. intros ->. apply Hnotin. now left.
Qed.

Lemma set_returned_sets now key (v : V) ttl st st' :
  set now key v ttl st = (Returned tt, st') ->
  Stats.sets (stats st') = Stats.sets (stats st) + 1.
Proof.
  intros Hset. pose proof Hset as Hret. apply set_returned in Hret.
  destruct Hret as (Hchk & text & Hser & _).
  rewrite set_admitted in Hset by assumption. rewrite Hser in Hset.
  now injection Hset as <-.
Qed.

Lemma mset_from_returned (clock : nat -> Z) ttl (entries : list (string * V)) :
  forall i st st',
    mset_from i clock entries ttl st = (Returned tt, st') ->
    options st' = options st
    /\ Stats.sets (stats st')
       = Stats.sets (stats st) + Z.of_nat (List.length entries)
    /\ forall pre k v post text,
        entries = (pre ++ (k, v) :: post)%list ->
        ~ In k (List.map fst post) ->
        serialize (serialization (options st)) v = Returned text ->
        JSMap.get k (store st')
        = Some {| value := text;
                  expires := expiresAt (clock (i + List.length pre)%nat)
                                       (effectiveTTL ttl st) |}.
Proof.
  induction entries as [|[k0 v0] r IH]; intros i st st' Hrun.
  - injection Hrun as <-. split; [reflexivity|]. split; [simpl; lia|].
    intros [|? ?] k v post text H; discriminate.
  - cbn [mset_from] in Hrun.
    destruct (set (clock i) k0 v0 ttl st) as [[[]|e] st1] eqn:Hset;
      [|discriminate].
    pose proof (set_keeps_options (clock i) k0 v0 ttl st) as Hopt1.
    rewrite Hset in Hopt1. cbn [snd] in Hopt1.
    destruct (IH (S i) st1 st' Hrun) as (Hopt & Hsets & Hlast).
    pose proof (set_returned_sets _ _ _ _ _ _ Hset) as Hs1.
    split; [congruence|]. split.
    { cbn [List.length]. rewrite Hsets, Hs1. lia. }
    intros pre k v post text Hsplit Hnotin Hser.
    destruct pre as [|[k1 v1] pre'].
    + cbn [List.app] in Hsplit. injection Hsplit as -> -> ->.
      rewrite Nat.add_0_r.
      pose proof (mset_from_other_keys clock ttl post k Hnotin (S i) st1)
        as Hkeep.
      rewrite Hrun in Hkeep. cbn [snd] in Hkeep. rewrite Hkeep.
      apply set_returned in Hset.
      destruct Hset as (_ & text' & Hser' & Hstore & _).
      rewrite Hser in Hser'. injection Hser' as <-.
      rewrite Hstore. apply JSMap_get_set_same.
    + cbn [List.app] in Hsplit. injection Hsplit as -> -> ->.
      rewrite (Hlast pre' k v post text eq_refl Hnotin).
      * cbn [List.length]. rewrite Nat.add_succ_r.
        unfold effectiveTTL. now rewrite Hopt1.
      * now rewrite Hopt1.
Qed.

(** X12. When [mset] returns, [sets] has grown by the number of entries,
    duplicates included, and each key holds the text and the expiry of its
    last occurrence in the batch. *)
Theorem X12_mset_last_write_wins
        (clock : nat -> Z) (entries : list (string * V)) ttl st st' :
  mset clock entries ttl st = (Returned tt, st') ->
  Stats.sets (stats st')
  = Stats.sets (stats st) + Z.of_nat (List.length entries)
  /\ forall pre k v post text,
      entries = (pre ++ (k, v) :: post)%list ->
      ~ In k (List.map fst post) ->
      serialize (serialization (options st)) v = Returned text ->
      JSMap.get k (store st')
      = Some {| value := text;
                expires := expiresAt (clock (List.length pre))
                                     (effectiveTTL ttl st) |}.
Proof.
  intros Hrun. destruct (mset_from_returned clock ttl entries 0%nat st st' Hrun)
    as (_ & Hsets & Hlast).
  split; [exact Hsets|]. exact Hlast.
Qed.

End FinalAdapter.

(* ================================================================== *)
(** * The facade's other operations *)

Section Facade.
Import KeyValue.

Lemma fullEntries_invalid kv entries :
  existsb (fun kx => KeyValue.isEmpty (fst kx) || isUndefined (snd kx))
          entries = true ->
  exists e, KeyValue.fullEntries kv entries = Thrown e.
Proof.
  induction entries as [|[k v] r IH]; simpl; [discriminate|].
  destruct (KeyValue.isEmpty k); [eauto|]. destruct (isUndefined v); [eauto|].
  simpl. intros H. destruct (IH H) as [e ->]. eauto.
Qed.

Lemma fullEntries_valid kv entries :
  existsb (fun kx => KeyValue.isEmpty (fst kx) || isUndefined (snd kx))
          entries = false ->
  KeyValue.fullEntries kv entries
  = Returned (List.map (fun kx => (buildKey kv (fst kx), snd kx)) entries).
Proof.
  induction entries as [|[k v] r IH]; simpl; [reflexivity|].
  destruct (KeyValue.isEmpty k); [discriminate|].
  destruct (isUndefined v); [discriminate|].
  simpl. intros H. now rewrite (IH H).
Qed.

Lemma fullKeys_invalid kv keys :
  existsb KeyValue.isEmpty keys = true ->
  exists e, KeyValue.fullKeys kv keys = Thrown e.
Proof.
  induction keys as [|k r IH]; simpl; [discriminate|].
  destruct (KeyValue.isEmpty k); [eauto|]. simpl.
  intros H. destruct (IH H) as [e ->]. eauto.
Qed.

(** X16. The batch operations of the facade validate the whole batch
    before the adapter is touched: an empty key anywhere in it makes
    [mget], [mset] and [deleteMany] throw, as does an [undefined] value in
    [mset], and the facade and its adapter are left as they were. *)
Theorem X16_batches_are_checked_before_any_write kv :
  (forall clock entries ttl,
     existsb (fun kx => KeyValue.isEmpty (fst kx) || isUndefined (snd kx))
             entries
     = true ->
     exists e, KeyValue.mset clock entries ttl kv = (Thrown e, kv))
  /\ (forall now keys,
        existsb KeyValue.isEmpty keys = true ->
        exists e, KeyValue.mget now keys kv = (Thrown e, kv))
  /\ (forall keys,
        existsb KeyValue.isEmpty keys = true ->
        exists e, KeyValue.deleteMany keys kv = (Thrown e, kv)).
Proof.
  split; [|split].
  - intros clock entries ttl H. unfold KeyValue.mset.
    destruct (fullEntries_invalid kv entries H) as [e ->]. eauto.
  - intros now keys H. unfold KeyValue.mget.
    destruct (fullKeys_invalid kv keys H) as [e ->]. eauto.
  - intros keys H. unfold KeyValue.deleteMany.
    destruct (fullKeys_invalid kv keys H) as [e ->]. eauto.
Qed.

Lemma set_returned_facade now key v ttl kv kv' :
  KeyValue.set now key v ttl kv = (Returned tt, kv') ->
  KeyValue.isEmpty key = false
  /\ isUndefined v = false
  /\ namespace kv' = namespace kv
  /\ defaultTTL kv' = defaultTTL kv
  /\ MemoryAdapter.set now (buildKey kv key) v (nullish ttl (defaultTTL kv))
                       (adapter kv)
     = (Returned tt, adapter kv').
Proof.
  unfold KeyValue.set. destruct key as [|c key']; [discriminate|].
  destruct (isUndefined v); [discriminate|].
  destruct (MemoryAdapter.set now (buildKey kv (String c key')) v
              (nullish ttl (defaultTTL kv)) (adapter kv))
    as [[[]|err] a]; [|discriminate].
  intros [= <-]. repeat split.
Qed.

(** X17. Through the facade, a [set] that returns followed by a [get] of
    the same key before the entry expires returns the value, for every
    value its codec reads back; the value is not [undefined], and in the
    adapter only the namespaced key has changed. *)
Theorem X17_facade_set_then_get now key v ttl kv kv' text now' :
  KeyValue.set now key v ttl kv = (Returned tt, kv') ->
  serialize (serialization (MemoryAdapter.options (adapter kv))) v
  = Returned text ->
  deserialize (serialization (MemoryAdapter.options (adapter kv))) text
  = Returned v ->
  (forall entry,
     JSMap.get (buildKey kv key) (MemoryAdapter.store (adapter kv'))
     = Some entry ->
     MemoryAdapter.isExpired now' entry = false) ->
  fst (KeyValue.get now' key kv') = Returned (Some v)
  /\ v <> JS.VUndefined
  /\ (forall k', k' <> buildKey kv key ->
        JSMap.get k' (MemoryAdapter.store (adapter kv'))
        = JSMap.get k' (MemoryAdapter.store (adapter kv))).
Proof.
  intros Hset Hser Hde Hlive.
  destruct (set_returned_facade _ _ _ _ _ _ Hset)
    as (Hkey & Hdef & Hns & _ & Hinner).
  pose proof Hinner as Hret. apply set_returned in Hret.
  destruct Hret as (_ & text' & Hser' & Hstore & Hopt).
  rewrite Hser in Hser'. injection Hser' as <-.
  split; [|split].
  - unfold KeyValue.get. rewrite Hkey.
    assert (Hfull : buildKey kv' key = buildKey kv key)
      by (unfold buildKey; now rewrite Hns).
    rewrite Hfull.
    assert (Hget : JSMap.get (buildKey kv key) (MemoryAdapter.store (adapter kv'))
                   = Some {| value := text;
                             expires := MemoryAdapter.expiresAt now
                               (MemoryAdapter.effectiveTTL
                                  (nullish ttl (defaultTTL kv)) (adapter kv)) |}).
    { rewrite Hstore. apply JSMap_get_set_same. }
    unfold MemoryAdapter.get. rewrite Hget, (Hlive _ Hget). simpl.
    rewrite Hopt, Hde. reflexivity.
  - intros ->. discriminate.
  - intros k' Hne. rewrite Hstore. now apply JSMap_get_set_other.
Qed.

Lemma append_cancel_l (a b c : string) : a ++ b = a ++ c -> b = c.
Proof. induction a as [|x a IH]; simpl; [auto | intros [= H]; auto]. Qed.

Lemma colon_split (a b c d : string) :
  KeyValue.hasColon a = false -> KeyValue.hasColon c = false ->
  a ++ String ":" b = c ++ String ":" d -> a = c /\ b = d.
Proof.
  revert c. induction a as [|x a IH]; intros [|y c]; simpl.
  - intros _ _ [= ->]. auto.
  - intros _ Hc [= <- _].
    apply orb_false_iff in Hc. destruct Hc as [Hc _]. discriminate.
  - intros Ha _ [= -> _].
    apply orb_false_iff in Ha. destruct Ha as [Ha _]. discriminate.
  - intros Ha Hc [= -> H].
    apply orb_false_iff in Ha, Hc.
    destruct (IH c (proj2 Ha) (proj2 Hc) H) as [-> ->]. auto.
Qed.

(** X18. [buildKey] never maps two keys of one facade to the same adapter
    key; two facades whose namespaces are non-empty and free of [':']
    share an adapter key only if namespace and key agree; a namespace
    with a [':'] in it does collide with a shorter one. *)
Theorem X18_namespaces kv1 kv2 :
  (forall k1 k2, buildKey kv1 k1 = buildKey kv1 k2 -> k1 = k2)
  /\ (namespace kv1 <> EmptyString -> namespace kv2 <> EmptyString ->
      KeyValue.hasColon (namespace kv1) = false ->
      KeyValue.hasColon (namespace kv2) = false ->
      forall k1 k2,
        buildKey kv1 k1 = buildKey kv2 k2 ->
        namespace kv1 = namespace kv2 /\ k1 = k2)
  /\ (namespace kv1 <> EmptyString ->
      forall k0 k,
        namespace kv2 = namespace kv1 ++ ":" ++ k0 ->
        buildKey kv2 k = buildKey kv1 (k0 ++ ":" ++ k)).
Proof.
  split; [|split].
  - intros k1 k2. unfold buildKey.
    destruct (namespace kv1) as [|c ns]; [auto|].
    intros H. apply append_cancel_l in H. now injection H.
  - intros Hn1 Hn2 Hc1 Hc2 k1 k2. unfold buildKey.
    destruct (namespace kv1) as [|c1 ns1]; [contradiction|].
    destruct (namespace kv2) as [|c2 ns2]; [contradiction|].
    intros H. apply (colon_split _ _ _ _ Hc1 Hc2 H).
  - intros Hn1 k0 k Hns. unfold buildKey. rewrite Hns.
    destruct (namespace kv1) as [|c1 ns1]; [contradiction|].
    cbn [append]. f_equal. now rewrite !string_append_assoc.
Qed.

End Facade.

(* ================================================================== *)
(** * The default codec behind the adapter *)

Section StoredValues.
Import JS Shapes MemoryAdapter Observations.


End StoredValues.


(* ================================================================== *)
(** * [EnhancedMemoryAdapter] against the final [MemoryAdapter] *)

Section EnhancedAgainstFinal.
Context {V : Type}.
Implicit Types (f : MemoryAdapter.t V) (key : string) (now : Z).

Lemma ofFinal_get f now key :
  EnhancedMemoryAdapter.get now key (ofFinal f)
  = (fst (MemoryAdapter.get now key f),
     ofFinal (snd (MemoryAdapter.get now key f))).
Proof.
  unfold EnhancedMemoryAdapter.get, MemoryAdapter.get.
  cbn [ofFinal EnhancedMemoryAdapter.store].
  destruct (JSMap.get key (MemoryAdapter.store f)) as [entry|]; [|reflexivity].
  destruct (MemoryAdapter.isExpired now entry); [reflexivity|].
  cbn. destruct (deserialize _ _); reflexivity.
Qed.

Lemma ofFinal_set f now key (v : V) ttl :
  snd (EnhancedMemoryAdapter.set now key v ttl (ofFinal f))
  = ofFinal (snd (MemoryAdapter.set now key v ttl f))
  /\ returned (fst (EnhancedMemoryAdapter.set now key v ttl (ofFinal f)))
     = returned (fst (MemoryAdapter.set now key v ttl f)).
Proof.
  unfold EnhancedMemoryAdapter.set, MemoryAdapter.set. cbn.
  destruct (negb (JSMap.has key (MemoryAdapter.store f))
            && (JSMap.size (MemoryAdapter.store f)
                >=? maxKeys (MemoryAdapter.options f))); [split; reflexivity|].
  destruct (serialize _ _); split; reflexivity.
Qed.

Lemma ofFinal_delete f key :
  EnhancedMemoryAdapter.delete key (ofFinal f)
  = (fst (MemoryAdapter.delete key f),
     ofFinal (snd (MemoryAdapter.delete key f))).
Proof.
  unfold EnhancedMemoryAdapter.delete, MemoryAdapter.delete. cbn.
  destruct (JSMap.has key (MemoryAdapter.store f)); reflexivity.
Qed.

Lemma ofFinal_exists f now key :
  EnhancedMemoryAdapter.exists_ now key (ofFinal f)
  = (fst (MemoryAdapter.exists_ now key f),
     ofFinal (snd (MemoryAdapter.exists_ now key f))).
Proof.
  unfold EnhancedMemoryAdapter.exists_, MemoryAdapter.exists_. cbn.
  destruct (JSMap.get key (MemoryAdapter.store f)) as [entry|]; [|reflexivity].
  destruct (MemoryAdapter.isExpired now entry); reflexivity.
Qed.

Lemma ofFinal_cleanup_loop now visit :
  forall cleaned f,
    EnhancedMemoryAdapter.cleanup_loop now visit cleaned (ofFinal f)
    = (fst (MemoryAdapter.cleanup_loop now visit cleaned f),
       ofFinal (snd (MemoryAdapter.cleanup_loop now visit cleaned f))).
Proof.
  induction visit as [|[k e] r IH]; intros cleaned f; [reflexivity|].
  cbn [EnhancedMemoryAdapter.cleanup_loop MemoryAdapter.cleanup_loop].
  destruct (MemoryAdapter.isExpired now e); [|apply IH].
  rewrite <- IH. reflexivity.
Qed.

Lemma ofFinal_cleanup f now :
  EnhancedMemoryAdapter.cleanup now (ofFinal f)
  = (fst (MemoryAdapter.cleanup now f),
     ofFinal (snd (MemoryAdapter.cleanup now f))).
Proof.
  unfold EnhancedMemoryAdapter.cleanup, MemoryAdapter.cleanup.
  cbn [ofFinal EnhancedMemoryAdapter.store].
  rewrite ofFinal_cleanup_loop.
  destruct (MemoryAdapter.cleanup_loop now _ 0 f) as [n f1]. reflexivity.
Qed.

(** X19. [EnhancedMemoryAdapter] and the final [MemoryAdapter] agree
    operation by operation: started from the final adapter's map, timer,
    options and five event counters, [get], [delete], [exists], [clear] and
    [cleanup] return the same result and leave the same map and counters,
    [set] returns exactly when the final adapter's does and leaves the same
    state, and [keys] and [getStats] report the same. *)
Theorem X19_enhanced_adapter_agrees_with_final f :
  (forall now key,
     EnhancedMemoryAdapter.get now key (ofFinal f)
     = (fst (MemoryAdapter.get now key f),
        ofFinal (snd (MemoryAdapter.get now key f))))
  /\ (forall now key (v : V) ttl,
        snd (EnhancedMemoryAdapter.set now key v ttl (ofFinal f))
        = ofFinal (snd (MemoryAdapter.set now key v ttl f))
        /\ returned (fst (EnhancedMemoryAdapter.set now key v ttl (ofFinal f)))
           = returned (fst (MemoryAdapter.set now key v ttl f)))
  /\ (forall key,
        EnhancedMemoryAdapter.delete key (ofFinal f)
        = (fst (MemoryAdapter.delete key f),
           ofFinal (snd (MemoryAdapter.delete key f))))
  /\ (forall now key,
        EnhancedMemoryAdapter.exists_ now key (ofFinal f)
        = (fst (MemoryAdapter.exists_ now key f),
           ofFinal (snd (MemoryAdapter.exists_ now key f))))
  /\ EnhancedMemoryAdapter.clear (ofFinal f) = ofFinal (MemoryAdapter.clear f)
  /\ (forall now,
        EnhancedMemoryAdapter.cleanup now (ofFinal f)
        = (fst (MemoryAdapter.cleanup now f),
           ofFinal (snd (MemoryAdapter.cleanup now f))))
  /\ EnhancedMemoryAdapter.keys (ofFinal f) = MemoryAdapter.keys f
  /\ EnhancedMemoryAdapter.getStats (ofFinal f)
     = fst (MemoryAdapter.getStats f).
Proof.
  split; [exact (ofFinal_get f)|].
  split; [exact (ofFinal_set f)|].
  split; [exact (ofFinal_delete f)|].
  split; [exact (ofFinal_exists f)|].
  split; [reflexivity|].
  split; [exact (ofFinal_cleanup f)|].
  split; reflexivity.
Qed.

Lemma ofFinal_mset_from (clock : nat -> Z) ttl (entries : list (string * V)) :
  forall i f,
    snd (EnhancedMemoryAdapter.mset_from i clock entries ttl (ofFinal f))
    = ofFinal (snd (MemoryAdapter.mset_from i clock entries ttl f))
    /\ returned (fst (EnhancedMemoryAdapter.mset_from i clock entries ttl
                        (ofFinal f)))
       = returned (fst (MemoryAdapter.mset_from i clock entries ttl f)).
Proof.
  induction entries as [|[k v] r IH]; intros i f; [split; reflexivity|].
  cbn [EnhancedMemoryAdapter.mset_from MemoryAdapter.mset_from].
  destruct (ofFinal_set f (clock i) k v ttl) as [Hst Hret].
  destruct (EnhancedMemoryAdapter.set (clock i) k v ttl (ofFinal f))
    as [[[]|e1] e'];
    destruct (MemoryAdapter.set (clock i) k v ttl f) as [[[]|e2] f'];
    cbn [fst snd returned] in *; try discriminate.
  - subst e'. apply IH.
  - split; [exact Hst | reflexivity].
Qed.

Lemma ofFinal_mget now ks :
  forall f,
    EnhancedMemoryAdapter.mget now ks (ofFinal f)
    = (fst (MemoryAdapter.mget now ks f),
       ofFinal (snd (MemoryAdapter.mget now ks f))).
Proof.
  induction ks as [|k r IH]; intros f; [reflexivity|].
  cbn [EnhancedMemoryAdapter.mget MemoryAdapter.mget].
  rewrite ofFinal_get.
  destruct (MemoryAdapter.get now k f) as [r1 f1]. cbn [fst snd].
  rewrite IH. destruct (MemoryAdapter.mget now r f1) as [rs f2].
  reflexivity.
Qed.

Lemma ofFinal_deleteMany_loop ks :
  forall b f,
    EnhancedMemoryAdapter.deleteMany_loop ks b (ofFinal f)
    = (fst (MemoryAdapter.deleteMany_loop ks b f),
       ofFinal (snd (MemoryAdapter.deleteMany_loop ks b f))).
Proof.
  induction ks as [|k r IH]; intros b f; [reflexivity|].
  cbn [EnhancedMemoryAdapter.deleteMany_loop MemoryAdapter.deleteMany_loop].
  rewrite ofFinal_delete.
  destruct (MemoryAdapter.delete k f) as [d f1]. cbn [fst snd]. apply IH.
Qed.

(** X20. The batch operations agree as well: [mget] and [deleteMany]
    return the same result and leave the same state, and [mset] returns
    exactly when the final adapter's does, leaving the same state. *)
Theorem X20_enhanced_batches_agree_with_final f :
  (forall now ks,
     EnhancedMemoryAdapter.mget now ks (ofFinal f)
     = (fst (MemoryAdapter.mget now ks f),
        ofFinal (snd (MemoryAdapter.mget now ks f))))
  /\ (forall clock (entries : list (string * V)) ttl,
        snd (EnhancedMemoryAdapter.mset clock entries ttl (ofFinal f))
        = ofFinal (snd (MemoryAdapter.mset clock entries ttl f))
        /\ returned (fst (EnhancedMemoryAdapter.mset clock entries ttl
                            (ofFinal f)))
           = returned (fst (MemoryAdapter.mset clock entries ttl f)))
  /\ (forall ks,
        EnhancedMemoryAdapter.deleteMany ks (ofFinal f)
        = (fst (MemoryAdapter.deleteMany ks f),
           ofFinal (snd (MemoryAdapter.deleteMany ks f)))).
Proof.
  split; [intros now ks; apply ofFinal_mget|].
  split; [intros clock entries ttl; apply ofFinal_mset_from|].
  intros ks. apply ofFinal_deleteMany_loop.
Qed.

Lemma same_store_cleanup_loop now visit :
  forall cleaned (e : EnhancedMemoryAdapter.t V) f,
    same_store e f ->
    same_store (snd (EnhancedMemoryAdapter.cleanup_loop now visit cleaned e))
               (snd (MemoryAdapter.cleanup_loop now visit cleaned f)).
Proof.
  induction visit as [|[k x] r IH]; intros cleaned e f Hsame; [exact Hsame|].
  cbn [EnhancedMemoryAdapter.cleanup_loop MemoryAdapter.cleanup_loop].
  destruct (MemoryAdapter.isExpired now x); [|now apply IH].
  apply IH. destruct Hsame as (Hs & Ht & Ho).
  unfold same_store. cbn. rewrite Hs. auto.
Qed.

Lemma same_store_run c (e : EnhancedMemoryAdapter.t V) f :
  same_store e f ->
  same_store (EnhancedMemoryAdapter.run c e) (MemoryAdapter.run c f).
Proof.
  intros Hsame. pose proof Hsame as (Hs & Ht & Ho).
  destruct c as [now key|now key v ttl|key|now key| |now| |];
    cbn [EnhancedMemoryAdapter.run MemoryAdapter.run].
  - unfold EnhancedMemoryAdapter.get, MemoryAdapter.get. rewrite Hs, Ho.
    destruct (JSMap.get key (MemoryAdapter.store f)) as [entry|];
      [|exact Hsame].
    destruct (MemoryAdapter.isExpired now entry).
    + unfold same_store. cbn. auto.
    + cbn. destruct (deserialize _ _); exact Hsame.
  - unfold EnhancedMemoryAdapter.set, MemoryAdapter.set,
      EnhancedMemoryAdapter.effectiveTTL, MemoryAdapter.effectiveTTL.
    rewrite Hs, Ho. cbn.
    destruct (negb (JSMap.has key (MemoryAdapter.store f))
              && (JSMap.size (MemoryAdapter.store f)
                  >=? maxKeys (MemoryAdapter.options f))); [exact Hsame|].
    destruct (serialize _ _); [|exact Hsame].
    unfold same_store. cbn. auto.
  - unfold EnhancedMemoryAdapter.delete, MemoryAdapter.delete. rewrite Hs.
    destruct (JSMap.has key (MemoryAdapter.store f)); [|exact Hsame].
    unfold same_store. cbn. auto.
  - unfold EnhancedMemoryAdapter.exists_, MemoryAdapter.exists_. rewrite Hs.
    destruct (JSMap.get key (MemoryAdapter.store f)) as [entry|];
      [|exact Hsame].
    destruct (MemoryAdapter.isExpired now entry); [|exact Hsame].
    unfold same_store. cbn. auto.
  - unfold same_store. cbn. auto.
  - unfold EnhancedMemoryAdapter.cleanup, MemoryAdapter.cleanup.
    unfold JSMap.entries. rewrite Hs.
    pose proof (same_store_cleanup_loop now (MemoryAdapter.store f) 0 e f Hsame)
      as Hloop.
    destruct (MemoryAdapter.cleanup_loop now (MemoryAdapter.store f) 0 f)
      as [n f1].
    exact Hloop.
  - exact Hsame.
  - unfold same_store. cbn. auto.
Qed.

Lemma ofFinal_run c f :
  c <> MemoryAdapter.CDestroy ->
  EnhancedMemoryAdapter.run c (ofFinal f) = ofFinal (MemoryAdapter.run c f).
Proof.
  intros Hc.
  destruct c as [now key|now key v ttl|key|now key| |now| |];
    cbn [EnhancedMemoryAdapter.run MemoryAdapter.run].
  - now rewrite ofFinal_get.
  - apply ofFinal_set.
  - now rewrite ofFinal_delete.
  - now rewrite ofFinal_exists.
  - reflexivity.
  - now rewrite ofFinal_cleanup.
  - reflexivity.
  - contradiction.
Qed.

(** X21. Along every history of calls the two adapters, constructed from
    matching options, hold the same map, so the enhanced adapter's map is
    empty or within [maxKeys]; as long as [destroy] is not among the calls
    the enhanced adapter's whole state is the final adapter's, seen without
    the two snapshot counters; [destroy] keeps the enhanced adapter's
    counters, where the final adapter resets them. *)
Theorem X21_enhanced_histories
        (config : MemoryAdapterConfig V) (calls : list MemoryAdapter.call) :
  same_store (EnhancedMemoryAdapter.history (ofConfig config) calls)
             (List.fold_left (fun st c => MemoryAdapter.run c st) calls
                             (MemoryAdapter.create config))
  /\ (JSMap.size (EnhancedMemoryAdapter.store
                    (EnhancedMemoryAdapter.history (ofConfig config) calls))
      = 0
      \/ JSMap.size (EnhancedMemoryAdapter.store
                       (EnhancedMemoryAdapter.history (ofConfig config) calls))
         <= maxKeys config)
  /\ (~ In MemoryAdapter.CDestroy calls ->
      EnhancedMemoryAdapter.history (ofConfig config) calls
      = ofFinal (List.fold_left (fun st c => MemoryAdapter.run c st) calls
                                (MemoryAdapter.create config)))
  /\ EnhancedMemoryAdapter.stats
       (EnhancedMemoryAdapter.destroy
          (EnhancedMemoryAdapter.history (ofConfig config) calls))
     = EnhancedMemoryAdapter.stats
         (EnhancedMemoryAdapter.history (ofConfig config) calls).
Proof.
  assert (Hweak : forall cs (e : EnhancedMemoryAdapter.t V) f,
            same_store e f ->
            same_store
              (List.fold_left (fun st c => EnhancedMemoryAdapter.run c st) cs e)
              (List.fold_left (fun st c => MemoryAdapter.run c st) cs f)).
  { induction cs as [|c r IH]; intros e f Hsame; [exact Hsame|].
    cbn [List.fold_left]. apply IH. now apply same_store_run. }
  assert (Hfull : forall cs f,
            ~ In MemoryAdapter.CDestroy cs ->
            List.fold_left (fun st c => EnhancedMemoryAdapter.run c st) cs
                           (ofFinal f)
            = ofFinal (List.fold_left (fun st c => MemoryAdapter.run c st) cs f)).
  { induction cs as [|c r IH]; intros f Hnot; [reflexivity|].
    cbn [List.fold_left]. rewrite ofFinal_run.
    - apply IH. intros Hin. apply Hnot. now right.
    - intros ->. apply Hnot. now left. }
  assert (Hstart : same_store (EnhancedMemoryAdapter.create (ofConfig config))
                              (MemoryAdapter.create config))
    by (repeat split).
  pose proof (Hweak calls _ _ Hstart) as Hsame.
  split; [exact Hsame|]. split; [|split].
  - destruct Hsame as (Hs & _ & _).
    unfold EnhancedMemoryAdapter.history. rewrite Hs.
    destruct (reachable_inv config _ (reachable_history config calls))
      as (Ho & _ & Hcap).
    unfold MemoryAdapter.capacity_inv in Hcap. now rewrite Ho in Hcap.
  - intros Hnot. exact (Hfull calls (MemoryAdapter.create config) Hnot).
  - reflexivity.
Qed.

End EnhancedAgainstFinal.

(* ================================================================== *)
(** * The event emitter *)

Section EmitterFacts.
Import Events.
Implicit Types (m : KVEventEmitter) (o : KVEventObserver).

Lemma includes_In o l : includes o l = true <-> In o l.
Proof.
  unfold includes. rewrite existsb_exists. split.
  - intros (x & Hin & Heq). apply Nat.eqb_eq in Heq. now subst.
  - intros Hin. exists o. split; [assumption | apply Nat.eqb_refl].
Qed.

Lemma indexOf_None o l : indexOf o l = None <-> ~ In o l.
Proof.
  induction l as [|x r IH]; simpl; [tauto|].
  destruct (Nat.eqb_spec o x) as [->|Hne].
  - split; [discriminate | intros H; exfalso; apply H; now left].
  - destruct (indexOf o r); simpl.
    + split; [discriminate|]. intros H. exfalso.
      assert (Hr : ~ In o r) by tauto.
      apply IH in Hr. discriminate.
    + split; [|reflexivity]. intros _ [H|H]; [congruence|].
      now apply IH in H.
Qed.

(** [splice(indexOf(o), 1)] removes the first occurrence of [o]. *)
Lemma splice_indexOf o l index :
  indexOf o l = Some index ->
  exists pre post,
    l = (pre ++ o :: post)%list /\ ~ In o pre
    /\ splice1 index l = (pre ++ post)%list.
Proof.
  revert index. induction l as [|x r IH]; intros index; simpl; [discriminate|].
  destruct (Nat.eqb_spec o x) as [->|Hne].
  - intros [= <-]. exists [], r. repeat split. tauto.
  - destruct (indexOf o r) as [i|]; [|discriminate]. simpl.
    intros [= <-]. destruct (IH i eq_refl) as (pre & post & -> & Hnot & Hs).
    exists (x :: pre), post. repeat split.
    + simpl. intros [H|H]; [congruence | tauto].
    + unfold splice1 in *. cbn [List.firstn List.skipn List.app].
      f_equal. exact Hs.
Qed.

Lemma splice_last o l :
  ~ In o l ->
  exists index,
    indexOf o (l ++ [o])%list = Some index
    /\ splice1 index (l ++ [o])%list = l.
Proof.
  induction l as [|x r IH]; intros Hnot.
  - exists 0%nat. simpl. now rewrite Nat.eqb_refl.
  - simpl. destruct (Nat.eqb_spec o x) as [->|Hne];
      [exfalso; apply Hnot; now left|].
    destruct IH as (i & Hi & Hs); [intros H; apply Hnot; now right|].
    exists (S i). rewrite Hi. split; [reflexivity|].
    unfold splice1 in *. cbn [List.firstn List.skipn List.app].
    f_equal. exact Hs.
Qed.

Lemma JSMap_delete_set_absent {A} k (a : A) (m : JSMap.t A) :
  JSMap.has k m = false -> JSMap.delete k (JSMap.set k a m) = m.
Proof.
  unfold JSMap.has. induction m as [|[k' a'] r IH]; simpl.
  - now rewrite String.eqb_refl.
  - destruct (String.eqb_spec k k') as [->|Hne]; [discriminate|].
    intros H. simpl. destruct (String.eqb_spec k k'); [contradiction|].
    now rewrite IH.
Qed.

Lemma JSMap_set_set {A} k (a b : A) (m : JSMap.t A) :
  JSMap.set k a (JSMap.set k b m) = JSMap.set k a m.
Proof.
  induction m as [|[k' a'] r IH]; simpl.
  - now rewrite String.eqb_refl.
  - destruct (String.eqb_spec k k') as [->|Hne]; simpl.
    + now rewrite String.eqb_refl.
    + destruct (String.eqb_spec k k'); [contradiction|]. now rewrite IH.
Qed.

Lemma JSMap_set_same {A} k (a : A) (m : JSMap.t A) :
  JSMap.get k m = Some a -> JSMap.set k a m = m.
Proof.
  induction m as [|[k' a'] r IH]; simpl; [discriminate|].
  destruct (String.eqb_spec k k') as [->|Hne].
  - now intros [= ->].
  - intros H. now rewrite IH.
Qed.

Lemma Forall_set {A} (P : string * A -> Prop) k (a : A) (m : JSMap.t A) :
  (forall k1 k2 x, P (k1, x) -> P (k2, x)) ->
  List.Forall P m -> P (k, a) -> List.Forall P (JSMap.set k a m).
Proof.
  intros Hkey Hall Hp. induction m as [|[k' a'] r IH]; simpl.
  - constructor; [assumption | constructor].
  - inversion Hall; subst. destruct (String.eqb k k'); constructor; auto.
Qed.

Lemma Forall_delete {A} (P : string * A -> Prop) k (m : JSMap.t A) :
  List.Forall P m -> List.Forall P (JSMap.delete k m).
Proof.
  intros Hall. induction m as [|[k' a'] r IH]; simpl; [constructor|].
  inversion Hall; subst. destruct (String.eqb k k'); [assumption|].
  constructor; auto.
Qed.

Lemma NoDup_snoc {A} (l : list A) (a : A) :
  NoDup l -> ~ In a l -> NoDup (l ++ [a]).
Proof.
  induction l as [|x r IH]; intros Hnd Hnot; simpl.
  - constructor; [tauto | constructor].
  - inversion Hnd; subst. constructor.
    + rewrite in_app_iff. simpl. intros [H|[H|[]]]; [tauto|].
      apply Hnot. now left.
    + apply IH; [assumption|]. intros H. apply Hnot. now right.
Qed.

Lemma tidy_get m eventType observers :
  tidy m -> JSMap.get eventType m = Some observers ->
  observers <> [] /\ NoDup observers.
Proof.
  intros [_ Hall] Hget. apply JSMap_get_In in Hget.
  rewrite Forall_forall in Hall. exact (Hall _ Hget).
Qed.

Lemma tidy_observersOf m eventType : tidy m -> NoDup (observersOf eventType m).
Proof.
  intros Htidy. unfold observersOf.
  destruct (JSMap.get eventType m) as [l|] eqn:Hget; [|constructor].
  now destruct (tidy_get m eventType l Htidy Hget).
Qed.

Lemma tidy_subscribe eventType o m : tidy m -> tidy (subscribe eventType o m).
Proof.
  intros Htidy. unfold subscribe.
  destruct (includes o (observersOf eventType m)) eqn:Hinc; [exact Htidy|].
  cbn [negb]. destruct Htidy as [Hwf Hall]. split; [now apply JSMap_wf_set|].
  apply Forall_set; auto. cbn [snd]. split.
  - intros H. now apply app_eq_nil in H as [_ H].
  - assert (Hnot : ~ In o (observersOf eventType m)).
    { intros Hin. apply includes_In in Hin. congruence. }
    apply NoDup_snoc; [|exact Hnot].
    exact (tidy_observersOf m eventType (conj Hwf Hall)).
Qed.

Lemma tidy_unsubscribe eventType o m :
  tidy m -> tidy (unsubscribe eventType o m).
Proof.
  intros Htidy. unfold unsubscribe.
  destruct (JSMap.get eventType m) as [l|] eqn:Hget; [|exact Htidy].
  destruct (indexOf o l) as [index|] eqn:Hidx; [|exact Htidy].
  destruct (splice_indexOf o l index Hidx) as (pre & post & -> & Hnot & Hs).
  destruct (tidy_get m eventType _ Htidy Hget) as [_ Hnd].
  destruct Htidy as [Hwf Hall]. cbv zeta.
  destruct (List.length (splice1 index (pre ++ o :: post)) =? 0)%nat eqn:Hlen.
  - split; [now apply JSMap_wf_delete | now apply Forall_delete].
  - split; [now apply JSMap_wf_set|]. apply Forall_set; auto.
    cbn [snd]. rewrite Hs in *. split.
    + intros H. rewrite H in Hlen. discriminate.
    + now apply NoDup_remove_1 in Hnd.
Qed.

Lemma tidy_run c m : tidy m -> tidy (run c m).
Proof.
  destruct c as [eventType o|eventType o|]; intros Htidy.
  - now apply tidy_subscribe.
  - now apply tidy_unsubscribe.
  - split; constructor.
Qed.

Lemma tidy_history calls : tidy (history calls).
Proof.
  unfold history.
  assert (H : forall m, tidy m -> tidy (List.fold_left (fun m c => run c m) calls m)).
  { induction calls as [|c r IH]; intros m Hm; [exact Hm|].
    apply IH. now apply tidy_run. }
  apply H. split; constructor.
Qed.

(** X22. Along every history of [subscribe], [unsubscribe] and [clear]
    the emitter lists each event type once, with at least one observer and
    no observer twice; so [hasObservers] answers true exactly for the types
    [getEventTypes] lists. *)
Theorem X22_emitter_lists_are_tidy (calls : list call) :
  JSMap.wf (history calls)
  /\ (forall eventType observers,
        JSMap.get eventType (history calls) = Some observers ->
        observers <> [] /\ NoDup observers)
  /\ (forall eventType,
        hasObservers eventType (history calls) = true
        <-> In eventType (getEventTypes (history calls))).
Proof.
  pose proof (tidy_history calls) as Htidy.
  split; [exact (proj1 Htidy)|]. split.
  - intros eventType observers. now apply tidy_get.
  - intros eventType. unfold hasObservers, getEventTypes, observersOf.
    rewrite <- JSMap_has_keys. unfold JSMap.has.
    destruct (JSMap.get eventType (history calls)) as [l|] eqn:Hget;
      [|split; discriminate].
    destruct (tidy_get _ _ _ Htidy Hget) as [Hne _].
    destruct l; [contradiction | split; reflexivity].
Qed.

(** X23. [emit] calls each observer subscribed to the event's type
    exactly once, and nobody else, with the event itself; an observer is
    called after it has subscribed to that type and is not after it has
    unsubscribed. *)
Theorem X23_emit_reaches_each_observer_once
        {V : Type} (event : KVEvent V) m o :
  tidy m ->
  List.count_occ Nat.eq_dec (List.map fst (emit event m)) o
  = (if includes o (observersOf (type event) m) then 1 else 0)%nat
  /\ (forall d, In d (emit event m) -> snd d = event)
  /\ (forall eventType,
        eventType = type event ->
        In o (List.map fst (emit event (subscribe eventType o m))))
  /\ (forall eventType,
        eventType = type event ->
        ~ In o (List.map fst (emit event (unsubscribe eventType o m)))).
Proof.
  intros Htidy. split; [|split; [|split]].
  - unfold emit. rewrite List.map_map. cbn [fst]. rewrite List.map_id.
    pose proof (tidy_observersOf m (type event) Htidy) as Hnd.
    destruct (includes o (observersOf (type event) m)) eqn:Hinc.
    + apply includes_In in Hinc.
      now apply (proj1 (NoDup_count_occ' Nat.eq_dec _) Hnd).
    + apply count_occ_not_In. intros Hin. apply includes_In in Hin. congruence.
  - unfold emit. intros d Hin. apply in_map_iff in Hin.
    now destruct Hin as (x & <- & _).
  - intros eventType ->. unfold emit. rewrite List.map_map. cbn [fst].
    rewrite List.map_id. unfold subscribe.
    destruct (includes o (observersOf (type event) m)) eqn:Hinc; cbn [negb].
    + now apply includes_In.
    + unfold observersOf at 1. rewrite JSMap_get_set_same.
      apply in_or_app. right. now left.
  - intros eventType ->. unfold emit. rewrite List.map_map. cbn [fst].
    rewrite List.map_id. unfold unsubscribe, observersOf.
    destruct (JSMap.get (type event) m) as [l|] eqn:Hget;
      [|rewrite Hget; tauto].
    destruct (indexOf o l) as [index|] eqn:Hidx.
    + destruct (splice_indexOf o l index Hidx) as (pre & post & -> & Hnot & Hs).
      destruct (tidy_get m _ _ Htidy Hget) as [_ Hnd].
      cbv zeta. rewrite Hs.
      destruct (List.length (pre ++ post) =? 0)%nat.
      * rewrite JSMap_get_delete_same by apply Htidy. tauto.
      * rewrite JSMap_get_set_same. now apply NoDup_remove_2 in Hnd.
    + rewrite Hget. now apply indexOf_None.
Qed.

(** X24. For an observer that is not subscribed to the type yet (as the
    one [createEventSubscription] makes is), the closure returned by
    [createEventSubscription] restores the emitter exactly; subscribing
    twice is subscribing once, and unsubscribing an observer that is not
    subscribed changes nothing. *)
Theorem X24_cancel_undoes_subscription m eventType o :
  tidy m ->
  includes o (observersOf eventType m) = false ->
  snd (createEventSubscription m eventType o)
      (fst (createEventSubscription m eventType o)) = m
  /\ subscribe eventType o (subscribe eventType o m)
     = subscribe eventType o m
  /\ unsubscribe eventType o m = m.
Proof.
  intros Htidy Hinc.
  assert (Hnot : ~ In o (observersOf eventType m)).
  { intros Hin. apply includes_In in Hin. congruence. }
  split; [|split].
  - cbn [createEventSubscription fst snd]. unfold subscribe.
    rewrite Hinc. cbn [negb]. unfold unsubscribe.
    rewrite JSMap_get_set_same.
    destruct (splice_last o _ Hnot) as (index & -> & ->).
    unfold observersOf in *.
    destruct (JSMap.get eventType m) as [l|] eqn:Hget.
    + destruct (tidy_get m _ _ Htidy Hget) as [Hne _].
      destruct l as [|x r]; [contradiction|]. cbn [List.length Nat.eqb].
      rewrite JSMap_set_set. now apply JSMap_set_same.
    + cbn [List.length Nat.eqb]. apply JSMap_delete_set_absent.
      unfold JSMap.has. now rewrite Hget.
  - unfold subscribe at 2. rewrite Hinc. cbn [negb]. unfold subscribe.
    unfold observersOf at 1. rewrite JSMap_get_set_same.
    assert (Hin : includes o (observersOf eventType m ++ [o]) = true).
    { apply includes_In. apply in_or_app. right. now left. }
    now rewrite Hin, Hinc.
  - unfold unsubscribe, observersOf in *.
    destruct (JSMap.get eventType m) as [l|]; [|reflexivity].
    apply indexOf_None in Hnot. now rewrite Hnot.
Qed.

End EmitterFacts.

(* ================================================================== *)
(** * The [MemoryAdapter] that emits events *)

Section EventedFacts.
Context {V : Type}.
Variable clock : nat -> Z.
Import EventedMemoryAdapter.
Implicit Types (st : EventedMemoryAdapter.t V) (key : string).

Local Ltac split_inv :=
  unfold inv; cbn; split; [|split; [|split; [|split; [|split]]]].

Lemma emitEvent_fields ev st :
  store (emitEvent ev st) = store st
  /\ stats (emitEvent ev st) = stats st
  /\ adapterConfig (emitEvent ev st) = adapterConfig st
  /\ events (emitEvent ev st) = events st
  /\ readings (emitEvent ev st) = readings st
  /\ cleanupTimer (emitEvent ev st) = cleanupTimer st
  /\ delivered (emitEvent ev st)
     = (delivered st
        ++ if emitEvents (adapterConfig st)
           then Events.emit ev (events st) else [])%list.
Proof.
  unfold emitEvent. destruct (emitEvents (adapterConfig st)); cbn;
    rewrite ?List.app_nil_r; repeat split.
Qed.

Lemma evented_inv_emitEvent config ev st :
  inv config st -> inv config (emitEvent ev st).
Proof.
  intros (Hc & Hwf & Hk & Hcap & Ht & Hq).
  destruct (emitEvent_fields ev st) as (Hs & Hst & Hcf & He & _ & _).
  unfold inv. rewrite Hs, Hst, Hcf, He.
  split; [exact Hc|]. split; [exact Hwf|]. split; [exact Hk|].
  split; [exact Hcap|]. split; [exact Ht|].
  intros Hoff. unfold emitEvent. rewrite Hc, Hoff. auto.
Qed.

(** A change of the map together with the refreshed [keys] counter. *)
Lemma evented_inv_store config st (m : JSMap.t StorageEntry) s n :
  inv config st ->
  JSMap.wf m ->
  (JSMap.size m = 0 \/ JSMap.size m <= maxKeys config) ->
  inv config
    {| store := m; adapterConfig := adapterConfig st; events := events st;
       stats := {| Events.hits := Events.hits s;
                   Events.misses := Events.misses s;
                   Events.sets := Events.sets s;
                   Events.deletes := Events.deletes s;
                   Events.expired := Events.expired s;
                   Events.errors := Events.errors s;
                   Events.keys := JSMap.size m |};
       cleanupTimer := cleanupTimer st; readings := n;
       delivered := delivered st |}.
Proof.
  intros (Hc & Hwf & Hk & Hcap & Ht & Hq) Hwfm Hcapm.
  split_inv; auto.
Qed.

(** A change of counters other than [keys], and of the readings. *)
Lemma evented_inv_stats config st s n :
  inv config st ->
  Events.keys s = Events.keys (stats st) ->
  inv config
    {| store := store st; adapterConfig := adapterConfig st;
       events := events st; stats := s; cleanupTimer := cleanupTimer st;
       readings := n; delivered := delivered st |}.
Proof.
  intros (Hc & Hwf & Hk & Hcap & Ht & Hq) Hs.
  split_inv; auto. now rewrite Hs.
Qed.

Lemma expiredNow_spec entry st :
  fst (expiredNow clock entry st)
  = MemoryAdapter.isExpired (clock (readings st)) entry
  /\ store (snd (expiredNow clock entry st)) = store st
  /\ stats (snd (expiredNow clock entry st)) = stats st
  /\ adapterConfig (snd (expiredNow clock entry st)) = adapterConfig st
  /\ events (snd (expiredNow clock entry st)) = events st
  /\ delivered (snd (expiredNow clock entry st)) = delivered st
  /\ cleanupTimer (snd (expiredNow clock entry st)) = cleanupTimer st.
Proof.
  unfold expiredNow, MemoryAdapter.isExpired.
  destruct (expires entry) as [e|]; [|repeat split].
  destruct (truthy e); repeat split.
Qed.

Lemma evented_inv_expiredNow config entry st :
  inv config st -> inv config (snd (expiredNow clock entry st)).
Proof.
  intros Hinv. unfold expiredNow.
  destruct (expires entry) as [e|]; [|exact Hinv].
  destruct (truthy e); [|exact Hinv].
  cbn. now apply evented_inv_stats.
Qed.

Lemma JSMap_size_delete_le {A} k (m : JSMap.t A) :
  JSMap.size (JSMap.delete k m) <= JSMap.size m.
Proof. rewrite JSMap_size_delete. destruct (JSMap.has k m); lia. Qed.

Lemma capacity_shrink (config : Config V) (m m' : JSMap.t StorageEntry) :
  (JSMap.size m = 0 \/ JSMap.size m <= maxKeys config) ->
  JSMap.size m' <= JSMap.size m ->
  JSMap.size m' = 0 \/ JSMap.size m' <= maxKeys config.
Proof.
  intros [H|H] Hle; [left | right; lia].
  pose proof (JSMap_size_nonneg m'). lia.
Qed.

Lemma evented_inv_caught {A} config operation k error st :
  inv config st ->
  inv config (snd (caught (A := A) clock operation k error st)).
Proof.
  intros Hinv. unfold caught, emitError. cbn.
  apply evented_inv_emitEvent. now apply evented_inv_stats.
Qed.

Lemma evented_inv_get config key st :
  inv config st -> inv config (snd (get clock key st)).
Proof.
  intros Hinv. unfold get.
  destruct (JSMap.get key (store st)) as [entry|].
  - pose proof (evented_inv_expiredNow config entry st Hinv) as Hinv1.
    destruct (expiredNow_spec entry st) as (_ & Hs & Hst & _).
    destruct (expiredNow clock entry st) as [gone st1]. cbn [fst snd] in *.
    destruct gone.
    + cbn. apply evented_inv_emitEvent.
      pose proof Hinv1 as (Hc & Hwf & Hk & Hcap & Ht & Hq).
      apply (evented_inv_store config st1 _ (incr_expired (stats st1))); auto.
      * now apply JSMap_wf_delete.
      * apply (capacity_shrink config (store st1)); auto.
        apply JSMap_size_delete_le.
    + destruct (deserialize _ _) as [v|error].
      * cbn. apply evented_inv_emitEvent. now apply evented_inv_stats.
      * apply evented_inv_caught. now apply evented_inv_stats.
  - cbn. apply evented_inv_emitEvent. now apply evented_inv_stats.
Qed.

Lemma expiresAt_spec eff st :
  fst (expiresAt clock eff st)
  = match eff with
    | Some ttl => if 0 <? ttl then Some (clock (readings st) + ttl) else None
    | None => None
    end
  /\ store (snd (expiresAt clock eff st)) = store st
  /\ stats (snd (expiresAt clock eff st)) = stats st
  /\ adapterConfig (snd (expiresAt clock eff st)) = adapterConfig st
  /\ events (snd (expiresAt clock eff st)) = events st
  /\ delivered (snd (expiresAt clock eff st)) = delivered st.
Proof.
  unfold expiresAt. destruct eff as [ttl|]; [|repeat split].
  rewrite Z.gtb_ltb. unfold truthy.
  destruct (Z.ltb_spec 0 ttl); destruct (Z.eqb_spec ttl 0);
    try lia; repeat split.
Qed.

Lemma evented_inv_expiresAt config eff st :
  inv config st -> inv config (snd (expiresAt clock eff st)).
Proof.
  intros Hinv. unfold expiresAt. destruct eff as [ttl|]; [|exact Hinv].
  destruct (truthy ttl && (ttl >? 0)); [|exact Hinv].
  cbn. now apply evented_inv_stats.
Qed.

Lemma evented_inv_set config key (v : V) ttl st :
  inv config st -> inv config (snd (set clock key v ttl st)).
Proof.
  intros Hinv. unfold set.
  destruct (negb (JSMap.has key (store st))
            && (JSMap.size (store st) >=? maxKeys (adapterConfig st)))
    eqn:Hchk.
  - apply evented_inv_caught. unfold emitError. cbn. apply evented_inv_emitEvent.
    now apply evented_inv_stats.
  - pose proof (evented_inv_expiresAt config (effectiveTTL ttl st) st Hinv) as Hinv1.
    destruct (expiresAt_spec (effectiveTTL ttl st) st)
      as (_ & Hs & _ & Hcf & _).
    destruct (expiresAt clock (effectiveTTL ttl st) st) as [expires st1].
    cbn [fst snd] in *.
    destruct (serialize _ _) as [text|error]; [|now apply evented_inv_caught].
    cbn. apply evented_inv_emitEvent.
    pose proof Hinv1 as (Hc & Hwf & Hk & Hcap & Ht & Hq).
    apply (evented_inv_store config st1 _ (incr_sets (stats st1))); auto.
    + now apply JSMap_wf_set.
    + rewrite JSMap_size_set, Hs.
      apply andb_false_iff in Hchk.
      destruct (JSMap.has key (store st)); [now rewrite <- Hs|].
      destruct Hchk as [Hchk|Hchk]; [discriminate|].
      rewrite Z.geb_leb in Hchk. apply Z.leb_gt in Hchk.
      pose proof Hinv as (Hc0 & _). rewrite Hc0 in Hchk. right. lia.
Qed.

Lemma evented_inv_delete config key st :
  inv config st -> inv config (snd (delete clock key st)).
Proof.
  intros Hinv. unfold delete.
  destruct (JSMap.has key (store st)); [|exact Hinv].
  cbn. apply evented_inv_emitEvent.
  pose proof Hinv as (Hc & Hwf & Hk & Hcap & Ht & Hq).
  apply (evented_inv_store config st _ (incr_deletes (stats st))); auto.
  - now apply JSMap_wf_delete.
  - apply (capacity_shrink config (store st)); auto. apply JSMap_size_delete_le.
Qed.

Lemma evented_inv_exists config key st :
  inv config st -> inv config (snd (exists_ clock key st)).
Proof.
  intros Hinv. unfold exists_.
  destruct (JSMap.get key (store st)) as [entry|]; [|exact Hinv].
  pose proof (evented_inv_expiredNow config entry st Hinv) as Hinv1.
  destruct (expiredNow clock entry st) as [gone st1]. cbn [fst snd] in *.
  destruct gone; [|exact Hinv1].
  cbn. apply evented_inv_emitEvent.
  pose proof Hinv1 as (Hc & Hwf & Hk & Hcap & Ht & Hq).
  apply (evented_inv_store config st1 _ (incr_expired (stats st1))); auto.
  - now apply JSMap_wf_delete.
  - apply (capacity_shrink config (store st1)); auto. apply JSMap_size_delete_le.
Qed.

Lemma evented_inv_clear config st :
  inv config st -> inv config (clear clock st).
Proof.
  intros Hinv. unfold clear. cbn. apply evented_inv_emitEvent.
  pose proof Hinv as (Hc & Hwf & Hk & Hcap & Ht & Hq).
  split_inv; auto. constructor.
Qed.

Lemma evented_inv_mget config ks :
  forall st, inv config st -> inv config (snd (mget clock ks st)).
Proof.
  induction ks as [|k r IH]; intros st Hinv; [exact Hinv|].
  cbn [mget]. pose proof (evented_inv_get config k st Hinv) as H1.
  destruct (get clock k st) as [r1 st1]. cbn [snd] in H1.
  specialize (IH st1 H1). destruct (mget clock r st1) as [rs st2].
  exact IH.
Qed.

Lemma evented_inv_mset config (entries : list (string * V)) ttl :
  forall st, inv config st -> inv config (snd (mset clock entries ttl st)).
Proof.
  induction entries as [|[k v] r IH]; intros st Hinv; [exact Hinv|].
  cbn [mset]. pose proof (evented_inv_set config k v ttl st Hinv) as H1.
  destruct (set clock k v ttl st) as [[[]|e] st1]; cbn [snd] in *.
  - now apply IH.
  - exact H1.
Qed.

Lemma evented_inv_deleteMany_loop config ks :
  forall b st,
    inv config st -> inv config (snd (deleteMany_loop clock ks b st)).
Proof.
  induction ks as [|k r IH]; intros b st Hinv; [exact Hinv|].
  cbn [deleteMany_loop]. pose proof (evented_inv_delete config k st Hinv) as H1.
  destruct (delete clock k st) as [d st1]. now apply IH.
Qed.

(** The sweep: what it returns, what it leaves, what it counts and what it
    reports. *)
Lemma evented_cleanup_loop_spec now :
  forall visit pre cleaned st,
    store st = (pre ++ visit)%list ->
    JSMap.wf (pre ++ visit)%list ->
    fst (cleanup_loop now visit cleaned st)
    = cleaned + MemoryAdapter.count_expired now visit
    /\ store (snd (cleanup_loop now visit cleaned st))
       = (pre ++ List.filter (MemoryAdapter.live now) visit)%list
    /\ stats (snd (cleanup_loop now visit cleaned st))
       = {| Events.hits := Events.hits (stats st);
            Events.misses := Events.misses (stats st);
            Events.sets := Events.sets (stats st);
            Events.deletes := Events.deletes (stats st);
            Events.expired := Events.expired (stats st)
                              + MemoryAdapter.count_expired now visit;
            Events.errors := Events.errors (stats st);
            Events.keys := Events.keys (stats st) |}
    /\ adapterConfig (snd (cleanup_loop now visit cleaned st))
       = adapterConfig st
    /\ events (snd (cleanup_loop now visit cleaned st)) = events st
    /\ readings (snd (cleanup_loop now visit cleaned st)) = readings st
    /\ delivered (snd (cleanup_loop now visit cleaned st))
       = (delivered st
          ++ if emitEvents (adapterConfig st)
             then List.flat_map
                    (fun ke => Events.emit (event "expired" (Some (fst ke)) now)
                                           (events st))
                    (List.filter
                       (fun ke => MemoryAdapter.isExpired now (snd ke)) visit)
             else [])%list.
Proof.
  unfold MemoryAdapter.count_expired.
  induction visit as [|[k e] rest IH]; intros pre cleaned st Hst Hwf.
  - cbn. rewrite !Z.add_0_r, !List.app_nil_r. rewrite Hst, List.app_nil_r.
    destruct (stats st). destruct (emitEvents (adapterConfig st));
      now rewrite ?List.app_nil_r.
  - assert (Hlive : MemoryAdapter.live now (k, e)
                    = negb (MemoryAdapter.isExpired now e)) by reflexivity.
    cbn [cleanup_loop List.filter snd fst]. rewrite Hlive.
    destruct (MemoryAdapter.isExpired now e) eqn:He; cbn [negb].
    + assert (Hdel : JSMap.delete k (store st) = (pre ++ rest)%list).
      { rewrite Hst. apply JSMap_delete_middle.
        unfold JSMap.wf, JSMap.keys in Hwf. rewrite map_app in Hwf.
        apply NoDup_remove_2 in Hwf. simpl in Hwf.
        intros Hin. apply Hwf. apply in_or_app. now left. }
      match goal with
      | |- context [cleanup_loop now rest (cleaned + 1) (emitEvent ?ev ?s)] =>
          pose proof (emitEvent_fields ev s) as HF;
          remember (emitEvent ev s) as st2 eqn:Hdef; clear Hdef
      end.
      destruct HF as (Hs2 & Hst2 & Hcf2 & Hev2 & Hr2 & _ & Hd2).
      cbn in Hs2, Hst2, Hcf2, Hev2, Hr2, Hd2.
      destruct (IH pre (cleaned + 1) st2) as (H1 & H2 & H3 & H4 & H5 & H6 & H7).
      * now rewrite Hs2.
      * unfold JSMap.wf, JSMap.keys in *. rewrite map_app in *.
        simpl in Hwf. now apply NoDup_remove_1 in Hwf.
      * rewrite H1, H2, H3, H4, H5, H6, H7, Hst2, Hcf2, Hev2, Hr2, Hd2.
        cbn [List.length List.flat_map fst]. rewrite Nat2Z.inj_succ.
        split; [lia|]. split; [reflexivity|].
        split; [cbn; f_equal; lia|]. split; [reflexivity|].
        split; [reflexivity|]. split; [reflexivity|].
        destruct (emitEvents (adapterConfig st)); cbn.
        -- now rewrite <- List.app_assoc.
        -- now rewrite !List.app_nil_r.
    + destruct (IH (pre ++ [(k, e)])%list cleaned st)
        as (H1 & H2 & H3 & H4 & H5 & H6 & H7).
      * now rewrite <- List.app_assoc.
      * now rewrite <- List.app_assoc.
      * rewrite H1, H2, H3, H4, H5, H6, H7.
        rewrite <- List.app_assoc. repeat split.
Qed.

Lemma evented_cleanup_spec st :
  JSMap.wf (store st) ->
  fst (cleanup clock st)
  = MemoryAdapter.count_expired (clock (readings st)) (store st)
  /\ store (snd (cleanup clock st))
     = List.filter (MemoryAdapter.live (clock (readings st))) (store st)
  /\ Events.keys (stats (snd (cleanup clock st)))
     = JSMap.size (store (snd (cleanup clock st)))
  /\ Events.expired (stats (snd (cleanup clock st)))
     = Events.expired (stats st)
       + MemoryAdapter.count_expired (clock (readings st)) (store st)
  /\ adapterConfig (snd (cleanup clock st)) = adapterConfig st
  /\ events (snd (cleanup clock st)) = events st
  /\ readings (snd (cleanup clock st)) = S (readings st)
  /\ delivered (snd (cleanup clock st))
     = (delivered st
        ++ if emitEvents (adapterConfig st)
           then List.flat_map
                  (fun ke => Events.emit
                               (event "expired" (Some (fst ke))
                                      (clock (readings st)))
                               (events st))
                  (List.filter
                     (fun ke => MemoryAdapter.isExpired (clock (readings st))
                                                        (snd ke))
                     (store st))
           else [])%list.
Proof.
  intros Hwf.
  pose proof (evented_cleanup_loop_spec (clock (readings st)) (store st) [] 0
                (snd (Date_now clock st)) eq_refl Hwf) as H.
  unfold cleanup, Date_now, JSMap.entries in *. cbn [fst snd store] in *.
  match goal with
  | _ : context [cleanup_loop ?n ?v 0 ?s] |- _ =>
      destruct (cleanup_loop n v 0 s) as [cleaned st2]
  end.
  cbn [fst snd] in *.
  destruct H as (H1 & H2 & H3 & H4 & H5 & H6 & H7).
  cbn in H1, H2, H3, H4, H5, H6, H7 |- *.
  rewrite H2, H3, H4, H5, H6, H7. cbn. repeat split; auto.
Qed.

Lemma evented_inv_cleanup config st :
  inv config st -> inv config (snd (cleanup clock st)).
Proof.
  intros Hinv. pose proof Hinv as (Hc & Hwf & Hk & Hcap & Ht & Hq).
  destruct (evented_cleanup_spec st Hwf) as (_ & H2 & H3 & _ & H5 & H6 & _ & H8).
  unfold inv. rewrite H2, H5, H6 in *.
  split; [exact Hc|]. split; [now apply wf_filter|].
  split; [exact H3|]. split.
  - apply (capacity_shrink config (store st)); auto.
    unfold JSMap.size.
    pose proof (filter_live_complement (clock (readings st)) (store st)).
    lia.
  - split; [exact Ht|]. intros Hoff. rewrite H8, Hc, Hoff, (Hq Hoff).
    reflexivity.
Qed.

Lemma evented_inv_run config c st :
  inv config st -> inv config (run clock c st).
Proof.
  intros Hinv.
  destruct c as [key|key v ttl|key|key| |ks|entries ttl|ks|eventType o
                |eventType o| | |]; cbn [run].
  - now apply evented_inv_get.
  - now apply evented_inv_set.
  - now apply evented_inv_delete.
  - now apply evented_inv_exists.
  - now apply evented_inv_clear.
  - now apply evented_inv_mget.
  - now apply evented_inv_mset.
  - now apply evented_inv_deleteMany_loop.
  - destruct Hinv as (Hc & Hwf & Hk & Hcap & Ht & Hq).
    split_inv; auto. now apply tidy_subscribe.
  - destruct Hinv as (Hc & Hwf & Hk & Hcap & Ht & Hq).
    split_inv; auto. now apply tidy_unsubscribe.
  - now apply evented_inv_cleanup.
  - unfold keys. pose proof (evented_inv_cleanup config st Hinv) as H.
    destruct (cleanup clock st) as [n st1]. exact H.
  - destruct Hinv as (Hc & Hwf & Hk & Hcap & Ht & Hq).
    split_inv; auto; try (now repeat constructor).
Qed.

Lemma evented_inv_history (config : Config V) calls :
  inv config (history clock config calls).
Proof.
  unfold history.
  assert (H : forall st, inv config st ->
              inv config (List.fold_left (fun st c => run clock c st) calls st)).
  { induction calls as [|c r IH]; intros st Hst; [exact Hst|].
    apply IH. now apply evented_inv_run. }
  apply H. split_inv; auto; try (now repeat constructor).
Qed.

(** X25. In the revision with events [keys()] sweeps first: it returns
    exactly the keys whose entries have not expired at the one reading of
    the clock the sweep makes, leaves exactly those entries in the map,
    refreshes the [keys] counter, counts every evicted entry as expired and
    reports one ['expired'] event per evicted key, in map order, stamped
    with that reading. *)
Theorem X25_evented_keys_hide_expired st :
  JSMap.wf (store st) ->
  fst (keys clock st)
  = JSMap.keys
      (List.filter (MemoryAdapter.live (clock (readings st))) (store st))
  /\ (forall k,
        In k (fst (keys clock st))
        <-> exists entry,
            JSMap.get k (store st) = Some entry
            /\ MemoryAdapter.isExpired (clock (readings st)) entry = false)
  /\ store (snd (keys clock st))
     = List.filter (MemoryAdapter.live (clock (readings st))) (store st)
  /\ Events.keys (stats (snd (keys clock st)))
     = Z.of_nat (List.length (fst (keys clock st)))
  /\ Events.expired (stats (snd (keys clock st)))
     = Events.expired (stats st)
       + (JSMap.size (store st) - JSMap.size (store (snd (keys clock st))))
  /\ delivered (snd (keys clock st))
     = (delivered st
        ++ if emitEvents (adapterConfig st)
           then List.flat_map
                  (fun ke => Events.emit
                               (event "expired" (Some (fst ke))
                                      (clock (readings st)))
                               (events st))
                  (List.filter
                     (fun ke => MemoryAdapter.isExpired (clock (readings st))
                                                        (snd ke))
                     (store st))
           else [])%list.
Proof.
  intros Hwf.
  destruct (evented_cleanup_spec st Hwf) as (_ & H2 & H3 & H4 & _ & _ & _ & H8).
  unfold keys. destruct (cleanup clock st) as [n st1]. cbn [fst snd] in *.
  rewrite H2. split; [reflexivity|]. split; [|split; [reflexivity|split]].
  - intros k. rewrite <- JSMap_has_keys. unfold JSMap.has.
    rewrite get_filter by assumption. unfold MemoryAdapter.live.
    destruct (JSMap.get k (store st)) as [entry|]; cbn [snd].
    + destruct (MemoryAdapter.isExpired (clock (readings st)) entry) eqn:He;
        cbn [negb].
      * split; [discriminate|]. intros (e & [= <-] & H). congruence.
      * split; [eauto | reflexivity].
    + split; [discriminate|]. intros (e & H & _). discriminate.
  - rewrite H3, H2. unfold JSMap.size, JSMap.keys.
    now rewrite List.length_map.
  - split; [|exact H8]. rewrite H4.
    unfold MemoryAdapter.count_expired, JSMap.size.
    pose proof (filter_live_complement (clock (readings st)) (store st)).
    lia.
Qed.

(** X26. In the revision with events a [set] that returns stores an
    expiry only for a positive effective ttl ([now + ttl], with [now] read
    from the clock at that point); an explicit ttl that is zero or negative,
    or no ttl with a default that is zero or negative, stores none, and the
    value is then found by every later [get], whatever the clock reads. *)
Theorem X26_evented_ttl_rule key (v : V) ttl st st' :
  set clock key v ttl st = (Returned tt, st') ->
  exists text,
    serialize (serialization (adapterConfig st)) v = Returned text
    /\ JSMap.get key (store st')
       = Some {| value := text;
                 expires :=
                   match effectiveTTL ttl st with
                   | Some e =>
                       if 0 <? e then Some (clock (readings st) + e)
                       else None
                   | None => None
                   end |}
    /\ (forall e, ttl = Some e -> e <= 0 ->
        forall clock',
          fst (get clock' key st')
          = Observations.decoded (serialization (adapterConfig st)) text)
    /\ ((ttl = None /\ defaultTTL (adapterConfig st) <= 0) ->
        forall clock',
          fst (get clock' key st')
          = Observations.decoded (serialization (adapterConfig st)) text).
Proof.
  unfold set.
  destruct (negb (JSMap.has key (store st))
            && (JSMap.size (store st) >=? maxKeys (adapterConfig st)));
    [discriminate|].
  destruct (expiresAt_spec (effectiveTTL ttl st) st)
    as (Hexp & Hs & _ & Hcf & _).
  destruct (expiresAt clock (effectiveTTL ttl st) st) as [expires st1].
  cbn [fst snd] in *.
  destruct (serialize _ _) as [text|error]; [|discriminate].
  cbn. intros [= <-]. exists text. split; [reflexivity|].
  destruct (emitEvent_fields
              {| Events.type := "set"; Events.key := Some key;
                 Events.value := Some v; Events.ttl := effectiveTTL ttl st;
                 Events.error := None;
                 Events.timestamp := clock (readings st1) |}
              {| store := JSMap.set key {| value := text; expires := expires |}
                                    (store st1);
                 adapterConfig := adapterConfig st1; events := events st1;
                 stats := {| Events.hits := Events.hits (stats st1);
                             Events.misses := Events.misses (stats st1);
                             Events.sets := Events.sets (stats st1) + 1;
                             Events.deletes := Events.deletes (stats st1);
                             Events.expired := Events.expired (stats st1);
                             Events.errors := Events.errors (stats st1);
                             Events.keys :=
                               JSMap.size
                                 (JSMap.set key
                                    {| value := text; expires := expires |}
                                    (store st1)) |};
                 cleanupTimer := cleanupTimer st1;
                 readings := S (readings st1);
                 delivered := delivered st1 |})
    as (Hs' & _ & Hcf' & _).
  cbn in Hs', Hcf'.
  assert (Hget : forall st2,
            store st2 = JSMap.set key {| value := text; expires := expires |}
                                  (store st1) ->
            adapterConfig st2 = adapterConfig st1 ->
            expires = None ->
            forall clock',
              fst (get clock' key st2)
              = Observations.decoded (serialization (adapterConfig st)) text).
  { intros st2 Hst2 Hc2 -> clock'. unfold get.
    rewrite Hst2, JSMap_get_set_same. cbn.
    rewrite Hc2, Hcf. unfold Observations.decoded.
    destruct (deserialize _ _); reflexivity. }
  split; [|split].
  - rewrite Hs', JSMap_get_set_same. now rewrite Hexp.
  - intros e -> Hle clock'. apply Hget; auto. rewrite Hexp. cbn.
    destruct (Z.ltb_spec 0 e); [lia | reflexivity].
  - intros [-> Hle] clock'. apply Hget; auto. rewrite Hexp.
    unfold effectiveTTL, nullish, or_undefined, truthy.
    destruct (Z.eqb_spec (defaultTTL (adapterConfig st)) 0); cbn;
      [reflexivity|].
    destruct (Z.ltb_spec 0 (defaultTTL (adapterConfig st)));
      [lia | reflexivity].
Qed.

Lemma errors_caught {A} operation k error st :
  Events.errors (stats (snd (caught (A := A) clock operation k error st)))
  = Events.errors (stats st) + 1.
Proof.
  unfold caught, emitError. cbn.
  match goal with
  | |- context [emitEvent ?ev ?s] =>
      destruct (emitEvent_fields ev s) as (_ & -> & _)
  end.
  reflexivity.
Qed.

(** X27. In the revision with events a [set] of a new key at the limit
    throws the limit error, leaves the map alone, counts one error, reads
    the clock twice and reports the error twice to the observers of
    ['error'] (once before the throw, once in the [catch] clause); [set] and
    [get] count an error exactly when they throw. *)
Theorem X27_evented_failures_are_counted_and_reported key (v : V) ttl st :
  (negb (JSMap.has key (store st))
   && (JSMap.size (store st) >=? maxKeys (adapterConfig st)) = true ->
   fst (set clock key v ttl st) = Thrown (maxKeysError st)
   /\ store (snd (set clock key v ttl st)) = store st
   /\ stats (snd (set clock key v ttl st)) = incr_errors (stats st)
   /\ readings (snd (set clock key v ttl st)) = S (S (readings st))
   /\ delivered (snd (set clock key v ttl st))
      = (delivered st
         ++ if emitEvents (adapterConfig st)
            then Events.emit
                   {| Events.type := "error"; Events.key := Some key;
                      Events.value := None; Events.ttl := None;
                      Events.error := Some (maxKeysError st);
                      Events.timestamp := clock (readings st) |}
                   (events st)
                 ++ Events.emit
                      {| Events.type := "error"; Events.key := Some key;
                         Events.value := None; Events.ttl := None;
                         Events.error := Some (maxKeysError st);
                         Events.timestamp := clock (S (readings st)) |}
                      (events st)
            else [])%list)
  /\ Events.errors (stats (snd (set clock key v ttl st)))
     = Events.errors (stats st)
       + (if returned (fst (set clock key v ttl st)) then 0 else 1)
  /\ Events.errors (stats (snd (get clock key st)))
     = Events.errors (stats st)
       + (if returned (fst (get clock key st)) then 0 else 1).
Proof.
  split; [|split].
  - intros Hchk. unfold set. rewrite Hchk.
    unfold caught, emitError, emitEvent. cbn.
    destruct (emitEvents (adapterConfig st)) eqn:He; cbn; rewrite ?He; cbn.
    + repeat split. now rewrite <- List.app_assoc.
    + repeat split. now rewrite List.app_nil_r.
  - unfold set.
    destruct (negb (JSMap.has key (store st))
              && (JSMap.size (store st) >=? maxKeys (adapterConfig st))).
    + rewrite errors_caught. unfold emitError. cbn.
      match goal with
      | |- context [emitEvent ?ev ?s] =>
          destruct (emitEvent_fields ev s) as (_ & -> & _)
      end.
      reflexivity.
    + destruct (expiresAt_spec (effectiveTTL ttl st) st)
        as (_ & _ & Hst & _).
      destruct (expiresAt clock (effectiveTTL ttl st) st) as [expires st1].
      cbn [fst snd] in *.
      destruct (serialize _ _) as [text|error].
      * cbn.
        match goal with
        | |- context [emitEvent ?ev ?s] =>
            destruct (emitEvent_fields ev s) as (_ & -> & _)
        end.
        cbn. rewrite Hst. lia.
      * rewrite errors_caught, Hst. reflexivity.
  - unfold get. destruct (JSMap.get key (store st)) as [entry|].
    + destruct (expiredNow_spec entry st) as (_ & _ & Hst & _).
      destruct (expiredNow clock entry st) as [gone st1]. cbn [fst snd] in *.
      destruct gone.
      * cbn.
        match goal with
        | |- context [emitEvent ?ev ?s] =>
            destruct (emitEvent_fields ev s) as (_ & -> & _)
        end.
        cbn. rewrite Hst. lia.
      * destruct (deserialize _ _) as [x|error].
        -- cbn.
           match goal with
           | |- context [emitEvent ?ev ?s] =>
               destruct (emitEvent_fields ev s) as (_ & -> & _)
           end.
           cbn. rewrite Hst. lia.
        -- rewrite errors_caught. cbn. now rewrite Hst.
    + cbn.
      match goal with
      | |- context [emitEvent ?ev ?s] =>
          destruct (emitEvent_fields ev s) as (_ & -> & _)
      end.
      cbn. lia.
Qed.

(** X28. Along every history of the revision with events (single and
    batch operations, subscriptions, sweeps, [keys] and [destroy]) the
    configuration is the constructor's, the map has one entry per key, the
    [keys] counter is the size of the map, the map is empty or within
    [maxKeys], and with [emitEvents] off no observer is ever called. *)
Theorem X28_evented_history_invariant (config : Config V) calls :
  adapterConfig (history clock config calls) = config
  /\ JSMap.wf (store (history clock config calls))
  /\ Events.keys (stats (history clock config calls))
     = JSMap.size (store (history clock config calls))
  /\ (JSMap.size (store (history clock config calls)) = 0
      \/ JSMap.size (store (history clock config calls)) <= maxKeys config)
  /\ (emitEvents config = false ->
      delivered (history clock config calls) = []).
Proof.
  destruct (evented_inv_history config calls) as (Hc & Hwf & Hk & Hcap & _ & Hq).
  auto.
Qed.

End EventedFacts.

(* ================================================================== *)
(** * The basic [MemoryAdapter] *)

Section BasicFacts.
Context {V : Type}.
Import BasicMemoryAdapter.
Implicit Types (st : BasicMemoryAdapter.t V) (key : string) (now : Z).

Lemma basic_expiresAt now ttl :
  expiresAt now ttl
  = match ttl with
    | Some n => if 0 <? n then Some (now + n) else None
    | None => None
    end.
Proof.
  unfold expiresAt, truthy. destruct ttl as [n|]; [|reflexivity].
  rewrite Z.gtb_ltb.
  destruct (Z.ltb_spec 0 n); destruct (Z.eqb_spec n 0); try lia; reflexivity.
Qed.

(** X29. The basic adapter keeps values as given and never applies the
    configured default ttl: after a [set] that returns, the entry holds the
    value itself and an expiry only for a positive explicit ttl; without
    one, [get] returns the value at every later instant, with one it does
    up to and including [now + ttl]; no other key is touched. *)
Theorem X29_basic_adapter_ignores_default_ttl
        now key (v : V) ttl st st' now' :
  set now key v ttl st = (Returned tt, st') ->
  JSMap.get key (store st')
  = Some {| value := v;
            expires := match ttl with
                       | Some n => if 0 <? n then Some (now + n) else None
                       | None => None
                       end |}
  /\ ((ttl = None \/ exists n, ttl = Some n /\ n <= 0) ->
      get now' key st' = (Some v, st'))
  /\ (forall n, ttl = Some n -> 0 < n -> now' <= now + n ->
      get now' key st' = (Some v, st'))
  /\ (forall k', k' <> key ->
      JSMap.get k' (store st') = JSMap.get k' (store st)).
Proof.
  unfold set.
  destruct (negb (JSMap.has key (store st))
            && (JSMap.size (store st) >=? limit st)); [discriminate|].
  intros [= <-]. cbn [store with_store]. rewrite basic_expiresAt.
  assert (Hget : forall e,
            match e with Some x => x = 0 \/ now' <= x | None => True end ->
            get now' key
              (with_store st
                 (JSMap.set key {| value := v; expires := e |} (store st)))
            = (Some v,
               with_store st
                 (JSMap.set key {| value := v; expires := e |} (store st)))).
  { intros e He. unfold get. cbn [store with_store].
    rewrite JSMap_get_set_same. unfold isExpired. cbn [expires value].
    destruct e as [x|]; [|reflexivity].
    unfold truthy. destruct He as [->|Hle]; [reflexivity|].
    rewrite Z.gtb_ltb. destruct (Z.ltb_spec x now'); [lia|].
    now rewrite andb_false_r. }
  split; [apply JSMap_get_set_same|]. split; [|split].
  - intros [->|(n & -> & Hle)]; apply Hget; [exact I|].
    destruct (Z.ltb_spec 0 n); [lia | exact I].
  - intros n -> Hpos Hle. apply Hget.
    destruct (Z.ltb_spec 0 n); [now right | lia].
  - intros k' Hne. now apply JSMap_get_set_other.
Qed.

Lemma basic_inv_shrink config st (m : JSMap.t (Entry V)) :
  inv config st ->
  JSMap.size m <= JSMap.size (store st) ->
  inv config (with_store st m).
Proof.
  intros [Hc Hcap] Hle. split; [exact Hc|]. cbn.
  change (limit (with_store st m)) with (limit st).
  destruct Hcap as [H|H]; [left | right; lia].
  pose proof (JSMap_size_nonneg m). lia.
Qed.

Lemma basic_inv_get config now key st :
  inv config st -> inv config (snd (get now key st)).
Proof.
  intros Hinv. unfold get.
  destruct (JSMap.get key (store st)) as [entry|]; [|exact Hinv].
  destruct (isExpired now entry); [|exact Hinv].
  apply basic_inv_shrink; [exact Hinv | apply JSMap_size_delete_le].
Qed.

Lemma basic_inv_set config now key (v : V) ttl st :
  inv config st -> inv config (snd (set now key v ttl st)).
Proof.
  intros Hinv. unfold set.
  destruct (negb (JSMap.has key (store st))
            && (JSMap.size (store st) >=? limit st)) eqn:Hchk;
    [exact Hinv|].
  destruct Hinv as [Hc Hcap]. split; [exact Hc|]. cbn.
  change (limit (with_store st _)) with (limit st).
  rewrite JSMap_size_set. apply andb_false_iff in Hchk.
  destruct (JSMap.has key (store st)); [exact Hcap|].
  destruct Hchk as [Hchk|Hchk]; [discriminate|].
  rewrite Z.geb_leb in Hchk. apply Z.leb_gt in Hchk. right. lia.
Qed.

Lemma basic_inv_delete config key st :
  inv config st -> inv config (snd (delete key st)).
Proof.
  intros Hinv. apply basic_inv_shrink; [exact Hinv | apply JSMap_size_delete_le].
Qed.

Lemma basic_inv_exists config now key st :
  inv config st -> inv config (snd (exists_ now key st)).
Proof.
  intros Hinv. unfold exists_.
  destruct (JSMap.get key (store st)) as [entry|]; [|exact Hinv].
  destruct (isExpired now entry); [|exact Hinv].
  apply basic_inv_shrink; [exact Hinv | apply JSMap_size_delete_le].
Qed.

Lemma basic_inv_run config c st : inv config st -> inv config (run c st).
Proof.
  intros Hinv.
  destruct c as [now key|now key v ttl|key|now key| |now ks
                |clock entries ttl|ks]; cbn [run].
  - now apply basic_inv_get.
  - now apply basic_inv_set.
  - now apply basic_inv_delete.
  - now apply basic_inv_exists.
  - destruct Hinv as [Hc _]. split; [exact Hc | now left].
  - revert st Hinv. induction ks as [|k r IH]; intros st Hinv; [exact Hinv|].
    cbn [mget]. pose proof (basic_inv_get config now k st Hinv) as H1.
    destruct (get now k st) as [r1 st1]. cbn [snd] in H1.
    specialize (IH st1 H1). now destruct (mget now r st1).
  - unfold mset. generalize 0%nat. revert st Hinv.
    induction entries as [|[k v] r IH]; intros st Hinv i; [exact Hinv|].
    cbn [mset_from].
    pose proof (basic_inv_set config (clock i) k v ttl st Hinv) as H1.
    destruct (set (clock i) k v ttl st) as [[[]|e] st1]; cbn [snd] in *.
    + now apply IH.
    + exact H1.
  - unfold deleteMany. generalize false. revert st Hinv.
    induction ks as [|k r IH]; intros st Hinv b; [exact Hinv|].
    cbn [deleteMany_loop].
    pose proof (basic_inv_delete config k st Hinv) as H1.
    destruct (delete k st) as [d st1]. now apply IH.
Qed.

(** X30. The basic adapter's limit is [maxKeys || 10000]: a configured
    [maxKeys] of 0 (or none) means 10000.  Along every history the map is
    empty or within that limit; a [set] of a new key at the limit throws
    and changes nothing, below the limit every [set] returns; [getStats]
    reports the size and the limit in force. *)
Theorem X30_basic_adapter_limit
        (config : Config) (calls : list (call (V := V))) :
  limit (history config calls)
  = match maxKeys config with
    | Some n => if n =? 0 then 10000 else n
    | None => 10000
    end
  /\ (JSMap.size (store (history config calls)) = 0
      \/ JSMap.size (store (history config calls))
         <= limit (history config calls))
  /\ (forall now key (v : V) ttl,
        JSMap.has key (store (history config calls)) = false ->
        limit (history config calls)
        <= JSMap.size (store (history config calls)) ->
        set now key v ttl (history config calls)
        = (Thrown (maxKeysError (history config calls)),
           history config calls))
  /\ (forall now key (v : V) ttl,
        JSMap.size (store (history config calls))
        < limit (history config calls) ->
        fst (set now key v ttl (history config calls)) = Returned tt)
  /\ getStats (history config calls)
     = (JSMap.size (store (history config calls)),
        limit (history config calls)).
Proof.
  assert (Hinv : inv config (history config calls)).
  { unfold history.
    assert (H : forall st, inv config st ->
                inv config (List.fold_left (fun st c => run c st) calls st)).
    { induction calls as [|c r IH]; intros st Hst; [exact Hst|].
      apply IH. now apply basic_inv_run. }
    apply H. split; [reflexivity | now left]. }
  destruct Hinv as [Hc Hcap].
  split; [|split; [exact Hcap|split; [|split; [|reflexivity]]]].
  - unfold limit. rewrite Hc. unfold truthy.
    destruct (maxKeys config) as [n|]; [|reflexivity].
    now destruct (n =? 0).
  - intros now key v ttl Hhas Hfull. unfold set. rewrite Hhas.
    cbn [negb andb].
    assert (H : (JSMap.size (store (history config calls))
                 >=? limit (history config calls)) = true)
      by (rewrite Z.geb_leb; now apply Z.leb_le).
    now rewrite H.
  - intros now key v ttl Hroom. unfold set.
    assert (H : (JSMap.size (store (history config calls))
                 >=? limit (history config calls)) = false)
      by (rewrite Z.geb_leb; now apply Z.leb_gt).
    rewrite H, andb_false_r. reflexivity.
Qed.

End BasicFacts.

(* ================================================================== *)
(** * The further properties at concrete states *)

Section MoreInstances.
Import JS MemoryAdapter Observations Examples MoreExamples.

Local Ltac distinct_keys :=
  unfold JSMap.wf; vm_compute;
  repeat (constructor; [simpl; intuition discriminate|]);
  constructor.

Lemma X1_witness :
  get (t0 + 50) "temp" onlyTemp
  = (decoded (serialization testConfig)
             (Serialization.defaultSerialize (VString "value")),
     with_stats onlyTemp (incr_hits (stats onlyTemp)))
  /\ exists st2,
      get (t0 + 51) "temp" onlyTemp = (Returned None, st2)
      /\ JSMap.get "temp" (store st2) = None.
Proof.
  assert (Hpos : 0 < 50) by lia.
  assert (Hnz : t0 + 50 <> 0) by (vm_compute; discriminate).
  assert (Hwf : JSMap.wf (store (create testConfig))) by constructor.
  destruct (X1_ttl_window (create testConfig) t0 "temp" (VString "value") 50
              onlyTemp (Serialization.defaultSerialize (VString "value"))
              Hpos Hnz Hwf eq_refl eq_refl) as [Halive Hdead].
  split.
  - apply Halive. lia.
  - destruct (Hdead (t0 + 51)) as (st2 & Hget & Hgone & _); [lia|].
    exists st2. auto.
Defined.

Lemma X2_witness :
  exists_ (t0 + 1000000) "key1" full = (true, full).
Proof.
  assert (Hwf : JSMap.wf (store (create smallConfig))) by constructor.
  assert (Httl : @None Z = Some 0
                 \/ (@None Z = None /\ defaultTTL (options (create smallConfig)) = 0))
    by (right; split; reflexivity).
  exact (proj1 (proj2 (X2_no_ttl_never_expires (create smallConfig) t0 "key1"
                         (VString "value1") None full
                         (Serialization.defaultSerialize (VString "value1"))
                         Httl Hwf eq_refl eq_refl (t0 + 1000000)))).
Defined.

Lemma X3_witness :
  keys (snd (set t0 "b" (VString "again") None three)) = ["a"; "b"; "c"]
  /\ JSMap.get "a" (store (snd (set t0 "b" (VString "again") None three)))
     = JSMap.get "a" (store three).
Proof.
  destruct (X3_set_touches_one_key three t0 "b" (VString "again") None
              (snd (set t0 "b" (VString "again") None three)) eq_refl)
    as (Hother & Hkeys & _).
  split.
  - rewrite Hkeys. vm_compute. reflexivity.
  - apply Hother. discriminate.
Defined.

Lemma X6_witness :
  fst (mget (t0 + 100) ["a"; "b"; "zz"; "a"] three)
  = Returned [Some (VString "x"); None; None; Some (VString "x")].
Proof.
  assert (Hwf : JSMap.wf (store three)) by distinct_keys.
  rewrite (proj1 (X6_mget_pointwise three (t0 + 100) ["a"; "b"; "zz"; "a"] Hwf)).
  vm_compute. reflexivity.
Defined.

Lemma X7_witness :
  fst (deleteMany ["a"; "zz"; "c"] three) = true
  /\ JSMap.get "c" (store (snd (deleteMany ["a"; "zz"; "c"] three))) = None.
Proof.
  assert (Hwf : JSMap.wf (store three)) by distinct_keys.
  destruct (X7_deleteMany three ["a"; "zz"; "c"] Hwf) as (Hres & Hgone & _).
  split.
  - rewrite Hres. vm_compute. reflexivity.
  - apply Hgone. simpl. auto.
Defined.

Lemma X8_witness :
  Stats.keys (stats three) = JSMap.size (store three)
  /\ Stats.memory (stats three) = getMemoryUsage three.
Proof.
  destruct (X8_statistics_are_current testConfig three) as (Hk & Hm & _).
  - apply (reachable_history testConfig).
  - auto.
Defined.

Lemma X10_witness :
  In "a" (keys (snd (cleanup (t0 + 100) three)))
  <-> fst (exists_ (t0 + 100) "a" three) = true.
Proof.
  assert (Hwf : JSMap.wf (store three)) by distinct_keys.
  exact (X10_sweep_leaves_what_exists three (t0 + 100) "a" Hwf).
Defined.

Lemma X11_witness :
  cleanup (t0 + 100) (snd (cleanup (t0 + 100) three))
  = (0, snd (cleanup (t0 + 100) three)).
Proof.
  assert (Hwf : JSMap.wf (store three)) by distinct_keys.
  exact (X11_second_sweep_is_idle three (t0 + 100) Hwf).
Defined.

Lemma X12_witness :
  option_map value
    (JSMap.get "a"
       (store (snd (mset (fun _ => t0) batch None (create testConfig)))))
  = Some (Serialization.defaultSerialize (VNumber 3)).
Proof.
  destruct (X12_mset_last_write_wins (fun _ => t0) batch None
              (create testConfig)
              (snd (mset (fun _ => t0) batch None (create testConfig)))
              eq_refl) as [_ Hlast].
  rewrite (Hlast [("a", VNumber 1); ("b", VNumber 2)] "a" (VNumber 3) []
                 (Serialization.defaultSerialize (VNumber 3)) eq_refl).
  - reflexivity.
  - simpl. tauto.
  - reflexivity.
Defined.

Lemma X16_witness :
  exists e,
    KeyValue.mset (fun _ => t0) [("ok", VNumber 1); ("bad", VUndefined)] None facade
    = (Thrown e, facade).
Proof.
  destruct (X16_batches_are_checked_before_any_write facade) as (Hmset & _).
  apply Hmset. reflexivity.
Defined.

Lemma X17_witness :
  fst (KeyValue.get (t0 + 100) "user" facadeAfterSet)
  = Returned (Some (VString "Alice")).
Proof.
  apply (X17_facade_set_then_get t0 "user" (VString "Alice") (Some 100) facade
           facadeAfterSet
           (Serialization.defaultSerialize (VString "Alice")) (t0 + 100)
           eq_refl eq_refl).
  - vm_compute. reflexivity.
  - intros entry Hget. vm_compute in Hget. injection Hget as <-.
    vm_compute. reflexivity.
Defined.

Lemma X18_witness :
  KeyValue.buildKey otherFacade "7" = KeyValue.buildKey facade "user:7".
Proof.
  destruct (X18_namespaces facade otherFacade) as (_ & _ & Hcollide).
  apply (Hcollide ltac:(discriminate) "user" "7"). reflexivity.
Defined.

End MoreInstances.

Section CodecInstances.
Import JS Shapes MemoryAdapter Examples MoreExamples.




End CodecInstances.

Section OtherInstances.
Import JS Examples AdapterExamples.

Lemma X21_witness :
  EnhancedMemoryAdapter.history (ofConfig testConfig) keyAndTempCalls
  = ofFinal keyAndTemp.
Proof.
  apply (proj1 (proj2 (proj2 (X21_enhanced_histories testConfig
                                keyAndTempCalls)))).
  simpl. intuition discriminate.
Defined.

Lemma X23_witness :
  List.count_occ Nat.eq_dec
    (List.map fst (Events.emit setEvent emitter)) 2%nat = 1%nat.
Proof.
  assert (Htidy : Events.tidy emitter).
  { split.
    - unfold JSMap.wf. vm_compute.
      repeat (constructor; [simpl; intuition discriminate|]). constructor.
    - vm_compute.
      repeat (constructor;
              [split; [discriminate|];
               repeat (constructor; [simpl; intuition discriminate|]);
               constructor|]).
      constructor. }
  exact (proj1 (X23_emit_reaches_each_observer_once setEvent emitter 2%nat
                  Htidy)).
Defined.

Lemma X24_witness :
  snd (Events.createEventSubscription emitter "set" 7%nat)
      (fst (Events.createEventSubscription emitter "set" 7%nat))
  = emitter.
Proof.
  assert (Htidy : Events.tidy emitter).
  { split.
    - unfold JSMap.wf. vm_compute.
      repeat (constructor; [simpl; intuition discriminate|]). constructor.
    - vm_compute.
      repeat (constructor;
              [split; [discriminate|];
               repeat (constructor; [simpl; intuition discriminate|]);
               constructor|]).
      constructor. }
  exact (proj1 (X24_cancel_undoes_subscription emitter "set" 7%nat Htidy
                  eq_refl)).
Defined.

Lemma X25_witness :
  fst (EventedMemoryAdapter.keys ticking eventedKeyAndTemp) = ["key1"].
Proof.
  assert (Hwf : JSMap.wf (EventedMemoryAdapter.store eventedKeyAndTemp)).
  { unfold JSMap.wf. vm_compute.
    repeat (constructor; [simpl; intuition discriminate|]). constructor. }
  rewrite (proj1 (X25_evented_keys_hide_expired ticking eventedKeyAndTemp Hwf)).
  vm_compute. reflexivity.
Defined.

Lemma X26_witness :
  fst (EventedMemoryAdapter.get (fun _ => t0 + 1000000) "k"
         (snd (EventedMemoryAdapter.set ticking "k" (VString "v") (Some (-5))
                 (EventedMemoryAdapter.create eventedConfig))))
  = Returned (Some (VString "v")).
Proof.
  destruct (X26_evented_ttl_rule ticking "k" (VString "v") (Some (-5))
              (EventedMemoryAdapter.create eventedConfig)
              (snd (EventedMemoryAdapter.set ticking "k" (VString "v")
                      (Some (-5))
                      (EventedMemoryAdapter.create eventedConfig)))
              eq_refl)
    as (text & Hser & _ & Hnever & _).
  rewrite (Hnever (-5) eq_refl ltac:(lia) (fun _ => t0 + 1000000)).
  cbn in Hser. injection Hser as <-. vm_compute. reflexivity.
Defined.

Lemma X27_witness :
  fst (EventedMemoryAdapter.set ticking "key2" (VString "value2") None
         eventedFull)
  = Thrown (EventedMemoryAdapter.maxKeysError eventedFull)
  /\ List.length
       (EventedMemoryAdapter.delivered
          (snd (EventedMemoryAdapter.set ticking "key2" (VString "value2")
                  None eventedFull)))
     = (List.length (EventedMemoryAdapter.delivered eventedFull) + 2)%nat.
Proof.
  destruct (proj1 (X27_evented_failures_are_counted_and_reported ticking
                     "key2" (VString "value2") None eventedFull) eq_refl)
    as (Hthrown & _ & _ & _ & Hdelivered).
  split; [exact Hthrown|]. rewrite Hdelivered. vm_compute. reflexivity.
Defined.

Lemma X29_witness :
  BasicMemoryAdapter.get (t0 + 1000000) "k"
    (snd (BasicMemoryAdapter.set t0 "k" (VString "v") None
            (BasicMemoryAdapter.create basicConfig)))
  = (Some (VString "v"),
     snd (BasicMemoryAdapter.set t0 "k" (VString "v") None
            (BasicMemoryAdapter.create basicConfig))).
Proof.
  apply (X29_basic_adapter_ignores_default_ttl t0 "k" (VString "v") None
           (BasicMemoryAdapter.create basicConfig) _ (t0 + 1000000) eq_refl).
  now left.
Defined.

End OtherInstances.
